(** * InfinityPool: a weighted multi-asset liquidity pool

    Shallow embedding of [infinity_pool.cpp].

    Numbers.  The program computes with [double].  In the main embedding
    a [double] is an exact real number ([R]): every arithmetic operation
    is taken without rounding, and the special values of IEEE 754 (NaN, the
    infinities, the signed zero) have no counterpart.  What is proved there
    is the value of the expressions the program evaluates; the program's
    own value is that value rounded.  No theorem relies on the value [R]
    gives to a division by zero.

    Where rounding or a special value decides what a call does (a quotient
    that underflows to zero, a difference that is absorbed, a NaN that
    passes a comparison), exact numbers do not show it.  The methods
    concerned are embedded a second time in the module [Ieee], over
    binary64 numbers, and the statements about those outcomes are made
    there.

    Containers.  A [std::unordered_map<std::string, double>] is an
    association list with distinct keys, the order of the list being the
    iteration order of the map (the standard leaves that order to the
    implementation; two maps with the same entries may differ in it).

    Control.  A method is a computation in a state-and-exception monad over
    the pool object; an exception leaves the pool as the statements
    executed so far have left it. *)

From Stdlib Require Import Reals Lra Lia String List Bool Arith.
From Stdlib Require Floats.
Import ListNotations.
Open Scope R_scope.

(** ** Comparisons on [double] *)

Definition Rleb (x y : R) : bool := if Rle_dec x y then true else false.
Definition Rltb (x y : R) : bool := if Rlt_dec x y then true else false.
Definition Reqb (x y : R) : bool := if Req_dec_T x y then true else false.

(** ** [std::pow]

    On a positive base [std::pow] is the real power.  [pow(x, 0)] is [1]
    for every [x]; [pow(0, y)] is [0] for positive [y]; a negative base
    with an integral exponent gives the signed power of the absolute
    value.  In the remaining cases [std::pow] returns an infinity or NaN,
    which no real number stands for: [0] is put there, and nothing below
    evaluates [pow] at such a point. *)

Definition integral (y : R) : option Z :=
  let n := Int_part y in
  if Req_dec_T (IZR n) y then Some n else None.

Definition pow (x y : R) : R :=
  if Rlt_dec 0 x then Rpower x y
  else if Req_dec_T y 0 then 1
  else if Req_dec_T x 0 then 0
  else match integral y with
       | Some n => (if Z.even n then 1 else -1) * Rpower (- x) y
       | None => 0
       end.

(** ** [std::unordered_map<std::string, double>] *)

Definition token := string.
Definition dmap := list (token * R).

Inductive exn : Set :=
| InvalidArgument   (* std::invalid_argument *)
| OutOfRange        (* std::out_of_range, thrown by [at] *)
| Undefined.        (* the behaviour of the call is undefined *)

Inductive result (A : Type) : Type :=
| Ok (a : A)
| Err (e : exn).
Arguments Ok {A} a.
Arguments Err {A} e.

(** [m.find(k)] *)
Fixpoint find (m : dmap) (k : token) : option R :=
  match m with
  | [] => None
  | (k', v) :: m' => if String.eqb k' k then Some v else find m' k
  end.

(** Overwrites the value stored under a key that is present. *)
Fixpoint replace (m : dmap) (k : token) (v : R) : dmap :=
  match m with
  | [] => []
  | (k', v') :: m' =>
      if String.eqb k' k then (k', v) :: m' else (k', v') :: replace m' k v
  end.

(** [m[k]] as an lvalue: a key that is absent is first inserted with the
    value [0.0].  The new node is put in front, as libstdc++ does for a key
    that falls into an empty bucket. *)
Definition touch (m : dmap) (k : token) : dmap :=
  match find m k with
  | Some _ => m
  | None => (k, 0) :: m
  end.

(** The value read by [m[k]]. *)
Definition index (m : dmap) (k : token) : R :=
  match find m k with
  | Some v => v
  | None => 0
  end.

(** [m[k] = v] *)
Definition assign (m : dmap) (k : token) (v : R) : dmap :=
  replace (touch m k) k v.

(** [std::accumulate(m.begin(), m.end(), 0.0, sum + entry.second)] *)
Definition accumulate (m : dmap) : R :=
  fold_left (fun sum balance => sum + snd balance) m 0.

Definition keys (m : dmap) : list token := map fst m.

(** ** The pool object *)

Definition SUPPLY : R := 1000000000000000.   (* 1e15 *)
Definition FIRST : R := 100000000.           (* 1e8 *)

Record InfinityPool : Type := mkPool {
  tokens : list token;
  weights : dmap;
  balances : dmap;
  shares_issued : R;
  invariant : R
}.

Definition with_weights (w : dmap) (p : InfinityPool) : InfinityPool :=
  mkPool (tokens p) w (balances p) (shares_issued p) (invariant p).
Definition with_balances (b : dmap) (p : InfinityPool) : InfinityPool :=
  mkPool (tokens p) (weights p) b (shares_issued p) (invariant p).
Definition with_shares_issued (s : R) (p : InfinityPool) : InfinityPool :=
  mkPool (tokens p) (weights p) (balances p) s (invariant p).
Definition with_invariant (i : R) (p : InfinityPool) : InfinityPool :=
  mkPool (tokens p) (weights p) (balances p) (shares_issued p) i.

(** ** Methods as computations on the pool *)

Definition M (A : Type) : Type := InfinityPool -> result A * InfinityPool.

Definition ret {A} (a : A) : M A := fun p => (Ok a, p).
Definition throw {A} (e : exn) : M A := fun p => (Err e, p).
Definition bind {A B} (c : M A) (k : A -> M B) : M B :=
  fun p => match c p with
           | (Ok a, p') => k a p'
           | (Err e, p') => (Err e, p')
           end.
Definition get : M InfinityPool := fun p => (Ok p, p).
Definition modify (f : InfinityPool -> InfinityPool) : M unit :=
  fun p => (Ok tt, f p).
Definition lift {A} (r : result A) : M A := fun p => (r, p).

Notation "x <- c ;; k" := (bind c (fun x => k))
  (at level 61, c at next level, right associativity).
Notation "c ;; k" := (bind c (fun _ => k))
  (at level 61, right associativity).

(** A range-based [for] loop. *)
Fixpoint for_each {X} (l : list X) (body : X -> M unit) : M unit :=
  match l with
  | [] => ret tt
  | x :: l' => body x ;; for_each l' body
  end.

(** [m.at(k)] on a map that is not a member of the pool. *)
Definition at_ (m : dmap) (k : token) : M R :=
  match find m k with
  | Some v => ret v
  | None => throw OutOfRange
  end.

(** [balances[k]] and [weights[k]] read through [operator[]]: the key is
    inserted when it is absent. *)
Definition balances_index (k : token) : M R :=
  p <- get ;;
  modify (with_balances (touch (balances p) k)) ;;
  ret (index (balances p) k).

Definition weights_index (k : token) : M R :=
  p <- get ;;
  modify (with_weights (touch (weights p) k)) ;;
  ret (index (weights p) k).

(** [balances.at(k)] *)
Definition balances_at (k : token) : M R :=
  p <- get ;; at_ (balances p) k.

(** [balances[k] += v] *)
Definition balances_add (k : token) (v : R) : M unit :=
  b <- balances_index k ;;
  modify (fun p => with_balances (replace (balances p) k (b + v)) p).

(** [balances[k] -= v] *)
Definition balances_sub (k : token) (v : R) : M unit :=
  b <- balances_index k ;;
  modify (fun p => with_balances (replace (balances p) k (b - v)) p).

(** The constructor. *)
Definition construct (toks : list token) : result InfinityPool :=
  if (length toks <? 2)%nat then Err InvalidArgument
  else Ok (mkPool toks [] [] 0 0).

(** [tokens[0]]; indexing an empty vector is undefined. *)
Definition tokens_0 : M token :=
  p <- get ;;
  match tokens p with
  | [] => throw Undefined
  | t0 :: _ => ret t0
  end.

(** [status()]: a snapshot of the pool, with the constant [SUPPLY] as
    ["shares_supply"]. *)
Definition status : M (InfinityPool * R) :=
  p <- get ;;
  ret (p, SUPPLY).

(** [weights[token] = amount_in.at(token) / std::accumulate(...)]: the
    right-hand side is evaluated first. *)
Definition assign_weight (amount_in : dmap) (token : token) : M unit :=
  a <- at_ amount_in token ;;
  modify (fun q => with_weights
            (assign (weights q) token (a / accumulate amount_in)) q).

Definition initialize (amount_in : dmap) : M unit :=
  p <- get ;;
  if negb (length amount_in =? length (tokens p))%nat then throw InvalidArgument
  else if existsb (fun balance => Rleb (snd balance) 0) amount_in
  then throw InvalidArgument
  else
    modify (with_balances amount_in) ;;
    for_each (tokens p) (assign_weight amount_in) ;;
    modify (with_shares_issued FIRST).

Definition set_invariant : M R :=
  modify (with_invariant 1) ;;
  p <- get ;;
  for_each (tokens p) (fun token =>
    b <- balances_index token ;;
    w <- weights_index token ;;
    modify (fun q => with_invariant (invariant q * pow b w) q)) ;;
  q <- get ;;
  ret (invariant q).

Definition calculate_spot_price (asset currency : token) : M R :=
  p <- get ;;
  match find (balances p) asset, find (balances p) currency with
  | Some _, Some _ =>
      ba <- at_ (balances p) asset ;;
      wa <- at_ (weights p) asset ;;
      bc <- at_ (balances p) currency ;;
      wc <- at_ (weights p) currency ;;
      ret ((ba / wa) / (bc / wc))
  | _, _ => throw InvalidArgument
  end.

(** [std::equal(first1, last1, first2, pred)]: the second range is read as
    far as the first one reaches; reading past its end is undefined. *)
Fixpoint std_equal (l1 l2 : list R) (pred : R -> R -> bool) : result bool :=
  match l1 with
  | [] => Ok true
  | a :: l1' =>
      match l2 with
      | [] => Err Undefined
      | b :: l2' => if pred a b then std_equal l1' l2' pred else Ok false
      end
  end.

(** The normalised amounts of a map, in its iteration order. *)
Definition ratio (m : dmap) : list R :=
  map (fun entry => snd entry / accumulate m) m.

Definition check_deposit_ratio (amount_in : dmap) (tolerance : R) : M bool :=
  p <- get ;;
  let existing_ratio := ratio (balances p) in
  let deposit_ratio := ratio amount_in in
  lift (std_equal existing_ratio deposit_ratio
          (fun a b => Rltb (Rabs (a - b)) tolerance)).

Definition tol : R := 1 / 1000000.   (* 1e-6 *)

(** A loop that also fills a local variable. *)
Fixpoint for_accum {X A} (l : list X) (acc : A) (body : A -> X -> M A) : M A :=
  match l with
  | [] => ret acc
  | x :: l' => acc' <- body acc x ;; for_accum l' acc' body
  end.

Definition weights_empty : M bool :=
  p <- get ;;
  ret (match weights p with [] => true | _ :: _ => false end).

(** The check every ratio-bound method starts with. *)
Definition require_deposit_ratio (amount_in : dmap) : M unit :=
  ok <- check_deposit_ratio amount_in tol ;;
  if negb ok then throw InvalidArgument else ret tt.

(** [for (entry : amount_in) balances[entry.first] += entry.second;] *)
Definition add_all (amount_in : dmap) : M unit :=
  for_each amount_in (fun entry => balances_add (fst entry) (snd entry)).

(** [(amount_in.at(tokens[0]) * SUPPLY) / balances.at(tokens[0])] *)
Definition shares_of_first (amount_in : dmap) : M R :=
  t0 <- tokens_0 ;;
  a <- at_ amount_in t0 ;;
  b <- balances_at t0 ;;
  ret ((a * SUPPLY) / b).

Definition deposit_all (amount_in : dmap) : M R :=
  for_each amount_in (fun entry =>
    if Rleb (snd entry) 0 then throw InvalidArgument else ret tt) ;;
  e <- weights_empty ;;
  if e then
    require_deposit_ratio amount_in ;;
    add_all amount_in ;;
    shares_of_first amount_in
  else
    require_deposit_ratio amount_in ;;
    add_all amount_in ;;
    set_invariant ;;
    shares_of_first amount_in.

(** [std::find_if(..., entry.second != 0)]: the first entry whose amount is
    not zero. *)
Fixpoint find_nonzero (m : dmap) : option (token * R) :=
  match m with
  | [] => None
  | entry :: m' => if negb (Reqb (snd entry) 0) then Some entry else find_nonzero m'
  end.

(** [std::count_if(..., entry.second != 0)] *)
Definition count_nonzero (m : dmap) : nat :=
  List.length (filter (fun entry => negb (Reqb (snd entry) 0)) m).

Definition deposit_one (amount_in : dmap) : M R :=
  e <- weights_empty ;;
  if e then throw InvalidArgument
  else if negb (count_nonzero amount_in =? 1)%nat then throw InvalidArgument
  else
    match find_nonzero amount_in with
    | None => throw Undefined   (* dereferences [end()]; excluded by the count *)
    | Some (t_key, _) =>
        a <- at_ amount_in t_key ;;
        if Rltb a 0 then throw InvalidArgument
        else
          b <- balances_at t_key ;;
          let shares_to_issue := (a * SUPPLY) / b in
          b' <- balances_at t_key ;;
          modify (fun p => with_balances (replace (balances p) t_key (b' + a)) p) ;;
          set_invariant ;;
          ret shares_to_issue
    end.

Definition deposit_any (amount_in : dmap) : M R :=
  e <- weights_empty ;;
  if e then throw InvalidArgument
  else
    require_deposit_ratio amount_in ;;
    add_all amount_in ;;
    set_invariant ;;
    shares_of_first amount_in.

(** The two checks on [redeem] shared by the withdrawals; the result is
    [redeem_ratio].  The quotient is exact here, so that a positive
    [redeem] has a positive ratio; the quotient of two [double]s can
    underflow to zero, and a NaN fails both comparisons: see
    [Ieee.check_redeem]. *)
Definition check_redeem (redeem : R) : M R :=
  if Rleb redeem 0 then throw InvalidArgument
  else
    let redeem_ratio := redeem / SUPPLY in
    p <- get ;;
    if Rltb (shares_issued p) redeem_ratio then throw InvalidArgument
    else ret redeem_ratio.

(** [shares_issued -= redeem_ratio] *)
Definition burn (redeem_ratio : R) : M unit :=
  modify (fun p => with_shares_issued (shares_issued p - redeem_ratio) p).

(** The loop of [withdraw_all]: what leaves the pool, token by token. *)
Definition withdraw_all_amounts (redeem_ratio : R) : M dmap :=
  p <- get ;;
  for_accum (tokens p) [] (fun amount_out token =>
    b <- balances_index token ;;
    s <- (q <- get ;; ret (shares_issued q)) ;;
    w <- weights_index token ;;
    let amount_out := assign amount_out token
                        (b * (1 - pow (s - redeem_ratio) (1 / w))) in
    balances_sub token (index amount_out token) ;;
    ret amount_out).

Definition withdraw_all (redeem : R) : M dmap :=
  redeem_ratio <- check_redeem redeem ;;
  amount_out <- withdraw_all_amounts redeem_ratio ;;
  burn redeem_ratio ;;
  set_invariant ;;
  ret amount_out.

(** The amount [withdraw_one] takes out of the balance of its token. *)
Definition withdraw_one_amount (token : token) (redeem_ratio : R) : M R :=
  b <- balances_index token ;;
  s <- (q <- get ;; ret (shares_issued q)) ;;
  w <- weights_index token ;;
  let amount_out := b * (1 - pow (s - redeem_ratio) (1 / w)) in
  balances_sub token amount_out ;;
  ret amount_out.

Definition withdraw_one (token : token) (redeem : R) : M R :=
  e <- weights_empty ;;
  if e then throw InvalidArgument
  else
    redeem_ratio <- check_redeem redeem ;;
    amount_out <- withdraw_one_amount token redeem_ratio ;;
    burn redeem_ratio ;;
    set_invariant ;;
    ret amount_out.

(** The loop of [withdraw_any]. *)
Definition withdraw_any_amounts (redeem_ratio : R) (ratios : dmap) : M dmap :=
  p <- get ;;
  for_accum (tokens p) [] (fun amount_out token =>
    r <- at_ ratios token ;;
    let amount_out := assign amount_out token (r * redeem_ratio) in
    balances_sub token (index amount_out token) ;;
    ret amount_out).

Definition withdraw_any (redeem : R) (ratios : dmap) : M dmap :=
  e <- weights_empty ;;
  if e then throw InvalidArgument
  else
    ok <- check_deposit_ratio ratios tol ;;
    if negb ok then throw InvalidArgument
    else
      redeem_ratio <- check_redeem redeem ;;
      amount_out <- withdraw_any_amounts redeem_ratio ratios ;;
      burn redeem_ratio ;;
      set_invariant ;;
      ret amount_out.

Definition swap (t_in t_out : token) (amount_in : R) : M R :=
  e <- weights_empty ;;
  if e then throw InvalidArgument
  else if Rleb amount_in 0 then throw InvalidArgument
  else
    b <- balances_index t_in ;;
    if Rltb b amount_in then throw InvalidArgument
    else
      b_out <- balances_index t_out ;;
      b_in <- balances_index t_in ;;
      b_in' <- balances_index t_in ;;
      w_in <- weights_index t_in ;;
      w_out <- weights_index t_out ;;
      let amount_out :=
        b_out * (1 - pow ((b_in - amount_in) / b_in') (w_in / w_out)) in
      balances_sub t_in amount_in ;;
      balances_add t_out amount_out ;;
      set_invariant ;;
      ret amount_out.

Definition equalize (inputs ratio_out : dmap) : M dmap :=
  e <- weights_empty ;;
  if e then throw InvalidArgument
  else
    ok1 <- check_deposit_ratio inputs tol ;;
    ok2 <- (if ok1 then check_deposit_ratio ratio_out tol else ret false) ;;
    if negb ok2 then throw InvalidArgument
    else
      p <- get ;;
      total_weight_in <- for_accum (weights p) 0 (fun acc weight_entry =>
        i <- at_ inputs (fst weight_entry) ;;
        ret (acc + snd weight_entry * i)) ;;
      amount_out <- for_accum (tokens p) [] (fun amount_out token =>
        b <- balances_index token ;;
        w <- weights_index token ;;
        w' <- weights_index token ;;
        let amount_out := assign amount_out token
                            (b * (pow (total_weight_in / w) (1 / w') - 1)) in
        i <- at_ inputs token ;;
        balances_add token i ;;
        ret amount_out) ;;
      set_invariant ;;
      ret amount_out.

(** ** Frame conditions

    [keeps Rel c p]: run from the pool [p], the computation [c] ends
    (normally or by an exception) in a pool related to [p] by [Rel]. *)

Definition keeps {A} (Rel : InfinityPool -> InfinityPool -> Prop)
  (c : M A) (p : InfinityPool) : Prop :=
  Rel p (snd (c p)).

(** Deposits mint no shares: [shares_issued] is left alone. *)
Definition same_shares (p q : InfinityPool) : Prop :=
  tokens q = tokens p /\ shares_issued q = shares_issued p.

(** The token vector is fixed, and a weight map that holds entries never
    becomes empty again. *)
Definition weights_stay (p q : InfinityPool) : Prop :=
  tokens q = tokens p /\ (weights q = [] -> weights p = []).

(** Every token of the list has a weight. *)
Definition weighted (S : list token) (p : InfinityPool) : Prop :=
  forall t, In t S -> find (weights p) t <> None.

(** On a pool in which the tokens of [S] all have a weight, the weights
    are left as they are. *)
Definition same_weights (S : list token) (p q : InfinityPool) : Prop :=
  tokens q = tokens p /\ (weighted S p -> weights q = weights p).

(** The tokens of the pool are among those a frame condition lets
    [weights[...]] be read for. *)
Definition tokens_in (T : token -> Prop) (p : InfinityPool) : Prop :=
  forall x, In x (tokens p) -> T x.

(** ** Example pools *)

Open Scope string_scope.

(** The pool of the swap example: tokens X and Y, [initialize]d with 100 of
    each. *)
Definition pool_new_xy : InfinityPool := mkPool ["X"; "Y"] [] [] 0 0.

Definition pool_xy : InfinityPool :=
  mkPool ["X"; "Y"] [("Y", 1 / 2); ("X", 1 / 2)] [("X", 100); ("Y", 100)] FIRST 0.

Close Scope string_scope.

(** ** The invariant as a function of the pool

    What one turn of the loop of [set_invariant] does to the pool, and the
    value the loop computes on a pool whose tokens all have a balance and a
    weight. *)

Definition invariant_step (q : InfinityPool) (token : token) : InfinityPool :=
  let q1 := with_balances (touch (balances q) token) q in
  let q2 := with_weights (touch (weights q1) token) q1 in
  with_invariant
    (invariant q2 * pow (index (balances q) token) (index (weights q) token)) q2.

Definition invariant_of (toks : list token) (b w : dmap) : R :=
  fold_left (fun acc token => acc * pow (index b token) (index w token)) toks 1.

Open Scope string_scope.

(** [pool_xy] after [swap("X", "Y", 10)]. *)
Definition pool_xy_swapped : InfinityPool :=
  mkPool ["X"; "Y"] [("Y", 1 / 2); ("X", 1 / 2)] [("X", 90); ("Y", 110)] FIRST
    (1 * pow 90 (1 / 2) * pow 110 (1 / 2)).

Close Scope string_scope.

(** ** Balances as a function of the pool *)

(** What [balances[k] += v] does to the map. *)
Definition credit (b : dmap) (k : token) (v : R) : dmap :=
  replace (touch b k) k (index b k + v).

(** What [balances[k] -= v] does to the map. *)
Definition debit (b : dmap) (k : token) (v : R) : dmap :=
  replace (touch b k) k (index b k - v).

(** The key is present in the map. *)
Definition has (m : dmap) (k : token) : Prop := find m k <> None.

Open Scope string_scope.

(** A map with as many entries as the pool of X and Y has tokens, one of
    them under a key that is no token of the pool. *)
Definition amounts_xz : dmap := [("X", 1); ("Z", 2)].

Close Scope string_scope.

(** ** Reading an amount map *)

(** The entry [(t, a)] is the one entry of the map whose amount is not
    zero. *)
Definition only_nonzero (m : dmap) (t : token) (a : R) : Prop :=
  exists l1 l2, m = l1 ++ (t, a) :: l2 /\ a <> 0 /\
                forall e, In e (l1 ++ l2) -> snd e = 0.

(** The keys of a [std::unordered_map] are distinct. *)
Definition is_map (m : dmap) : Prop := NoDup (keys m).

(** ** Runs of the pool *)

(** The outcome is one the language defines: a value or an exception. *)
Definition defined {A} (r : result A) : Prop := r <> Err Undefined.

(** A call of a public method. *)
Inductive call : Type :=
| Status
| Initialize (amount_in : dmap)
| SetInvariant
| CalculateSpotPrice (asset currency : token)
| DepositAll (amount_in : dmap)
| DepositOne (amount_in : dmap)
| DepositAny (amount_in : dmap)
| WithdrawAll (redeem : R)
| WithdrawOne (token : token) (redeem : R)
| WithdrawAny (redeem : R) (ratios : dmap)
| Swap (t_in t_out : token) (amount_in : R)
| Equalize (inputs ratio_out : dmap).

(** How a call ends (no exception, or the exception thrown), and the pool
    it leaves behind. *)
Definition settle {A} (x : result A * InfinityPool) : option exn * InfinityPool :=
  (match fst x with Ok _ => None | Err e => Some e end, snd x).

Definition run (c : call) (p : InfinityPool) : option exn * InfinityPool :=
  match c with
  | Status => settle (status p)
  | Initialize a => settle (initialize a p)
  | SetInvariant => settle (set_invariant p)
  | CalculateSpotPrice x y => settle (calculate_spot_price x y p)
  | DepositAll a => settle (deposit_all a p)
  | DepositOne a => settle (deposit_one a p)
  | DepositAny a => settle (deposit_any a p)
  | WithdrawAll r => settle (withdraw_all r p)
  | WithdrawOne t r => settle (withdraw_one t r p)
  | WithdrawAny r ratios => settle (withdraw_any r ratios p)
  | Swap t_in t_out a => settle (swap t_in t_out a p)
  | Equalize i r => settle (equalize i r p)
  end.

(** The pool a call leaves behind, whether it returns or throws. *)
Definition perform (c : call) (p : InfinityPool) : InfinityPool :=
  snd (run c p).

(** The pools a program can hold: what the constructor returns, and what
    any call whose behaviour is defined leaves of such a pool. *)
Inductive reachable : InfinityPool -> Prop :=
| reach_construct toks p : construct toks = Ok p -> reachable p
| reach_call c p :
    reachable p -> fst (run c p) <> Some Undefined -> reachable (perform c p).

(** ** Proportional maps *)



(** Every amount of the map is positive. *)
Definition all_positive (m : dmap) : Prop :=
  forall entry, In entry m -> 0 < snd entry.

Open Scope string_scope.

(** A pool holding 1 X and 3 Y, as [initialize] leaves it, and the double
    of its balances in a map that iterates Y first. *)
Definition pool_13 : InfinityPool :=
  mkPool ["X"; "Y"] [("Y", 3 / 4); ("X", 1 / 4)] [("X", 1); ("Y", 3)] FIRST 0.


Close Scope string_scope.

(** ** Well-formed pools *)

(** Every token of the pool has a positive balance and a positive weight. *)
Definition positive_pool (p : InfinityPool) : Prop :=
  forall t, In t (tokens p) ->
    (exists b, find (balances p) t = Some b /\ 0 < b) /\
    (exists w, find (weights p) t = Some w /\ 0 < w).

(** Every token of the list has a balance and a weight. *)
Definition covered (l : list token) (p : InfinityPool) : Prop :=
  forall t, In t l -> has (balances p) t /\ has (weights p) t.

(** The product of the values of [g] over a list of tokens. *)
Definition prod (g : token -> R) (l : list token) : R :=
  fold_right (fun t r => g t * r) 1 l.

(** The factor of a token in the invariant. *)
Definition factor (b w : dmap) (t : token) : R :=
  pow (index b t) (index w t).

(** ** Sums over the tokens *)

(** The map without its first entry under [k]. *)
Fixpoint erase (m : dmap) (k : token) : dmap :=
  match m with
  | [] => []
  | (k', v) :: m' => if String.eqb k' k then m' else (k', v) :: erase m' k
  end.

(** The sum of [m[t]] over a list of tokens. *)
Definition total (m : dmap) (l : list token) : R :=
  fold_right (fun t r => index m t + r) 0 l.

(** The weights [initialize] computes from a map of amounts. *)
Definition weights_from (amount_in : dmap) (l : list token) (w : dmap) : dmap :=
  fold_left
    (fun w t => assign w t (index amount_in t / accumulate amount_in)) l w.

(** ** The cached invariant *)

(** The cache holds the invariant of the balances and weights the pool has
    now. *)
Definition fresh (p : InfinityPool) : Prop :=
  invariant p = invariant_of (tokens p) (balances p) (weights p).

(** ** Loops over the tokens *)

(** Two pools that differ in their balances at most. *)
Definition same_but_balances (p q : InfinityPool) : Prop :=
  tokens q = tokens p /\ weights q = weights p /\
  shares_issued q = shares_issued p /\ invariant q = invariant p.

(** What [withdraw_all] and [withdraw_one] take out of the balance of a
    token. *)
Definition withdrawn (p : InfinityPool) (redeem_ratio : R) (t : token) : R :=
  index (balances p) t *
  (1 - pow (shares_issued p - redeem_ratio) (1 / index (weights p) t)).

(** What [equalize] returns for a token. *)
Definition equalized (p : InfinityPool) (total_weight_in : R) (t : token) : R :=
  index (balances p) t *
  (pow (total_weight_in / index (weights p) t) (1 / index (weights p) t) - 1).

(** [total_weight_in] of [equalize]. *)
Definition weighted_inputs (w inputs : dmap) : R :=
  fold_left (fun acc entry => acc + snd entry * index inputs (fst entry)) w 0.

(** ** The invariant across a swap *)

(** [pow((balance_in - amount_in) / balance_in, weight_in / weight_out)],
    the power [swap] computes. *)
Definition swap_share (p : InfinityPool) (t_in t_out : token) (amount_in : R) : R :=
  pow ((index (balances p) t_in - amount_in) / index (balances p) t_in)
      (index (weights p) t_in / index (weights p) t_out).

(** What a swap multiplies the invariant by: with [s] the share above,
    [pow(s * (2 - s), weight_out)]. *)
Definition swap_factor (p : InfinityPool) (t_in t_out : token) (amount_in : R) : R :=
  pow (swap_share p t_in t_out amount_in * (2 - swap_share p t_in t_out amount_in))
      (index (weights p) t_out).

(** ** The methods over IEEE 754 binary64

    Underflow, absorption and NaN decide what some calls do, and exact
    real numbers show none of them.  The methods those outcomes belong to
    are embedded a second time here, statement for statement as above,
    over Rocq's primitive floating-point numbers: these are the binary64
    numbers of IEEE 754 with round-to-nearest-even arithmetic, which is
    what [double] is on the usual platforms.  [std::pow] is implemented by
    the C library, not by the program, and its results are not fixed bit
    for bit: it is a parameter of the methods that call it. *)

Module Ieee.

Import PrimFloat.

Definition double := float.
Definition dmap := list (token * double).

(** [m.find(k)] *)
Fixpoint find (m : dmap) (k : token) : option double :=
  match m with
  | [] => None
  | (k', v) :: m' => if String.eqb k' k then Some v else find m' k
  end.

(** Overwrites the value stored under a key that is present. *)
Fixpoint replace (m : dmap) (k : token) (v : double) : dmap :=
  match m with
  | [] => []
  | (k', v') :: m' =>
      if String.eqb k' k then (k', v) :: m' else (k', v') :: replace m' k v
  end.

(** [m[k]] as an lvalue: an absent key is first inserted with [0.0]. *)
Definition touch (m : dmap) (k : token) : dmap :=
  match find m k with
  | Some _ => m
  | None => (k, zero) :: m
  end.

(** The value read by [m[k]]. *)
Definition index (m : dmap) (k : token) : double :=
  match find m k with
  | Some v => v
  | None => zero
  end.

(** [m[k] = v] *)
Definition assign (m : dmap) (k : token) (v : double) : dmap :=
  replace (touch m k) k v.

(** [std::accumulate(m.begin(), m.end(), 0.0, sum + entry.second)] *)
Definition accumulate (m : dmap) : double :=
  fold_left (fun sum balance => add sum (snd balance)) m zero.

Definition SUPPLY : double := 1e15%float.
Definition FIRST : double := 1e8%float.

Record InfinityPool : Type := mkPool {
  tokens : list token;
  weights : dmap;
  balances : dmap;
  shares_issued : double;
  invariant : double
}.

Definition with_weights (w : dmap) (p : InfinityPool) : InfinityPool :=
  mkPool (tokens p) w (balances p) (shares_issued p) (invariant p).
Definition with_balances (b : dmap) (p : InfinityPool) : InfinityPool :=
  mkPool (tokens p) (weights p) b (shares_issued p) (invariant p).
Definition with_shares_issued (s : double) (p : InfinityPool) : InfinityPool :=
  mkPool (tokens p) (weights p) (balances p) s (invariant p).
Definition with_invariant (i : double) (p : InfinityPool) : InfinityPool :=
  mkPool (tokens p) (weights p) (balances p) (shares_issued p) i.

Definition M (A : Type) : Type := InfinityPool -> result A * InfinityPool.

Definition ret {A} (a : A) : M A := fun p => (Ok a, p).
Definition throw {A} (e : exn) : M A := fun p => (Err e, p).
Definition bind {A B} (c : M A) (k : A -> M B) : M B :=
  fun p => match c p with
           | (Ok a, p') => k a p'
           | (Err e, p') => (Err e, p')
           end.
Definition get : M InfinityPool := fun p => (Ok p, p).
Definition modify (f : InfinityPool -> InfinityPool) : M unit :=
  fun p => (Ok tt, f p).

Declare Scope ieee_scope.
Notation "x <- c ;; k" := (bind c (fun x => k))
  (at level 61, c at next level, right associativity) : ieee_scope.
Notation "c ;; k" := (bind c (fun _ => k))
  (at level 61, right associativity) : ieee_scope.
#[local] Open Scope ieee_scope.

Fixpoint for_each {X} (l : list X) (body : X -> M unit) : M unit :=
  match l with
  | [] => ret tt
  | x :: l' => body x ;; for_each l' body
  end.

Fixpoint for_accum {X A} (l : list X) (acc : A) (body : A -> X -> M A) : M A :=
  match l with
  | [] => ret acc
  | x :: l' => acc' <- body acc x ;; for_accum l' acc' body
  end.

(** [m.at(k)] *)
Definition at_ (m : dmap) (k : token) : M double :=
  match find m k with
  | Some v => ret v
  | None => throw OutOfRange
  end.

(** [balances[k]] and [weights[k]] *)
Definition balances_index (k : token) : M double :=
  p <- get ;;
  modify (with_balances (touch (balances p) k)) ;;
  ret (index (balances p) k).

Definition weights_index (k : token) : M double :=
  p <- get ;;
  modify (with_weights (touch (weights p) k)) ;;
  ret (index (weights p) k).

(** [balances.at(k)] *)
Definition balances_at (k : token) : M double :=
  p <- get ;; at_ (balances p) k.

(** [balances[k] -= v] *)
Definition balances_sub (k : token) (v : double) : M unit :=
  b <- balances_index k ;;
  modify (fun p => with_balances (replace (balances p) k (sub b v)) p).

(** The constructor. *)
Definition construct (toks : list token) : result InfinityPool :=
  if (List.length toks <? 2)%nat then Err InvalidArgument
  else Ok (mkPool toks [] [] zero zero).

Definition assign_weight (amount_in : dmap) (token : token) : M unit :=
  a <- at_ amount_in token ;;
  modify (fun q => with_weights
            (assign (weights q) token (div a (accumulate amount_in))) q).

Definition initialize (amount_in : dmap) : M unit :=
  p <- get ;;
  if negb (List.length amount_in =? List.length (tokens p))%nat
  then throw InvalidArgument
  else if existsb (fun balance => leb (snd balance) zero) amount_in
  then throw InvalidArgument
  else
    modify (with_balances amount_in) ;;
    for_each (tokens p) (assign_weight amount_in) ;;
    modify (with_shares_issued FIRST).

Definition weights_empty : M bool :=
  p <- get ;;
  ret (match weights p with [] => true | _ :: _ => false end).

(** [std::find_if(..., entry.second != 0)] *)
Fixpoint find_nonzero (m : dmap) : option (token * double) :=
  match m with
  | [] => None
  | entry :: m' => if negb (eqb (snd entry) zero) then Some entry else find_nonzero m'
  end.

(** [std::count_if(..., entry.second != 0)] *)
Definition count_nonzero (m : dmap) : nat :=
  List.length (filter (fun entry => negb (eqb (snd entry) zero)) m).

(** The two checks on [redeem]; the result is [redeem_ratio]. *)
Definition check_redeem (redeem : double) : M double :=
  if leb redeem zero then throw InvalidArgument
  else
    let redeem_ratio := div redeem SUPPLY in
    p <- get ;;
    if ltb (shares_issued p) redeem_ratio then throw InvalidArgument
    else ret redeem_ratio.

(** [shares_issued -= redeem_ratio] *)
Definition burn (redeem_ratio : double) : M unit :=
  modify (fun p => with_shares_issued (sub (shares_issued p) redeem_ratio) p).

Section Libm.

(** [std::pow] *)
Variable pow : double -> double -> double.

Definition set_invariant : M double :=
  modify (with_invariant one) ;;
  p <- get ;;
  for_each (tokens p) (fun token =>
    b <- balances_index token ;;
    w <- weights_index token ;;
    modify (fun q => with_invariant (mul (invariant q) (pow b w)) q)) ;;
  q <- get ;;
  ret (invariant q).

Definition deposit_one (amount_in : dmap) : M double :=
  e <- weights_empty ;;
  if e then throw InvalidArgument
  else if negb (count_nonzero amount_in =? 1)%nat then throw InvalidArgument
  else
    match find_nonzero amount_in with
    | None => throw Undefined   (* dereferences [end()]; excluded by the count *)
    | Some (t_key, _) =>
        a <- at_ amount_in t_key ;;
        if ltb a zero then throw InvalidArgument
        else
          b <- balances_at t_key ;;
          let shares_to_issue := div (mul a SUPPLY) b in
          b' <- balances_at t_key ;;
          modify (fun p => with_balances (replace (balances p) t_key (add b' a)) p) ;;
          set_invariant ;;
          ret shares_to_issue
    end.

Definition withdraw_all_amounts (redeem_ratio : double) : M dmap :=
  p <- get ;;
  for_accum (tokens p) [] (fun amount_out token =>
    b <- balances_index token ;;
    s <- (q <- get ;; ret (shares_issued q)) ;;
    w <- weights_index token ;;
    let amount_out := assign amount_out token
                        (mul b (sub one (pow (sub s redeem_ratio) (div one w)))) in
    balances_sub token (index amount_out token) ;;
    ret amount_out).

Definition withdraw_all (redeem : double) : M dmap :=
  redeem_ratio <- check_redeem redeem ;;
  amount_out <- withdraw_all_amounts redeem_ratio ;;
  burn redeem_ratio ;;
  set_invariant ;;
  ret amount_out.

End Libm.

Open Scope string_scope.

(** The pool of X and Y as the constructor leaves it, and as
    [initialize] leaves it with 100 X and 100 Y. *)
Definition pool_new_xy : InfinityPool := mkPool ["X"; "Y"] [] [] zero zero.

Definition pool_xy : InfinityPool :=
  mkPool ["X"; "Y"] [("Y", 0.5%float); ("X", 0.5%float)]
    [("X", 100%float); ("Y", 100%float)] FIRST zero.

Close Scope string_scope.

(** A positive [double] so small that its quotient by [SUPPLY] rounds to
    zero: 2^-1030. *)
Definition small_redeem : double := 0x1p-1030%float.

(** The entry [(t, a)] is the one entry of the map that compares unequal
    to zero. *)
Definition only_nonzero (m : dmap) (t : token) (a : double) : Prop :=
  exists l1 l2, m = l1 ++ (t, a) :: l2 /\ eqb a zero = false /\
                forall e, In e (l1 ++ l2) -> eqb (snd e) zero = true.

(** The keys of a [std::unordered_map] are distinct. *)
Definition is_map (m : dmap) : Prop := NoDup (map fst m).

End Ieee.

(** * Properties *)

(** ** Comparisons *)

Lemma Rleb_true x y : x <= y -> Rleb x y = true.
Proof. intros H; unfold Rleb; destruct (Rle_dec x y); [reflexivity | contradiction]. Qed.

Lemma Rleb_false x y : y < x -> Rleb x y = false.
Proof. intros H; unfold Rleb; destruct (Rle_dec x y); [lra | reflexivity]. Qed.

Lemma Rltb_true x y : x < y -> Rltb x y = true.
Proof. intros H; unfold Rltb; destruct (Rlt_dec x y); [reflexivity | contradiction]. Qed.

Lemma Rltb_false x y : y <= x -> Rltb x y = false.
Proof. intros H; unfold Rltb; destruct (Rlt_dec x y); [lra | reflexivity]. Qed.

Lemma Reqb_true x y : x = y -> Reqb x y = true.
Proof. intros H; unfold Reqb; destruct (Req_dec_T x y); [reflexivity | contradiction]. Qed.

Lemma Reqb_false x y : x <> y -> Reqb x y = false.
Proof. intros H; unfold Reqb; destruct (Req_dec_T x y); [contradiction | reflexivity]. Qed.

Lemma Rleb_spec x y : Rleb x y = true <-> x <= y.
Proof. unfold Rleb; destruct (Rle_dec x y); split; intros; try discriminate; tauto. Qed.


Lemma Reqb_spec x y : Reqb x y = true <-> x = y.
Proof. unfold Reqb; destruct (Req_dec_T x y); split; intros; try discriminate; tauto. Qed.

(** Settles the comparisons of a goal whose operands are known. *)
Ltac rbool :=
  repeat match goal with
    | |- context [Rleb ?a ?b] =>
        first [rewrite (Rleb_true a b) by lra | rewrite (Rleb_false a b) by lra]
    | |- context [Rltb ?a ?b] =>
        first [rewrite (Rltb_true a b) by lra | rewrite (Rltb_false a b) by lra]
    | |- context [Reqb ?a ?b] =>
        first [rewrite (Reqb_true a b) by lra | rewrite (Reqb_false a b) by lra]
    end.

Lemma SUPPLY_pos : 0 < SUPPLY.
Proof. unfold SUPPLY; lra. Qed.

(** ** [std::pow] on its real domain *)

Lemma pow_pos_base x y : 0 < x -> pow x y = Rpower x y.
Proof. intros H; unfold pow; destruct (Rlt_dec 0 x); [reflexivity | contradiction]. Qed.

Lemma pow_zero_base y : 0 < y -> pow 0 y = 0.
Proof.
  intros H; unfold pow.
  destruct (Rlt_dec 0 0); [lra |].
  destruct (Req_dec_T y 0); [lra |].
  destruct (Req_dec_T 0 0); [reflexivity | lra].
Qed.

Lemma pow_one_exp x : 0 < x -> pow x 1 = x.
Proof. intros H; rewrite pow_pos_base by assumption; apply Rpower_1; assumption. Qed.

Lemma pow_gt0 x y : 0 < x -> 0 < pow x y.
Proof. intros H; rewrite pow_pos_base by assumption; apply exp_pos. Qed.

Lemma pow_half x : 0 < x -> pow x (1 / 2) = sqrt x.
Proof.
  intros H; rewrite pow_pos_base by assumption.
  replace (1 / 2) with (/ 2) by lra. apply Rpower_sqrt; assumption.
Qed.

(** ** Maps *)

Lemma find_touch_found m k v : find m k = Some v -> touch m k = m.
Proof. intros H; unfold touch; rewrite H; reflexivity. Qed.

Lemma index_found m k v : find m k = Some v -> index m k = v.
Proof. intros H; unfold index; rewrite H; reflexivity. Qed.

Lemma index_absent m k : find m k = None -> index m k = 0.
Proof. intros H; unfold index; rewrite H; reflexivity. Qed.

Lemma find_touch_self m k : find (touch m k) k = Some (index m k).
Proof.
  unfold touch, index; destruct (find m k) eqn:E; [assumption |].
  simpl; rewrite String.eqb_refl; reflexivity.
Qed.

Lemma find_touch_kept m k k' v : find m k' = Some v -> find (touch m k) k' = Some v.
Proof.
  intros H; unfold touch; destruct (find m k) eqn:E; [assumption |].
  simpl; destruct (String.eqb k k') eqn:Ek; [| assumption].
  apply String.eqb_eq in Ek; subst; congruence.
Qed.

Lemma find_replace_same m k v v' :
  find m k = Some v -> find (replace m k v') k = Some v'.
Proof.
  induction m as [| [k0 v0] m IH]; simpl; [discriminate |].
  destruct (String.eqb k0 k) eqn:E; simpl; rewrite E; auto.
Qed.

Lemma find_replace_other m k k' v' : k <> k' -> find (replace m k v') k' = find m k'.
Proof.
  intros Hne; induction m as [| [k0 v0] m IH]; simpl; [reflexivity |].
  destruct (String.eqb k0 k) eqn:E; simpl.
  - apply String.eqb_eq in E; subst k0.
    apply String.eqb_neq in Hne; rewrite Hne; reflexivity.
  - rewrite IH; reflexivity.
Qed.

Lemma replace_absent m k v : find m k = None -> replace m k v = m.
Proof.
  induction m as [| [k0 v0] m IH]; simpl; [reflexivity |].
  destruct (String.eqb k0 k); [discriminate |].
  intros H; rewrite IH by assumption; reflexivity.
Qed.

Lemma keys_replace m k v : keys (replace m k v) = keys m.
Proof.
  induction m as [| [k0 v0] m IH]; simpl; [reflexivity |].
  destruct (String.eqb k0 k); simpl; [reflexivity | rewrite IH; reflexivity].
Qed.

Lemma find_assign_self m k v : find (assign m k v) k = Some v.
Proof. unfold assign; eapply find_replace_same, find_touch_self. Qed.

Lemma assign_nonempty m k v : assign m k v <> [].
Proof.
  unfold assign, touch; destruct (find m k) eqn:E.
  - destruct m as [| [k0 v0] m]; [discriminate |].
    simpl; destruct (String.eqb k0 k); discriminate.
  - simpl; rewrite String.eqb_refl; discriminate.
Qed.

Lemma touch_nonempty m k : touch m k = [] -> False.
Proof.
  unfold touch; destruct (find m k) eqn:E; [| discriminate].
  intros ->; discriminate.
Qed.

Lemma accumulate_from (m : dmap) (s : R) :
  fold_left (fun sum balance => sum + snd balance) m s = s + accumulate m.
Proof.
  unfold accumulate; revert s; induction m as [| e m IH]; intros s; simpl.
  - lra.
  - rewrite IH, (IH (0 + snd e)); lra.
Qed.

Lemma accumulate_cons e m : accumulate (e :: m) = snd e + accumulate m.
Proof. unfold accumulate at 1; simpl; rewrite accumulate_from; lra. Qed.

(** ** Running a method *)

Lemma bind_ok {A B} (c : M A) (k : A -> M B) p b p' :
  bind c k p = (Ok b, p') ->
  exists a q, c p = (Ok a, q) /\ k a q = (Ok b, p').
Proof.
  unfold bind; destruct (c p) as [[a | e] q]; [| discriminate].
  intros H; exists a, q; split; [reflexivity | exact H].
Qed.

Lemma bind_run {A B} (c : M A) (k : A -> M B) p a q :
  c p = (Ok a, q) -> bind c k p = k a q.
Proof. intros H; unfold bind; rewrite H; reflexivity. Qed.

Lemma bind_fail {A B} (c : M A) (k : A -> M B) p e q :
  c p = (Err e, q) -> bind c k p = (Err e, q).
Proof. intros H; unfold bind; rewrite H; reflexivity. Qed.

Lemma weights_empty_run p :
  weights_empty p = (Ok (match weights p with [] => true | _ :: _ => false end), p).
Proof. reflexivity. Qed.

(** ** The pool object and the monad *)

Lemma with_balances_same p : with_balances (balances p) p = p.
Proof. destruct p; reflexivity. Qed.

Lemma with_weights_same p : with_weights (weights p) p = p.
Proof. destruct p; reflexivity. Qed.

Lemma balances_index_found p k v :
  find (balances p) k = Some v -> balances_index k p = (Ok v, p).
Proof.
  intros H; unfold balances_index, bind, get, modify, ret.
  rewrite (find_touch_found _ _ _ H), (index_found _ _ _ H), with_balances_same.
  reflexivity.
Qed.

Lemma weights_index_found p k v :
  find (weights p) k = Some v -> weights_index k p = (Ok v, p).
Proof.
  intros H; unfold weights_index, bind, get, modify, ret.
  rewrite (find_touch_found _ _ _ H), (index_found _ _ _ H), with_weights_same.
  reflexivity.
Qed.

Lemma check_redeem_exceeds p redeem :
  shares_issued p < redeem / SUPPLY -> check_redeem redeem p = (Err InvalidArgument, p).
Proof.
  intros H; unfold check_redeem.
  destruct (Rleb redeem 0); [reflexivity |].
  unfold bind, get; rewrite Rltb_true by assumption; reflexivity.
Qed.

Lemma check_redeem_ok p redeem :
  0 < redeem -> redeem / SUPPLY <= shares_issued p ->
  check_redeem redeem p = (Ok (redeem / SUPPLY), p).
Proof.
  intros H1 H2; unfold check_redeem.
  rewrite Rleb_false by assumption.
  unfold bind, get; rewrite Rltb_false by assumption; reflexivity.
Qed.

Lemma check_redeem_inv p redeem r q :
  check_redeem redeem p = (r, q) ->
  q = p /\ (r = Err InvalidArgument \/
            (r = Ok (redeem / SUPPLY) /\ 0 < redeem /\ redeem / SUPPLY <= shares_issued p)).
Proof.
  unfold check_redeem.
  destruct (Rleb redeem 0) eqn:E1.
  - intros H; inversion H; auto.
  - unfold bind, get. destruct (Rltb (shares_issued p) (redeem / SUPPLY)) eqn:E2.
    + intros H; inversion H; auto.
    + intros H; injection H as <- <-; split; [reflexivity | right].
      split; [reflexivity |]. split.
      * destruct (Rle_dec redeem 0) as [Hle | Hn]; [| lra].
        apply Rleb_true in Hle; congruence.
      * destruct (Rlt_dec (shares_issued p) (redeem / SUPPLY)) as [Hlt | Hn]; [| lra].
        apply Rltb_true in Hlt; congruence.
Qed.

(** C4.  A redemption whose ratio [redeem / SUPPLY] exceeds [shares_issued]
    makes [withdraw_all] throw [std::invalid_argument], and the pool
    (balances, weights, shares issued, cached invariant) is left as it was. *)
Theorem withdraw_all_exceeding_redeem (p : InfinityPool) (redeem : R) :
  shares_issued p < redeem / SUPPLY ->
  withdraw_all redeem p = (Err InvalidArgument, p).
Proof.
  intros H; unfold withdraw_all.
  apply bind_fail, check_redeem_exceeds; exact H.
Qed.

(** ** Frame conditions of the methods

    The lemmas of this section hold for every relation [Rel] between the
    pool before and after a call that is a preorder, fixes the token vector,
    and is insensitive to writes to [balances] and to the cached invariant
    and to [weights[k]] being read for a token [k] of [T]. *)

Section Frame.

Variable Rel : InfinityPool -> InfinityPool -> Prop.
Variable T : token -> Prop.
Hypothesis Rel_refl : forall p, Rel p p.
Hypothesis Rel_trans : forall p q r, Rel p q -> Rel q r -> Rel p r.
Hypothesis Rel_tokens : forall p q, Rel p q -> tokens q = tokens p.
Hypothesis Rel_balances : forall b p, Rel p (with_balances b p).
Hypothesis Rel_invariant : forall i p, Rel p (with_invariant i p).
Hypothesis Rel_touch :
  forall k p, T k -> Rel p (with_weights (touch (weights p) k) p).

Lemma keeps_ret {A} (a : A) p : keeps Rel (ret a) p.
Proof. apply Rel_refl. Qed.

Lemma keeps_throw {A} e p : keeps Rel (@throw A e) p.
Proof. apply Rel_refl. Qed.

Lemma keeps_lift {A} (r : result A) p : keeps Rel (lift r) p.
Proof. apply Rel_refl. Qed.

Lemma keeps_get p : keeps Rel get p.
Proof. apply Rel_refl. Qed.

Lemma keeps_at m k p : keeps Rel (at_ m k) p.
Proof. unfold at_; destruct (find m k); apply Rel_refl. Qed.

Lemma keeps_modify f p : Rel p (f p) -> keeps Rel (modify f) p.
Proof. intros H; exact H. Qed.

Lemma keeps_bind {A B} (c : M A) (k : A -> M B) p :
  keeps Rel c p ->
  (forall a q, c p = (Ok a, q) -> Rel p q -> keeps Rel (k a) q) ->
  keeps Rel (bind c k) p.
Proof.
  unfold keeps, bind; intros Hc Hk.
  destruct (c p) as [[a | e] q] eqn:E; simpl in *.
  - eapply Rel_trans; [exact Hc | apply Hk; [reflexivity | exact Hc]].
  - exact Hc.
Qed.

Lemma keeps_for_each {X} (l : list X) (body : X -> M unit) :
  (forall x q, In x l -> keeps Rel (body x) q) ->
  forall p, keeps Rel (for_each l body) p.
Proof.
  induction l as [| x l IH]; intros Hb p; simpl.
  - apply keeps_ret.
  - apply keeps_bind; [apply Hb; left; reflexivity |].
    intros _ q _ _; apply IH; intros y q' Hy; apply Hb; right; exact Hy.
Qed.

Lemma keeps_for_accum {X A} (l : list X) (body : A -> X -> M A) :
  (forall acc x q, In x l -> keeps Rel (body acc x) q) ->
  forall acc p, keeps Rel (for_accum l acc body) p.
Proof.
  induction l as [| x l IH]; intros Hb acc p; simpl.
  - apply keeps_ret.
  - apply keeps_bind; [apply Hb; left; reflexivity |].
    intros acc' q _ _; apply IH; intros a y q' Hy; apply Hb; right; exact Hy.
Qed.

Lemma tokens_in_after p q : Rel p q -> tokens_in T p -> tokens_in T q.
Proof.
  intros H Hp x Hx; apply Hp; rewrite <- (Rel_tokens _ _ H); exact Hx.
Qed.

(** One step through a computation built from the monad's operations. *)
Ltac frame_step :=
  match goal with
  | |- keeps _ (ret _) _ => apply keeps_ret
  | |- keeps _ (throw _) _ => apply keeps_throw
  | |- keeps _ (lift _) _ => apply keeps_lift
  | |- keeps _ get _ => apply keeps_get
  | |- keeps _ (at_ _ _) _ => apply keeps_at
  | |- keeps _ (bind get _) _ =>
      apply keeps_bind; [apply keeps_get |];
      let a := fresh "a" in let q := fresh "q" in let H := fresh "H" in
      intros a q H _; unfold get in H; injection H as <- <-
  | |- keeps _ (bind _ _) ?p =>
      apply keeps_bind;
      [| let a := fresh "a" in let q := fresh "q" in
         let H := fresh "Hrun" in let HR := fresh "HRel" in
         intros a q H HR;
         try match goal with
             | HT : tokens_in T p |- _ => pose proof (tokens_in_after _ _ HR HT)
             end]
  | |- keeps _ (if ?b then _ else _) _ => destruct b
  | |- keeps _ (match ?x with _ => _ end) _ => destruct x
  end.

Lemma keeps_balances_index k p : keeps Rel (balances_index k) p.
Proof.
  unfold balances_index; repeat frame_step.
  apply keeps_modify, Rel_balances.
Qed.

Lemma keeps_weights_index k p : T k -> keeps Rel (weights_index k) p.
Proof.
  intros Hk; unfold weights_index; repeat frame_step.
  apply keeps_modify, Rel_touch, Hk.
Qed.

Lemma keeps_balances_at k p : keeps Rel (balances_at k) p.
Proof. unfold balances_at; repeat frame_step. Qed.

Lemma keeps_balances_add k v p : keeps Rel (balances_add k v) p.
Proof.
  unfold balances_add; repeat frame_step.
  - apply keeps_balances_index.
  - apply keeps_modify, Rel_balances.
Qed.

Lemma keeps_balances_sub k v p : keeps Rel (balances_sub k v) p.
Proof.
  unfold balances_sub; repeat frame_step.
  - apply keeps_balances_index.
  - apply keeps_modify, Rel_balances.
Qed.

Lemma keeps_weights_empty p : keeps Rel weights_empty p.
Proof. unfold weights_empty; repeat frame_step. Qed.

Lemma keeps_tokens_0 p : keeps Rel tokens_0 p.
Proof. unfold tokens_0; repeat frame_step. Qed.

Lemma keeps_check_deposit_ratio a t p : keeps Rel (check_deposit_ratio a t) p.
Proof. unfold check_deposit_ratio; repeat frame_step. Qed.

Lemma keeps_require_deposit_ratio a p : keeps Rel (require_deposit_ratio a) p.
Proof.
  unfold require_deposit_ratio; repeat frame_step.
  apply keeps_check_deposit_ratio.
Qed.

Lemma keeps_add_all a p : keeps Rel (add_all a) p.
Proof.
  unfold add_all; apply keeps_for_each; intros; apply keeps_balances_add.
Qed.

Lemma keeps_shares_of_first a p : keeps Rel (shares_of_first a) p.
Proof.
  unfold shares_of_first; repeat frame_step.
  - apply keeps_tokens_0.
  - apply keeps_balances_at.
Qed.

Lemma keeps_check_redeem r p : keeps Rel (check_redeem r) p.
Proof. unfold check_redeem; repeat frame_step. Qed.

Lemma keeps_set_invariant p : tokens_in T p -> keeps Rel set_invariant p.
Proof.
  intros HT; unfold set_invariant.
  apply keeps_bind; [apply keeps_modify, Rel_invariant |].
  intros a q Hq _; unfold modify in Hq; injection Hq as _ <-.
  repeat frame_step.
  apply keeps_for_each; intros x q Hx.
  repeat frame_step.
  - apply keeps_balances_index.
  - apply keeps_weights_index, HT, Hx.
  - apply keeps_modify, Rel_invariant.
Qed.

(** The leaves a method is made of. *)
Ltac frame_leaf :=
  first
    [ apply keeps_balances_index
    | apply keeps_balances_at
    | apply keeps_balances_add
    | apply keeps_balances_sub
    | apply keeps_weights_empty
    | apply keeps_tokens_0
    | apply keeps_check_deposit_ratio
    | apply keeps_require_deposit_ratio
    | apply keeps_add_all
    | apply keeps_shares_of_first
    | apply keeps_check_redeem
    | apply keeps_set_invariant; assumption
    | apply keeps_weights_index; solve [auto]
    | apply keeps_modify, Rel_balances
    | apply keeps_modify, Rel_invariant ].

Ltac frame := repeat first [frame_leaf | frame_step].

Lemma keeps_deposit_all a p : tokens_in T p -> keeps Rel (deposit_all a) p.
Proof.
  intros HT; unfold deposit_all.
  apply keeps_bind.
  - apply keeps_for_each; intros; frame.
  - intros _ q _ HR; pose proof (tokens_in_after _ _ HR HT); frame.
Qed.

Lemma keeps_deposit_one a p : tokens_in T p -> keeps Rel (deposit_one a) p.
Proof. intros HT; unfold deposit_one; frame. Qed.

Lemma keeps_deposit_any a p : tokens_in T p -> keeps Rel (deposit_any a) p.
Proof. intros HT; unfold deposit_any; frame. Qed.

Lemma keeps_swap t_in t_out a p :
  tokens_in T p -> T t_in -> T t_out -> keeps Rel (swap t_in t_out a) p.
Proof. intros HT Hin Hout; unfold swap; frame. Qed.

Lemma keeps_equalize inputs ratio_out p :
  tokens_in T p -> keeps Rel (equalize inputs ratio_out) p.
Proof.
  intros HT; unfold equalize; frame.
  - apply keeps_for_accum; intros; frame.
  - apply keeps_for_accum; intros acc x q' Hx.
    assert (T x) by (match goal with HT' : tokens_in _ _ |- _ => exact (HT' _ Hx) end).
    frame.
Qed.

Lemma keeps_withdraw_all_amounts r p :
  tokens_in T p -> keeps Rel (withdraw_all_amounts r) p.
Proof.
  intros HT; unfold withdraw_all_amounts; frame.
  apply keeps_for_accum; intros acc x q' Hx.
  assert (T x) by (match goal with HT' : tokens_in _ _ |- _ => exact (HT' _ Hx) end).
  frame.
Qed.

Lemma keeps_withdraw_one_amount t r p :
  T t -> keeps Rel (withdraw_one_amount t r) p.
Proof. intros Ht; unfold withdraw_one_amount; frame. Qed.

Lemma keeps_withdraw_any_amounts r ratios p :
  keeps Rel (withdraw_any_amounts r ratios) p.
Proof.
  unfold withdraw_any_amounts; frame.
  apply keeps_for_accum; intros; frame.
Qed.

(** The withdrawals burn shares: their frame conditions are those that do
    not look at [shares_issued]. *)
Section Burning.

Hypothesis Rel_shares : forall s p, Rel p (with_shares_issued s p).

Lemma keeps_burn r p : keeps Rel (burn r) p.
Proof. unfold burn; apply keeps_modify, Rel_shares. Qed.

Lemma keeps_withdraw_all redeem p :
  tokens_in T p -> keeps Rel (withdraw_all redeem) p.
Proof.
  intros HT; unfold withdraw_all; frame.
  - apply keeps_withdraw_all_amounts; assumption.
  - apply keeps_burn.
Qed.

Lemma keeps_withdraw_one t redeem p :
  tokens_in T p -> T t -> keeps Rel (withdraw_one t redeem) p.
Proof.
  intros HT Ht; unfold withdraw_one; frame.
  - apply keeps_withdraw_one_amount; assumption.
  - apply keeps_burn.
Qed.

Lemma keeps_withdraw_any redeem ratios p :
  tokens_in T p -> keeps Rel (withdraw_any redeem ratios) p.
Proof.
  intros HT; unfold withdraw_any; frame.
  - apply keeps_withdraw_any_amounts.
  - apply keeps_burn.
Qed.

(** [initialize] overwrites the weights as well. *)
Section Initializing.

Hypothesis Rel_assign :
  forall k v p, Rel p (with_weights (assign (weights p) k v) p).

Lemma keeps_assign_weight a t p : keeps Rel (assign_weight a t) p.
Proof.
  unfold assign_weight; frame.
  apply keeps_modify, Rel_assign.
Qed.

Lemma keeps_initialize a p : keeps Rel (initialize a) p.
Proof.
  unfold initialize; frame.
  - apply keeps_for_each; intros; apply keeps_assign_weight.
  - apply keeps_modify, Rel_shares.
Qed.

End Initializing.

End Burning.

End Frame.

(** ** The three frame conditions *)

Lemma same_shares_refl p : same_shares p p.
Proof. split; reflexivity. Qed.

Lemma same_shares_trans p q r : same_shares p q -> same_shares q r -> same_shares p r.
Proof. intros [H1 H2] [H3 H4]; split; congruence. Qed.

Lemma same_shares_tokens p q : same_shares p q -> tokens q = tokens p.
Proof. intros [H _]; exact H. Qed.

Lemma same_shares_balances b p : same_shares p (with_balances b p).
Proof. split; reflexivity. Qed.

Lemma same_shares_invariant i p : same_shares p (with_invariant i p).
Proof. split; reflexivity. Qed.

Lemma same_shares_touch k p :
  True -> same_shares p (with_weights (touch (weights p) k) p).
Proof. split; reflexivity. Qed.

Lemma all_tokens p : tokens_in (fun _ => True) p.
Proof. intros x _; exact I. Qed.

Lemma weights_stay_refl p : weights_stay p p.
Proof. split; auto. Qed.

Lemma weights_stay_trans p q r : weights_stay p q -> weights_stay q r -> weights_stay p r.
Proof. intros [H1 H2] [H3 H4]; split; [congruence | auto]. Qed.

Lemma weights_stay_tokens p q : weights_stay p q -> tokens q = tokens p.
Proof. intros [H _]; exact H. Qed.

Lemma weights_stay_balances b p : weights_stay p (with_balances b p).
Proof. split; auto. Qed.

Lemma weights_stay_invariant i p : weights_stay p (with_invariant i p).
Proof. split; auto. Qed.

Lemma weights_stay_shares s p : weights_stay p (with_shares_issued s p).
Proof. split; auto. Qed.

Lemma weights_stay_touch k p :
  True -> weights_stay p (with_weights (touch (weights p) k) p).
Proof.
  intros _; split; [reflexivity |]; simpl.
  intros H; exfalso; exact (touch_nonempty _ _ H).
Qed.

Lemma same_weights_refl S p : same_weights S p p.
Proof. split; auto. Qed.

Lemma same_weights_trans S p q r :
  same_weights S p q -> same_weights S q r -> same_weights S p r.
Proof.
  intros [H1 H2] [H3 H4]; split; [congruence |].
  intros Hw; specialize (H2 Hw).
  rewrite H4; [exact H2 |].
  intros t Ht; rewrite H2; apply Hw; exact Ht.
Qed.

Lemma same_weights_tokens S p q : same_weights S p q -> tokens q = tokens p.
Proof. intros [H _]; exact H. Qed.

Lemma same_weights_balances S b p : same_weights S p (with_balances b p).
Proof. split; auto. Qed.

Lemma same_weights_invariant S i p : same_weights S p (with_invariant i p).
Proof. split; auto. Qed.

Lemma same_weights_shares S s p : same_weights S p (with_shares_issued s p).
Proof. split; auto. Qed.

Lemma same_weights_touch S k p :
  In k S -> same_weights S p (with_weights (touch (weights p) k) p).
Proof.
  intros Hk; split; [reflexivity |]; simpl.
  intros Hw; specialize (Hw k Hk).
  destruct (find (weights p) k) as [v |] eqn:E; [| contradiction].
  apply (find_touch_found _ _ _ E).
Qed.

(** Discharges the side conditions of a frame lemma at one of the three
    relations. *)
Ltac frame_side :=
  first
    [ exact same_shares_refl | exact same_shares_trans | exact same_shares_tokens
    | exact same_shares_balances | exact same_shares_invariant
    | exact same_shares_touch
    | exact weights_stay_refl | exact weights_stay_trans | exact weights_stay_tokens
    | exact weights_stay_balances | exact weights_stay_invariant
    | exact weights_stay_touch | exact weights_stay_shares
    | exact (same_weights_refl _) | exact (same_weights_trans _)
    | exact (same_weights_tokens _) | exact (same_weights_balances _)
    | exact (same_weights_invariant _) | exact (same_weights_touch _)
    | exact (same_weights_shares _)
    | apply all_tokens
    | exact I ].

(** ** Shares issued *)

Lemma initialize_ok_shares a p p' :
  initialize a p = (Ok tt, p') -> shares_issued p' = FIRST.
Proof.
  unfold initialize; intros H.
  unfold bind at 1, get in H.
  destruct (negb _); [discriminate |].
  destruct (existsb _ _); [discriminate |].
  apply bind_ok in H as (u1 & q1 & _ & H).
  apply bind_ok in H as (u2 & q2 & _ & H).
  unfold modify in H; injection H as <-; reflexivity.
Qed.

Lemma deposit_all_shares a p :
  shares_issued (snd (deposit_all a p)) = shares_issued p.
Proof. apply (keeps_deposit_all same_shares (fun _ => True)); frame_side. Qed.

Lemma deposit_one_shares a p :
  shares_issued (snd (deposit_one a p)) = shares_issued p.
Proof. apply (keeps_deposit_one same_shares (fun _ => True)); frame_side. Qed.

Lemma deposit_any_shares a p :
  shares_issued (snd (deposit_any a p)) = shares_issued p.
Proof. apply (keeps_deposit_any same_shares (fun _ => True)); frame_side. Qed.

Lemma set_invariant_shares p :
  shares_issued (snd (set_invariant p)) = shares_issued p.
Proof. apply (keeps_set_invariant same_shares (fun _ => True)); frame_side. Qed.

Lemma set_invariant_run p :
  set_invariant p =
  (Ok (invariant (fold_left invariant_step (tokens p) (with_invariant 1 p))),
   fold_left invariant_step (tokens p) (with_invariant 1 p)).
Proof.
  unfold set_invariant.
  unfold bind at 1, modify. unfold bind at 1, get.
  change (tokens (with_invariant 1 p)) with (tokens p).
  generalize (with_invariant 1 p) as q; generalize (tokens p) as l.
  induction l as [| x l IH]; intros q.
  - reflexivity.
  - simpl for_each. unfold bind at 1. unfold bind at 1.
    change ((b <- balances_index x ;;
             w <- weights_index x ;;
             modify (fun q0 => with_invariant (invariant q0 * pow b w) q0)) q)
      with (@Ok unit tt, invariant_step q x).
    simpl fold_left. apply (IH (invariant_step q x)).
Qed.

Lemma burn_then_set_invariant {A} (rr : R) (out : A) p :
  exists p', (burn rr ;; set_invariant ;; ret out) p = (Ok out, p') /\
             shares_issued p' = shares_issued p - rr.
Proof.
  unfold burn, bind at 1, modify.
  pose proof (set_invariant_shares
                (with_shares_issued (shares_issued p - rr) p)) as K.
  rewrite set_invariant_run in K; simpl in K.
  unfold bind; rewrite set_invariant_run.
  eexists; split; [reflexivity | exact K].
Qed.

Lemma withdraw_all_burns redeem p out p' :
  withdraw_all redeem p = (Ok out, p') ->
  0 < redeem /\ shares_issued p' = shares_issued p - redeem / SUPPLY.
Proof.
  unfold withdraw_all; intros H.
  apply bind_ok in H as (rr & q & Hc & H).
  apply check_redeem_inv in Hc as [-> [Hc | (Hc & Hpos & Hle)]]; [discriminate |].
  injection Hc as ->.
  apply bind_ok in H as (ao & q1 & H1 & H).
  assert (K : keeps same_shares (withdraw_all_amounts (redeem / SUPPLY)) p)
    by (apply (keeps_withdraw_all_amounts same_shares (fun _ => True)); frame_side).
  destruct K as [_ K]; rewrite H1 in K; simpl in K.
  destruct (burn_then_set_invariant (redeem / SUPPLY) ao q1) as (p2 & E & K2).
  rewrite E in H; injection H as _ <-.
  split; [exact Hpos | congruence].
Qed.

Lemma withdraw_one_burns t redeem p out p' :
  withdraw_one t redeem p = (Ok out, p') ->
  0 < redeem /\ shares_issued p' = shares_issued p - redeem / SUPPLY.
Proof.
  unfold withdraw_one; intros H.
  rewrite (bind_run _ _ _ _ _ (weights_empty_run p)) in H.
  destruct (weights p) as [| e w]; [discriminate |].
  apply bind_ok in H as (rr & q & Hc & H).
  apply check_redeem_inv in Hc as [-> [Hc | (Hc & Hpos & Hle)]]; [discriminate |].
  injection Hc as ->.
  apply bind_ok in H as (ao & q1 & H1 & H).
  assert (K : keeps same_shares (withdraw_one_amount t (redeem / SUPPLY)) p)
    by (apply (keeps_withdraw_one_amount same_shares (fun _ => True)); frame_side).
  destruct K as [_ K]; rewrite H1 in K; simpl in K.
  destruct (burn_then_set_invariant (redeem / SUPPLY) ao q1) as (p2 & E & K2).
  rewrite E in H; injection H as _ <-.
  split; [exact Hpos | congruence].
Qed.

Lemma withdraw_any_burns redeem ratios p out p' :
  withdraw_any redeem ratios p = (Ok out, p') ->
  0 < redeem /\ shares_issued p' = shares_issued p - redeem / SUPPLY.
Proof.
  unfold withdraw_any; intros H.
  rewrite (bind_run _ _ _ _ _ (weights_empty_run p)) in H.
  destruct (weights p) as [| e w]; [discriminate |].
  apply bind_ok in H as (ok & q0 & H0 & H).
  unfold check_deposit_ratio, bind, get, lift in H0.
  injection H0 as _ <-.
  destruct (negb ok); [discriminate |].
  apply bind_ok in H as (rr & q & Hc & H).
  apply check_redeem_inv in Hc as [-> [Hc | (Hc & Hpos & Hle)]]; [discriminate |].
  injection Hc as ->.
  apply bind_ok in H as (ao & q1 & H1 & H).
  assert (K : keeps same_shares (withdraw_any_amounts (redeem / SUPPLY) ratios) p)
    by (apply (keeps_withdraw_any_amounts same_shares); frame_side).
  destruct K as [_ K]; rewrite H1 in K; simpl in K.
  destruct (burn_then_set_invariant (redeem / SUPPLY) ao q1) as (p2 & E & K2).
  rewrite E in H; injection H as _ <-.
  split; [exact Hpos | congruence].
Qed.

(** C2 (as amended).  [initialize] leaves [shares_issued] at [FIRST]; no
    deposit ([deposit_all], [deposit_one], [deposit_any]), successful or
    not, changes [shares_issued]; every successful withdrawal
    ([withdraw_all], [withdraw_one], [withdraw_any]) replaces it by
    [shares_issued - redeem / SUPPLY], the one statement
    [shares_issued -= redeem_ratio] of the method. *)
Theorem shares_issued_accounting :
  (forall a p p', initialize a p = (Ok tt, p') -> shares_issued p' = FIRST) /\
  (forall a p, shares_issued (snd (deposit_all a p)) = shares_issued p) /\
  (forall a p, shares_issued (snd (deposit_one a p)) = shares_issued p) /\
  (forall a p, shares_issued (snd (deposit_any a p)) = shares_issued p) /\
  (forall redeem p out p', withdraw_all redeem p = (Ok out, p') ->
     shares_issued p' = shares_issued p - redeem / SUPPLY) /\
  (forall t redeem p out p', withdraw_one t redeem p = (Ok out, p') ->
     shares_issued p' = shares_issued p - redeem / SUPPLY) /\
  (forall redeem ratios p out p', withdraw_any redeem ratios p = (Ok out, p') ->
     shares_issued p' = shares_issued p - redeem / SUPPLY).
Proof.
  repeat split.
  - exact initialize_ok_shares.
  - exact deposit_all_shares.
  - exact deposit_one_shares.
  - exact deposit_any_shares.
  - intros redeem p out p' H; apply (withdraw_all_burns _ _ _ _ H).
  - intros t redeem p out p' H; apply (withdraw_one_burns _ _ _ _ _ H).
  - intros redeem ratios p out p' H; apply (withdraw_any_burns _ _ _ _ _ H).
Qed.

(** ** Running a method on a given pool *)

Lemma close_enough a b t : a = b -> 0 < t -> Rltb (Rabs (a - b)) t = true.
Proof.
  intros -> H; apply Rltb_true.
  rewrite Rminus_diag, Rabs_R0; exact H.
Qed.

Ltac rbool' := rbool; repeat rewrite close_enough by (unfold tol; lra).

(** Runs a statement that is not a sequence. *)
Ltac exec_prim :=
  unfold balances_add, balances_sub, balances_index, weights_index, balances_at,
    tokens_0, weights_empty, burn, check_deposit_ratio, ratio, accumulate,
    assign_weight, bind, get, modify, ret, throw, lift, at_;
  cbn -[pow Rabs Rpower sqrt Rplus Rmult Rminus Rdiv Rinv]; rbool';
  cbn -[pow Rabs Rpower sqrt Rplus Rmult Rminus Rdiv Rinv];
  reflexivity.

(** Runs a method statement by statement on a pool that is given in full. *)
Ltac exec :=
  cbn [for_each for_accum negb tokens weights balances shares_issued invariant
       with_balances with_weights with_invariant with_shares_issued];
  lazymatch goal with
  | |- @bind ?A ?B ?c ?k ?p = _ =>
      first [ erewrite (@bind_run A B c k p) by exec; cbv beta; exec
            | apply bind_fail; exec ]
  | |- (if ?b then _ else _) ?p = _ =>
      progress (rbool'; cbv beta iota); exec
  | |- _ => first [exec_prim | reflexivity]
  end.

Open Scope string_scope.

Lemma deposit_one_xy :
  deposit_one [("X", 10)] pool_xy =
  (Ok (10 * SUPPLY / 100),
   mkPool ["X"; "Y"] [("Y", 1 / 2); ("X", 1 / 2)] [("X", 100 + 10); ("Y", 100)]
     FIRST (1 * pow (100 + 10) (1 / 2) * pow 100 (1 / 2))).
Proof.
  unfold deposit_one, pool_xy.
  erewrite bind_run by exec; cbv beta iota.
  unfold count_nonzero, find_nonzero; cbn [filter snd negb List.length Nat.eqb].
  rbool; cbn [filter snd negb List.length Nat.eqb].
  exec.
Qed.

(** C2, counterexample.  A deposit of 10 X into the pool [initialize]d with
    100 X and 100 Y succeeds, and [shares_issued] is no larger after it
    than before: a successful deposit does not strictly increase it. *)
Lemma deposit_leaves_shares_issued :
  exists shares p',
    deposit_one [("X", 10)] pool_xy = (Ok shares, p') /\
    ~ shares_issued pool_xy < shares_issued p'.
Proof.
  eexists; eexists; split; [exact deposit_one_xy |].
  simpl; lra.
Qed.

Close Scope string_scope.

(** ** The swap example *)

Open Scope string_scope.

Lemma construct_xy : construct ["X"; "Y"] = Ok pool_new_xy.
Proof. reflexivity. Qed.

Lemma initialize_xy :
  initialize [("X", 100); ("Y", 100)] pool_new_xy = (Ok tt, pool_xy).
Proof.
  unfold initialize, pool_new_xy, pool_xy.
  erewrite bind_run by exec; cbv beta.
  cbn [List.length tokens Nat.eqb negb existsb snd orb]; rbool.
  cbn [orb]; cbv iota.
  replace (1 / 2) with (100 / accumulate [("X", 100); ("Y", 100)])
    by (unfold accumulate; simpl; lra).
  exec.
Qed.

Lemma swap_xy : swap "X" "Y" 10 pool_xy = (Ok 10, pool_xy_swapped).
Proof.
  assert (E : 100 * (1 - pow ((100 - 10) / 100) (1 / 2 / (1 / 2))) = 10).
  { replace (1 / 2 / (1 / 2)) with 1 by lra.
    rewrite pow_one_exp by lra; lra. }
  transitivity
    (@Ok R (100 * (1 - pow ((100 - 10) / 100) (1 / 2 / (1 / 2)))),
     mkPool ["X"; "Y"] [("Y", 1 / 2); ("X", 1 / 2)]
       [("X", 100 - 10);
        ("Y", 100 + 100 * (1 - pow ((100 - 10) / 100) (1 / 2 / (1 / 2))))]
       FIRST
       (1 * pow (100 - 10) (1 / 2) *
        pow (100 + 100 * (1 - pow ((100 - 10) / 100) (1 / 2 / (1 / 2)))) (1 / 2))).
  - unfold swap, pool_xy; exec.
  - rewrite E; unfold pool_xy_swapped.
    replace (100 - 10) with 90 by lra.
    replace (100 + 10) with 110 by lra.
    reflexivity.
Qed.

(** C3, counterexample.  The swap of the example does not leave Y at 90. *)
Lemma swap_example_not_90 :
  ~ exists out p',
      swap "X" "Y" 10 pool_xy = (Ok out, p') /\
      out = 10 /\
      find (balances p') "X" = Some 90 /\
      find (balances p') "Y" = Some 90.
Proof.
  intros (out & p' & H & _ & _ & HY).
  rewrite swap_xy in H; injection H as _ <-.
  simpl in HY; injection HY as HY; lra.
Qed.

Close Scope string_scope.

(** ** Writes to [balances] *)

Lemma balances_add_run k v p :
  balances_add k v p = (Ok tt, with_balances (credit (balances p) k v) p).
Proof. reflexivity. Qed.

Lemma balances_sub_run k v p :
  balances_sub k v p = (Ok tt, with_balances (debit (balances p) k v) p).
Proof. reflexivity. Qed.

Lemma add_all_run a p :
  add_all a p =
  (Ok tt, with_balances
            (fold_left (fun b e => credit b (fst e) (snd e)) a (balances p)) p).
Proof.
  unfold add_all; revert p; induction a as [| e a IH]; intros p; simpl.
  - rewrite with_balances_same; reflexivity.
  - erewrite bind_run by apply balances_add_run.
    rewrite IH; reflexivity.
Qed.

Lemma has_touch_self m k : has (touch m k) k.
Proof. unfold has; rewrite find_touch_self; discriminate. Qed.

Lemma has_touch_kept m k k' : has m k' -> has (touch m k) k'.
Proof.
  unfold has; intros H; destruct (find m k') as [v |] eqn:E; [| contradiction].
  rewrite (find_touch_kept _ _ _ _ E); discriminate.
Qed.

Lemma has_replace m k v k' : has m k' -> has (replace m k v) k'.
Proof.
  unfold has; intros H.
  destruct (String.eqb k k') eqn:E.
  - apply String.eqb_eq in E; subst k'.
    destruct (find m k) as [v0 |] eqn:F; [| contradiction].
    rewrite (find_replace_same _ _ _ _ F); discriminate.
  - apply String.eqb_neq in E; rewrite find_replace_other by exact E; exact H.
Qed.

Lemma has_credit_self m k v : has (credit m k v) k.
Proof. apply has_replace, has_touch_self. Qed.

Lemma has_credit_kept m k v k' : has m k' -> has (credit m k v) k'.
Proof. intros H; apply has_replace, has_touch_kept, H. Qed.

Lemma has_credit_all a b k :
  has b k \/ In k (keys a) ->
  has (fold_left (fun b e => credit b (fst e) (snd e)) a b) k.
Proof.
  revert b; induction a as [| e a IH]; intros b [H | H]; simpl in *.
  - exact H.
  - contradiction.
  - apply IH; left; apply has_credit_kept, H.
  - destruct H as [<- | H].
    + apply IH; left; apply has_credit_self.
    + apply IH; right; exact H.
Qed.

Lemma find_in_keys m k v : find m k = Some v -> In k (keys m).
Proof.
  induction m as [| [k0 v0] m IH]; simpl; [discriminate |].
  destruct (String.eqb k0 k) eqn:E.
  - apply String.eqb_eq in E; auto.
  - auto.
Qed.

Lemma invariant_step_has q x k :
  has (balances q) k -> has (balances (invariant_step q x)) k.
Proof. intros H; simpl; apply has_touch_kept, H. Qed.

Lemma set_invariant_has p k :
  has (balances p) k -> has (balances (snd (set_invariant p))) k.
Proof.
  rewrite set_invariant_run; simpl.
  change (balances p) with (balances (with_invariant 1 p)).
  generalize (with_invariant 1 p) as q; generalize (tokens p) as l.
  induction l as [| x l IH]; intros q H; simpl; [exact H |].
  apply IH, invariant_step_has, H.
Qed.

(** ** [initialize] *)

(** C5.  [initialize] on the pool of X and Y with the two-entry map
    X: 1, Z: 2 does not throw [std::invalid_argument]: the size check
    passes, [balances] is overwritten, the weight of X is set, and
    [amount_in.at("Y")] throws [std::out_of_range]. *)
Theorem initialize_wrong_key_out_of_range :
  initialize amounts_xz pool_new_xy =
  (Err OutOfRange,
   mkPool (tokens pool_new_xy) [("X"%string, 1 / accumulate amounts_xz)]
     amounts_xz 0 0).
Proof.
  unfold initialize, pool_new_xy, amounts_xz.
  erewrite bind_run by exec; cbv beta.
  cbn [List.length tokens Nat.eqb negb existsb snd orb]; rbool.
  cbn [orb]; cbv iota.
  unfold accumulate; cbn [fold_left snd].
  exec.
Qed.

(** The two checks [initialize] does make: a map of another size, or one
    with an amount that is not positive, is refused with
    [std::invalid_argument] and the pool is left alone. *)
Lemma initialize_refuses a p :
  List.length a <> List.length (tokens p) \/ (exists e, In e a /\ snd e <= 0) ->
  initialize a p = (Err InvalidArgument, p).
Proof.
  intros H; unfold initialize, bind at 1, get.
  destruct (Nat.eqb (List.length a) (List.length (tokens p))) eqn:E; simpl.
  - apply Nat.eqb_eq in E.
    destruct H as [H | (e & He & Hle)]; [contradiction |].
    replace (existsb _ a) with true; [reflexivity |].
    symmetry; apply existsb_exists; exists e; split; [exact He |].
    apply Rleb_true, Hle.
  - reflexivity.
Qed.

(** ** Deposits *)

Lemma positive_amounts_pass (a : dmap) p :
  (forall e, In e a -> 0 < snd e) ->
  for_each a (fun entry =>
    if Rleb (snd entry) 0 then throw InvalidArgument else ret tt) p = (Ok tt, p).
Proof.
  induction a as [| e a IH]; intros H; simpl; [reflexivity |].
  rewrite Rleb_false by (apply H; left; reflexivity).
  unfold bind at 1, ret at 1.
  apply IH; intros e' He'; apply H; right; exact He'.
Qed.

Lemma check_deposit_ratio_empty a t p :
  balances p = [] -> check_deposit_ratio a t p = (Ok true, p).
Proof. intros H; unfold check_deposit_ratio, bind, get, lift; rewrite H; reflexivity. Qed.

Lemma require_deposit_ratio_empty a p :
  balances p = [] -> require_deposit_ratio a p = (Ok tt, p).
Proof.
  intros H; unfold require_deposit_ratio.
  erewrite bind_run by (apply check_deposit_ratio_empty; exact H).
  reflexivity.
Qed.

Lemma shares_of_first_run a q t0 rest v b :
  tokens q = t0 :: rest -> find a t0 = Some v -> find (balances q) t0 = Some b ->
  shares_of_first a q = (Ok (v * SUPPLY / b), q).
Proof.
  intros Ht Ha Hb; unfold shares_of_first, tokens_0, balances_at, at_, bind, get.
  rewrite Ht; unfold ret at 1; rewrite Ha; unfold ret at 1; rewrite Hb; reflexivity.
Qed.

Lemma set_invariant_tokens p : tokens (snd (set_invariant p)) = tokens p.
Proof.
  assert (K : keeps same_shares set_invariant p)
    by (apply (keeps_set_invariant same_shares (fun _ => True)); frame_side).
  destruct K as [K _]; exact K.
Qed.

(** C10.  On a pool whose [balances] map is empty, [check_deposit_ratio]
    returns true for every map and every tolerance; and [deposit_all]
    accepts every map whose amounts are all positive and that has an entry
    for [tokens[0]], whatever the proportions of the amounts. *)
Theorem empty_pool_accepts_any_ratio
  (p : InfinityPool) (a : dmap) (t0 : token) (rest : list token) :
  balances p = [] ->
  tokens p = t0 :: rest ->
  (forall e, In e a -> 0 < snd e) ->
  has a t0 ->
  (forall a' t, check_deposit_ratio a' t p = (Ok true, p)) /\
  (exists shares p', deposit_all a p = (Ok shares, p')).
Proof.
  intros Hb Ht Hpos Ha; split.
  - intros a' t; apply check_deposit_ratio_empty; exact Hb.
  - unfold has in Ha; destruct (find a t0) as [v |] eqn:Fa; [| contradiction].
    assert (Hk : has (fold_left (fun b e => credit b (fst e) (snd e)) a (balances p)) t0)
      by (apply has_credit_all; right; eapply find_in_keys; exact Fa).
    unfold deposit_all.
    erewrite bind_run by (apply positive_amounts_pass; exact Hpos).
    erewrite bind_run by apply weights_empty_run.
    destruct (weights p) as [| w ws] eqn:Hw.
    + erewrite bind_run by (apply require_deposit_ratio_empty; exact Hb).
      erewrite bind_run by apply add_all_run.
      unfold has in Hk.
      destruct (find _ t0) as [b |] eqn:Fb in Hk; [| contradiction].
      erewrite shares_of_first_run; [eexists; eexists; reflexivity | exact Ht | exact Fa |].
      exact Fb.
    + erewrite bind_run by (apply require_deposit_ratio_empty; exact Hb).
      erewrite bind_run by apply add_all_run.
      erewrite bind_run by apply set_invariant_run.
      match goal with
      | |- context [shares_of_first a ?q] =>
          assert (Hq : has (balances q) t0 /\ tokens q = t0 :: rest)
      end.
      { rewrite <- Ht; split.
        - apply (set_invariant_has (with_balances _ p)) in Hk.
          rewrite set_invariant_run in Hk; exact Hk.
        - pose proof (set_invariant_tokens (with_balances
            (fold_left (fun b e => credit b (fst e) (snd e)) a (balances p)) p)) as K.
          rewrite set_invariant_run in K; exact K. }
      destruct Hq as [Hq1 Hq2]; unfold has in Hq1.
      destruct (find _ t0) as [b |] eqn:Fb in Hq1; [| contradiction].
      erewrite shares_of_first_run; [eexists; eexists; reflexivity | exact Hq2 | exact Fa |].
      exact Fb.
Qed.

Lemma all_zero_count (m : dmap) :
  (forall e, In e m -> snd e = 0) -> count_nonzero m = 0%nat /\ find_nonzero m = None.
Proof.
  unfold count_nonzero; induction m as [| e0 m IH]; simpl; [auto |].
  intros H; rewrite Reqb_true by (apply H; left; reflexivity); simpl.
  apply IH; intros e He; apply H; right; exact He.
Qed.

Lemma only_count_one (m : dmap) t a :
  only_nonzero m t a -> count_nonzero m = 1%nat /\ find_nonzero m = Some (t, a).
Proof.
  intros (l1 & l2 & -> & Ha & Hz).
  unfold count_nonzero; induction l1 as [| e l1 IH]; simpl.
  - rewrite Reqb_false by exact Ha; simpl.
    destruct (all_zero_count l2 Hz) as [H _]; unfold count_nonzero in H.
    rewrite H; auto.
  - rewrite Reqb_true by (apply Hz; left; reflexivity); simpl.
    apply IH; intros e' He'; apply Hz; right; exact He'.
Qed.

Lemma find_absent_keys (m : dmap) k : ~ In k (keys m) -> find m k = None.
Proof.
  induction m as [| [k0 v0] m IH]; simpl; [reflexivity |].
  intros H; destruct (String.eqb k0 k) eqn:E.
  - apply String.eqb_eq in E; subst; exfalso; apply H; left; reflexivity.
  - apply IH; intros Hin; apply H; right; exact Hin.
Qed.

Lemma find_middle (l1 l2 : dmap) t a :
  is_map (l1 ++ (t, a) :: l2) -> find (l1 ++ (t, a) :: l2) t = Some a.
Proof.
  unfold is_map, keys; induction l1 as [| [k0 v0] l1 IH]; simpl; intros H.
  - rewrite String.eqb_refl; reflexivity.
  - inversion H as [| ? ? Hn Hd]; subst.
    destruct (String.eqb k0 t) eqn:E; [| apply IH, Hd].
    apply String.eqb_eq in E; subst k0; exfalso; apply Hn.
    rewrite map_app; apply in_or_app; right; left; reflexivity.
Qed.

Lemma invariant_step_find q x k v :
  find (balances q) k = Some v -> find (balances (invariant_step q x)) k = Some v.
Proof. intros H; simpl; apply find_touch_kept, H. Qed.

Lemma set_invariant_find p k v :
  find (balances p) k = Some v ->
  find (balances (snd (set_invariant p))) k = Some v.
Proof.
  rewrite set_invariant_run; simpl.
  change (balances p) with (balances (with_invariant 1 p)).
  generalize (with_invariant 1 p) as q; generalize (tokens p) as l.
  induction l as [| x l IH]; intros q H; simpl; [exact H |].
  apply IH, invariant_step_find, H.
Qed.

(** ** Weights *)

Lemma assign_weight_has a t p q :
  assign_weight a t p = (Ok tt, q) ->
  has (weights q) t /\ (forall k, has (weights p) k -> has (weights q) k).
Proof.
  unfold assign_weight, at_, bind.
  destruct (find a t) as [v |]; [| discriminate].
  unfold ret, modify; intros H; injection H as <-; simpl; split.
  - unfold has; rewrite find_assign_self; discriminate.
  - intros k Hk; unfold assign; apply has_replace, has_touch_kept, Hk.
Qed.

Lemma set_weights_has a l p q :
  for_each l (assign_weight a) p = (Ok tt, q) ->
  forall k, In k l \/ has (weights p) k -> has (weights q) k.
Proof.
  revert p; induction l as [| x l IH]; simpl; intros p H k Hk.
  - unfold ret in H; injection H as <-; destruct Hk; [contradiction | assumption].
  - apply bind_ok in H as ([] & p1 & H1 & H).
    destruct (assign_weight_has _ _ _ _ H1) as [Hx Hkeep].
    apply (IH _ H); destruct Hk as [[<- | Hk] | Hk]; auto.
Qed.

(** What [initialize] establishes: every token of the pool has a weight. *)
Lemma initialize_ok_weighted a p p' :
  initialize a p = (Ok tt, p') -> weighted (tokens p') p'.
Proof.
  intros H.
  assert (Ht : tokens p' = tokens p).
  { assert (K : keeps weights_stay (initialize a) p)
      by (apply (keeps_initialize weights_stay); try frame_side;
          intros; split; [reflexivity | intros E; destruct (assign_nonempty _ _ _ E)]).
    destruct K as [K _]; rewrite H in K; exact K. }
  rewrite Ht; clear Ht; revert H.
  unfold initialize, bind at 1, get.
  destruct (negb _); [discriminate |].
  destruct (existsb _ _); [discriminate |].
  intros H.
  apply bind_ok in H as (u1 & q1 & _ & H).
  apply bind_ok in H as ([] & q2 & H2 & H).
  unfold modify in H; injection H as <-.
  intros t Ht; apply (set_weights_has _ _ _ _ H2); left; exact Ht.
Qed.

Ltac same_weights_of lem p :=
  let K := fresh "K" in
  assert (K : keeps (same_weights (tokens p)) lem p);
  [ | destruct K as [_ K]; auto ].

(** C9.  On a pool in which every token has a weight (as [initialize]
    leaves it), no deposit, withdrawal, swap or [equalize] changes the
    weights, whether the call returns or throws, the token arguments of
    [withdraw_one] and [swap] being tokens of the pool. *)
Theorem weights_immutable (p : InfinityPool) :
  weighted (tokens p) p ->
  (forall a, defined (fst (deposit_all a p)) ->
     weights (snd (deposit_all a p)) = weights p) /\
  (forall a, defined (fst (deposit_one a p)) ->
     weights (snd (deposit_one a p)) = weights p) /\
  (forall a, defined (fst (deposit_any a p)) ->
     weights (snd (deposit_any a p)) = weights p) /\
  (forall redeem, defined (fst (withdraw_all redeem p)) ->
     weights (snd (withdraw_all redeem p)) = weights p) /\
  (forall t redeem, In t (tokens p) ->
     defined (fst (withdraw_one t redeem p)) ->
     weights (snd (withdraw_one t redeem p)) = weights p) /\
  (forall redeem ratios, defined (fst (withdraw_any redeem ratios p)) ->
     weights (snd (withdraw_any redeem ratios p)) = weights p) /\
  (forall t_in t_out a, In t_in (tokens p) -> In t_out (tokens p) ->
     defined (fst (swap t_in t_out a p)) ->
     weights (snd (swap t_in t_out a p)) = weights p) /\
  (forall inputs ratio_out, defined (fst (equalize inputs ratio_out p)) ->
     weights (snd (equalize inputs ratio_out p)) = weights p).
Proof.
  intros Hw.
  assert (HT : tokens_in (fun k => In k (tokens p)) p) by (intros x Hx; exact Hx).
  repeat split.
  - intros a _; same_weights_of (deposit_all a) p.
    apply (keeps_deposit_all _ (fun k => In k (tokens p))); try frame_side; exact HT.
  - intros a _; same_weights_of (deposit_one a) p.
    apply (keeps_deposit_one _ (fun k => In k (tokens p))); try frame_side; exact HT.
  - intros a _; same_weights_of (deposit_any a) p.
    apply (keeps_deposit_any _ (fun k => In k (tokens p))); try frame_side; exact HT.
  - intros r _; same_weights_of (withdraw_all r) p.
    apply (keeps_withdraw_all _ (fun k => In k (tokens p))); try frame_side; exact HT.
  - intros t r Ht _; same_weights_of (withdraw_one t r) p.
    apply (keeps_withdraw_one _ (fun k => In k (tokens p))); try frame_side;
      [exact HT | exact Ht].
  - intros r ratios _; same_weights_of (withdraw_any r ratios) p.
    apply (keeps_withdraw_any _ (fun k => In k (tokens p))); try frame_side; exact HT.
  - intros t_in t_out a Hin Hout _; same_weights_of (swap t_in t_out a) p.
    apply (keeps_swap _ (fun k => In k (tokens p))); try frame_side;
      [exact HT | exact Hin | exact Hout].
  - intros i r _; same_weights_of (equalize i r) p.
    apply (keeps_equalize _ (fun k => In k (tokens p))); try frame_side; exact HT.
Qed.

(** ** Before the weights are set *)

Lemma weights_stay_assign k v p :
  weights_stay p (with_weights (assign (weights p) k v) p).
Proof.
  split; [reflexivity |]; simpl.
  intros E; destruct (assign_nonempty _ _ _ E).
Qed.

Lemma calculate_spot_price_pure x y p : snd (calculate_spot_price x y p) = p.
Proof.
  unfold calculate_spot_price, at_, bind, get, ret, throw.
  destruct (find (balances p) x) as [bx |]; [| reflexivity].
  destruct (find (balances p) y) as [by_ |]; [| reflexivity].
  destruct (find (weights p) x); [| reflexivity].
  destruct (find (weights p) y); reflexivity.
Qed.

Lemma perform_weights_stay c p : weights_stay p (perform c p).
Proof.
  destruct c; unfold perform, run, settle; cbn [snd].
  - apply weights_stay_refl.
  - apply (keeps_initialize weights_stay); try frame_side.
    exact weights_stay_assign.
  - apply (keeps_set_invariant weights_stay (fun _ => True)); frame_side.
  - rewrite calculate_spot_price_pure; apply weights_stay_refl.
  - apply (keeps_deposit_all weights_stay (fun _ => True)); frame_side.
  - apply (keeps_deposit_one weights_stay (fun _ => True)); frame_side.
  - apply (keeps_deposit_any weights_stay (fun _ => True)); frame_side.
  - apply (keeps_withdraw_all weights_stay (fun _ => True)); frame_side.
  - apply (keeps_withdraw_one weights_stay (fun _ => True)); frame_side.
  - apply (keeps_withdraw_any weights_stay (fun _ => True)); frame_side.
  - apply (keeps_swap weights_stay (fun _ => True)); frame_side.
  - apply (keeps_equalize weights_stay (fun _ => True)); frame_side.
Qed.

Lemma unweighted_guard {A} (k : bool -> M A) p :
  weights p = [] -> bind weights_empty k p = k true p.
Proof.
  intros H; rewrite (bind_run _ _ _ _ _ (weights_empty_run p)), H; reflexivity.
Qed.

(** ** The ratio check *)


Lemma accumulate_positive m : m <> [] -> all_positive m -> 0 < accumulate m.
Proof.
  induction m as [| e m IH]; intros Hn Hp; [contradiction |].
  rewrite accumulate_cons.
  assert (0 < snd e) by (apply Hp; left; reflexivity).
  destruct m as [| e' m'].
  - unfold accumulate; simpl; lra.
  - assert (0 < accumulate (e' :: m')); [| lra].
    apply IH; [discriminate |].
    intros x Hx; apply Hp; right; exact Hx.
Qed.








Open Scope string_scope.


Close Scope string_scope.

(** ** The invariant *)

Lemma has_found m k : has m k -> exists v, find m k = Some v.
Proof. unfold has; destruct (find m k) as [v |]; [eauto | contradiction]. Qed.

Lemma invariant_step_covered q x :
  has (balances q) x -> has (weights q) x ->
  invariant_step q x = with_invariant (invariant q * factor (balances q) (weights q) x) q.
Proof.
  intros Hb Hw; apply has_found in Hb as [b Hb]; apply has_found in Hw as [w Hw].
  unfold invariant_step; simpl.
  rewrite (find_touch_found _ _ _ Hb), (find_touch_found _ _ _ Hw).
  destruct q; reflexivity.
Qed.

Lemma invariant_loop_covered l : forall q,
  covered l q ->
  fold_left invariant_step l q =
  with_invariant
    (fold_left (fun acc t => acc * factor (balances q) (weights q) t) l (invariant q)) q.
Proof.
  induction l as [| x l IH]; intros q Hc; simpl.
  - destruct q; reflexivity.
  - destruct (Hc x (or_introl eq_refl)) as [Hb Hw].
    rewrite (invariant_step_covered _ _ Hb Hw).
    rewrite IH by (intros t Ht; apply (Hc t); right; exact Ht).
    reflexivity.
Qed.

Lemma set_invariant_covered p :
  covered (tokens p) p ->
  set_invariant p =
  (Ok (invariant_of (tokens p) (balances p) (weights p)),
   with_invariant (invariant_of (tokens p) (balances p) (weights p)) p).
Proof.
  intros Hc; rewrite set_invariant_run.
  rewrite (invariant_loop_covered (tokens p) (with_invariant 1 p)) by exact Hc.
  reflexivity.
Qed.

Lemma invariant_of_prod l b w : invariant_of l b w = prod (factor b w) l.
Proof.
  unfold invariant_of.
  change (fun acc token => acc * pow (index b token) (index w token))
    with (fun acc token => acc * factor b w token).
  assert (G : forall s, fold_left (fun acc t => acc * factor b w t) l s
                        = s * prod (factor b w) l).
  { induction l as [| x l IH]; intros s; simpl; [lra |].
    rewrite IH; lra. }
  rewrite G; lra.
Qed.

Lemma prod_pos g l : (forall t, In t l -> 0 < g t) -> 0 < prod g l.
Proof.
  induction l as [| x l IH]; intros H; simpl; [lra |].
  apply Rmult_lt_0_compat; [apply H; left; reflexivity |].
  apply IH; intros t Ht; apply H; right; exact Ht.
Qed.

Lemma prod_ext g g' l : (forall t, In t l -> g' t = g t) -> prod g' l = prod g l.
Proof.
  induction l as [| x l IH]; intros H; simpl; [reflexivity |].
  rewrite (H x (or_introl eq_refl)), IH; [reflexivity |].
  intros t Ht; apply H; right; exact Ht.
Qed.

(** Changing one factor of a product over distinct tokens. *)
Lemma prod_change_one g g' l x :
  NoDup l -> In x l -> (forall t, t <> x -> g' t = g t) ->
  prod g' l * g x = prod g l * g' x.
Proof.
  intros Hd; induction Hd as [| y l Hy Hd IH]; intros Hx Hg; [contradiction |].
  simpl; destruct Hx as [-> | Hx].
  - rewrite (prod_ext g g' l); [lra |].
    intros t Ht; apply Hg; intros ->; contradiction.
  - assert (y <> x) by (intros ->; contradiction).
    rewrite (Hg y) by assumption.
    specialize (IH Hx Hg).
    replace (g y * prod g' l * g x) with (g y * (prod g' l * g x)) by lra.
    rewrite IH; lra.
Qed.

Lemma Rpower_one c : Rpower 1 c = 1.
Proof. unfold Rpower; rewrite ln_1, Rmult_0_r; apply exp_0. Qed.

Lemma Rpower_below_one x c : 0 < x < 1 -> 0 < c -> 0 < Rpower x c < 1.
Proof.
  intros Hx Hc; split; [apply exp_pos |].
  rewrite <- (Rpower_one c); apply Rlt_Rpower_l; lra.
Qed.

(** What the swap does to the two factors of the invariant it touches:
    with [s] the power it computes, their product is multiplied by
    [pow(s * (2 - s), w_out)]. *)
Lemma swap_factors_scale b_in b_out w_in w_out a :
  0 < b_in -> 0 < b_out -> 0 < w_in -> 0 < w_out -> 0 < a <= b_in ->
  let s := pow ((b_in - a) / b_in) (w_in / w_out) in
  pow (b_in - a) w_in * pow (b_out + b_out * (1 - s)) w_out
    = pow b_in w_in * pow b_out w_out * pow (s * (2 - s)) w_out /\
  0 <= pow (s * (2 - s)) w_out <= 1.
Proof.
  intros Hbi Hbo Hwi Hwo [Ha Hle] s.
  assert (He : 0 < w_in / w_out) by (apply Rdiv_lt_0_compat; assumption).
  destruct (Req_dec_T a b_in) as [-> | Hne].
  - assert (Es : s = 0).
    { unfold s; replace ((b_in - b_in) / b_in) with 0 by (field; lra).
      apply pow_zero_base, He. }
    rewrite Es.
    replace (b_in - b_in) with 0 by lra.
    replace (0 * (2 - 0)) with 0 by lra.
    rewrite !pow_zero_base by assumption.
    split; lra.
  - assert (Hlt : a < b_in) by lra.
    set (r := (b_in - a) / b_in).
    assert (Hr : 0 < r < 1).
    { unfold r; split.
      - apply Rdiv_lt_0_compat; lra.
      - apply (Rmult_lt_reg_r b_in); [assumption |].
        unfold Rdiv; rewrite Rmult_assoc, Rinv_l by lra; lra. }
    assert (Es : s = Rpower r (w_in / w_out))
      by (unfold s; fold r; apply pow_pos_base; lra).
    assert (Hs : 0 < s < 1) by (rewrite Es; apply Rpower_below_one; assumption).
    assert (Hss : 0 < s * (2 - s) < 1) by (split; nra).
    assert (E1 : b_in - a = b_in * r) by (unfold r; field; lra).
    assert (E2 : b_out + b_out * (1 - s) = b_out * (2 - s)) by lra.
    rewrite E1, E2.
    rewrite !pow_pos_base by (try apply Rmult_lt_0_compat; lra).
    rewrite <- (Rpower_mult_distr b_in r) by lra.
    rewrite <- (Rpower_mult_distr b_out (2 - s)) by lra.
    rewrite <- (Rpower_mult_distr s (2 - s)) by lra.
    assert (E3 : Rpower r w_in = Rpower s w_out).
    { rewrite Es, Rpower_mult; f_equal; field; lra. }
    rewrite E3; split; [ring |].
    rewrite Rpower_mult_distr by lra.
    destruct (Rpower_below_one (s * (2 - s)) w_out Hss Hwo); lra.
Qed.

(** ** [swap] *)

Lemma debit_found m k v x : find m k = Some v -> debit m k x = replace m k (v - x).
Proof.
  intros H; unfold debit.
  rewrite (find_touch_found _ _ _ H), (index_found _ _ _ H); reflexivity.
Qed.

Lemma credit_found m k v x : find m k = Some v -> credit m k x = replace m k (v + x).
Proof.
  intros H; unfold credit.
  rewrite (find_touch_found _ _ _ H), (index_found _ _ _ H); reflexivity.
Qed.

Lemma index_replace_other m k k' v : k <> k' -> index (replace m k v) k' = index m k'.
Proof. intros H; unfold index; rewrite find_replace_other by exact H; reflexivity. Qed.

Lemma index_replace_same m k v v' :
  find m k = Some v -> index (replace m k v') k = v'.
Proof. intros H; unfold index; rewrite (find_replace_same _ _ _ _ H); reflexivity. Qed.

(** A valid swap between two tokens that have a balance and a weight: the
    amount that comes out, and the balances the invariant is recomputed
    from. *)
Lemma swap_run p t_in t_out a b_in b_out w_in w_out :
  t_in <> t_out ->
  find (balances p) t_in = Some b_in -> find (balances p) t_out = Some b_out ->
  find (weights p) t_in = Some w_in -> find (weights p) t_out = Some w_out ->
  0 < a <= b_in ->
  swap t_in t_out a p =
  (set_invariant ;;
   ret (b_out * (1 - pow ((b_in - a) / b_in) (w_in / w_out))))
    (with_balances
       (replace (replace (balances p) t_in (b_in - a)) t_out
          (b_out + b_out * (1 - pow ((b_in - a) / b_in) (w_in / w_out)))) p).
Proof.
  intros Hne Hbi Hbo Hwi Hwo [Ha Hle]; unfold swap.
  rewrite (bind_run _ _ _ _ _ (weights_empty_run p)).
  destruct (weights p) as [| e ws] eqn:Ew; [discriminate |].
  rewrite <- Ew in *; clear Ew e ws; cbv iota.
  rewrite Rleb_false by exact Ha.
  rewrite (bind_run _ _ _ _ _ (balances_index_found _ _ _ Hbi)).
  rewrite Rltb_false by exact Hle.
  rewrite (bind_run _ _ _ _ _ (balances_index_found _ _ _ Hbo)).
  rewrite (bind_run _ _ _ _ _ (balances_index_found _ _ _ Hbi)).
  rewrite (bind_run _ _ _ _ _ (balances_index_found _ _ _ Hbi)).
  rewrite (bind_run _ _ _ _ _ (weights_index_found _ _ _ Hwi)).
  rewrite (bind_run _ _ _ _ _ (weights_index_found _ _ _ Hwo)).
  rewrite (bind_run _ _ _ _ _ (balances_sub_run _ _ _)).
  rewrite (bind_run _ _ _ _ _ (balances_add_run _ _ _)).
  cbn [balances with_balances].
  rewrite (debit_found _ _ _ _ Hbi).
  erewrite credit_found by (rewrite find_replace_other by exact Hne; exact Hbo).
  reflexivity.
Qed.

Lemma swap_amount_example : 100 * (1 - pow ((100 - 10) / 100) (1 / 2 / (1 / 2))) = 10.
Proof.
  replace (1 / 2 / (1 / 2)) with 1 by lra.
  rewrite pow_one_exp by lra; lra.
Qed.

(** C3 (as amended).  On a pool with weights X: 0.5, Y: 0.5 and balances
    X: 100, Y: 100, [swap("X", "Y", 10)] returns 10 and leaves the balances
    X = 90 and Y = 110: the amount that comes out is credited to Y. *)
Theorem swap_example (p : InfinityPool) :
  find (weights p) "X"%string = Some (1 / 2) ->
  find (weights p) "Y"%string = Some (1 / 2) ->
  find (balances p) "X"%string = Some 100 ->
  find (balances p) "Y"%string = Some 100 ->
  exists p',
    swap "X"%string "Y"%string 10 p = (Ok 10, p') /\
    find (balances p') "X"%string = Some 90 /\
    find (balances p') "Y"%string = Some 110.
Proof.
  intros HwX HwY HbX HbY.
  assert (Hne : "X"%string <> "Y"%string) by discriminate.
  assert (Ha : 0 < 10 <= 100) by lra.
  rewrite (swap_run p _ _ 10 100 100 (1 / 2) (1 / 2) Hne HbX HbY HwX HwY Ha).
  rewrite swap_amount_example.
  replace (100 - 10) with 90 by lra.
  replace (100 + 10) with 110 by lra.
  set (q := with_balances _ p).
  assert (HX : find (balances q) "X"%string = Some 90).
  { unfold q; simpl.
    rewrite find_replace_other by (intros E; discriminate E).
    apply (find_replace_same _ _ _ _ HbX). }
  assert (HY : find (balances q) "Y"%string = Some 110).
  { unfold q; simpl.
    eapply find_replace_same.
    rewrite find_replace_other by exact Hne; exact HbY. }
  apply set_invariant_find in HX, HY.
  rewrite set_invariant_run in HX, HY; simpl snd in HX, HY.
  erewrite bind_run by apply set_invariant_run.
  eexists; split; [reflexivity |].
  split; assumption.
Qed.

Lemma positive_pool_covered p : positive_pool p -> covered (tokens p) p.
Proof.
  intros H t Ht; destruct (H t Ht) as [(b & Hb & _) (w & Hw & _)].
  unfold has; rewrite Hb, Hw; split; discriminate.
Qed.

Lemma factor_found b w t vb vw :
  find b t = Some vb -> find w t = Some vw -> factor b w t = pow vb vw.
Proof.
  intros Hb Hw; unfold factor.
  rewrite (index_found _ _ _ Hb), (index_found _ _ _ Hw); reflexivity.
Qed.

(** The invariant of a pool with positive balances and weights when the
    balances of two distinct tokens are replaced as [swap] does. *)
Lemma swapped_invariant_scaled l b w t_in t_out a b_in b_out w_in w_out :
  NoDup l -> In t_in l -> In t_out l -> t_in <> t_out ->
  find b t_in = Some b_in -> find b t_out = Some b_out ->
  find w t_in = Some w_in -> find w t_out = Some w_out ->
  0 < b_in -> 0 < b_out -> 0 < w_in -> 0 < w_out -> 0 < a <= b_in ->
  let s := pow ((b_in - a) / b_in) (w_in / w_out) in
  invariant_of l
    (replace (replace b t_in (b_in - a)) t_out (b_out + b_out * (1 - s))) w
  = invariant_of l b w * pow (s * (2 - s)) w_out.
Proof.
  intros Hd Hin Hout Hne Hbi Hbo Hwi Hwo Pbi Pbo Pwi Pwo Ha s.
  rewrite !invariant_of_prod.
  set (out := b_out * (1 - s)).
  set (b1 := replace b t_in (b_in - a)).
  set (b2 := replace b1 t_out (b_out + out)).
  assert (F1 : find b1 t_out = Some b_out)
    by (unfold b1; rewrite find_replace_other by exact Hne; exact Hbo).
  assert (K1 : prod (factor b1 w) l * factor b w t_in
               = prod (factor b w) l * factor b1 w t_in).
  { apply prod_change_one; [exact Hd | exact Hin |].
    intros t Ht; unfold factor, b1; rewrite index_replace_other by auto; reflexivity. }
  assert (K2 : prod (factor b2 w) l * factor b1 w t_out
               = prod (factor b1 w) l * factor b2 w t_out).
  { apply prod_change_one; [exact Hd | exact Hout |].
    intros t Ht; unfold factor, b2; rewrite index_replace_other by auto; reflexivity. }
  rewrite (factor_found _ _ _ _ _ Hbi Hwi) in K1.
  rewrite (factor_found _ _ _ _ _ F1 Hwo) in K2.
  assert (E1 : factor b1 w t_in = pow (b_in - a) w_in).
  { unfold factor, b1.
    rewrite (index_replace_same _ _ _ _ Hbi), (index_found _ _ _ Hwi); reflexivity. }
  assert (E2 : factor b2 w t_out = pow (b_out + out) w_out).
  { unfold factor, b2.
    rewrite (index_replace_same _ _ _ _ F1), (index_found _ _ _ Hwo); reflexivity. }
  rewrite E1 in K1; rewrite E2 in K2.
  destruct (swap_factors_scale b_in b_out w_in w_out a Pbi Pbo Pwi Pwo Ha) as [S _].
  fold s in S; fold out in S.
  assert (Px : 0 < pow b_in w_in) by (apply pow_gt0; exact Pbi).
  assert (Py : 0 < pow b_out w_out) by (apply pow_gt0; exact Pbo).
  set (A := prod (factor b2 w) l) in *; set (A1 := prod (factor b1 w) l) in *.
  set (B := prod (factor b w) l) in *.
  set (x := pow b_in w_in) in *; set (y := pow b_out w_out) in *.
  set (x' := pow (b_in - a) w_in) in *; set (y' := pow (b_out + out) w_out) in *.
  set (F := pow (s * (2 - s)) w_out) in *.
  apply (Rmult_eq_reg_r (x * y)); [| apply Rgt_not_eq, Rmult_lt_0_compat; assumption].
  replace (A * (x * y)) with (A * y * x) by ring.
  rewrite K2.
  replace (A1 * y' * x) with (A1 * x * y') by ring.
  rewrite K1.
  replace (B * x' * y') with (B * (x' * y')) by ring.
  rewrite S; ring.
Qed.

(** C1 (as amended).  On a pool whose tokens are distinct and all have a
    positive balance and a positive weight, a valid swap between two
    distinct tokens of the pool succeeds, and the invariant that
    [set_invariant] computes after the swap is the one it computes before
    multiplied by [pow(s * (2 - s), weight_out)], where [s] is the power
    [pow((balance_in - amount_in) / balance_in, weight_in / weight_out)]
    the swap computes.  The factor lies between 0 and 1, so that the two
    invariants agree within a relative tolerance exactly when the factor is
    within that tolerance of 1. *)
Theorem swap_scales_invariant
  (p : InfinityPool) (t_in t_out : token) (amount_in : R) :
  NoDup (tokens p) ->
  positive_pool p ->
  In t_in (tokens p) -> In t_out (tokens p) -> t_in <> t_out ->
  0 < amount_in <= index (balances p) t_in ->
  exists before p1 amount_out p2 after p3,
    set_invariant p = (Ok before, p1) /\
    swap t_in t_out amount_in p1 = (Ok amount_out, p2) /\
    set_invariant p2 = (Ok after, p3) /\
    0 < before /\
    after = before * swap_factor p t_in t_out amount_in /\
    0 <= swap_factor p t_in t_out amount_in <= 1 /\
    (forall tolerance,
       Rabs (after - before) <= tolerance * before <->
       1 - swap_factor p t_in t_out amount_in <= tolerance).
Proof.
  intros Hd Hp Hin Hout Hne Ha.
  destruct (Hp _ Hin) as [(b_in & Hbi & Pbi) (w_in & Hwi & Pwi)].
  destruct (Hp _ Hout) as [(b_out & Hbo & Pbo) (w_out & Hwo & Pwo)].
  unfold swap_factor, swap_share.
  rewrite (index_found _ _ _ Hbi), (index_found _ _ _ Hwi), (index_found _ _ _ Hwo).
  rewrite (index_found _ _ _ Hbi) in Ha.
  pose proof (positive_pool_covered _ Hp) as Hc.
  set (s := pow ((b_in - amount_in) / b_in) (w_in / w_out)).
  set (F := pow (s * (2 - s)) w_out).
  set (out := b_out * (1 - s)).
  set (b' := replace (replace (balances p) t_in (b_in - amount_in)) t_out (b_out + out)).
  set (before := invariant_of (tokens p) (balances p) (weights p)).
  set (after := invariant_of (tokens p) b' (weights p)).
  set (p1 := with_invariant before p).
  set (p2 := with_invariant after (with_balances b' p1)).
  assert (Hc2 : covered (tokens p) (with_balances b' p1)).
  { intros t Ht; destruct (Hc t Ht) as [H1 H2]; split; [| exact H2].
    unfold b'; simpl; apply has_replace, has_replace, H1. }
  assert (Pb : 0 < before).
  { unfold before; rewrite invariant_of_prod; apply prod_pos.
    intros t Ht; destruct (Hp t Ht) as [(b & Hb & Pb) (w & Hw & _)].
    rewrite (factor_found _ _ _ _ _ Hb Hw); apply pow_gt0, Pb. }
  assert (Ea : after = before * F).
  { apply (swapped_invariant_scaled (tokens p) (balances p) (weights p)
             t_in t_out amount_in b_in b_out w_in w_out); assumption. }
  assert (HF : 0 <= F <= 1)
    by (apply (swap_factors_scale b_in b_out w_in w_out amount_in); assumption).
  exists before, p1, out, p2, after, p2.
  split; [apply set_invariant_covered, Hc |].
  split.
  { rewrite (swap_run p1 t_in t_out amount_in b_in b_out w_in w_out Hne Hbi Hbo Hwi Hwo Ha).
    fold s; fold out; change (balances p1) with (balances p); fold b'.
    erewrite bind_run by (apply set_invariant_covered; exact Hc2).
    reflexivity. }
  split.
  { rewrite (set_invariant_covered p2) by exact Hc2.
    reflexivity. }
  split; [exact Pb |]. split; [exact Ea |]. split; [exact HF |].
  intros tolerance; rewrite Ea.
  replace (before * F - before) with (- (before * (1 - F))) by ring.
  rewrite Rabs_Ropp, Rabs_pos_eq by (apply Rmult_le_pos; lra).
  rewrite (Rmult_comm tolerance before).
  split; intros H.
  - apply (Rmult_le_reg_l before); assumption.
  - apply Rmult_le_compat_l; lra.
Qed.

Open Scope string_scope.

Lemma pool_xy_positive : positive_pool pool_xy.
Proof.
  intros t [<- | [<- | []]]; split; eexists; (split; [reflexivity | lra]).
Qed.

Lemma sqrt_9900_below : sqrt 9900 < 995 / 10.
Proof.
  rewrite <- (sqrt_square (995 / 10)) by lra.
  apply sqrt_lt_1; lra.
Qed.

(** C1, counterexample.  On the pool [initialize]d with 100 X and 100 Y,
    [set_invariant] gives 100 before [swap("X", "Y", 10)] and less than 99.5
    after it. *)
Lemma swap_changes_invariant :
  exists before p1 amount_out p2 after p3,
    set_invariant pool_xy = (Ok before, p1) /\
    swap "X" "Y" 10 p1 = (Ok amount_out, p2) /\
    set_invariant p2 = (Ok after, p3) /\
    before = 100 /\ after < 995 / 10.
Proof.
  exists (1 * pow 100 (1 / 2) * pow 100 (1 / 2)).
  exists (with_invariant (1 * pow 100 (1 / 2) * pow 100 (1 / 2)) pool_xy).
  exists (100 * (1 - pow ((100 - 10) / 100) (1 / 2 / (1 / 2)))).
  eexists. eexists. eexists.
  split; [unfold set_invariant, pool_xy; exec |].
  split; [unfold swap, pool_xy, with_invariant; cbn [tokens weights balances shares_issued];
          exec |].
  split; [unfold set_invariant; exec |].
  split.
  - rewrite pow_half by lra.
    rewrite Rmult_1_l, sqrt_sqrt; lra.
  - replace (1 / 2 / (1 / 2)) with 1 by lra.
    rewrite pow_one_exp by lra.
    replace (100 - 10) with 90 by lra.
    replace (100 + 100 * (1 - 90 / 100)) with 110 by lra.
    rewrite !pow_half by lra.
    rewrite Rmult_1_l, <- sqrt_mult by lra.
    replace (90 * 110) with 9900 by lra.
    exact sqrt_9900_below.
Qed.

Close Scope string_scope.

(** ** The theorems at concrete pools *)

Open Scope string_scope.

Lemma initialize_13 :
  initialize [("X", 1); ("Y", 3)] pool_new_xy = (Ok tt, pool_13).
Proof.
  unfold initialize, pool_new_xy, pool_13.
  erewrite bind_run by exec; cbv beta.
  cbn [List.length tokens Nat.eqb negb existsb snd orb]; rbool.
  cbn [orb]; cbv iota.
  replace (3 / 4) with (3 / accumulate [("X", 1); ("Y", 3)])
    by (unfold accumulate; simpl; lra).
  replace (1 / 4) with (1 / accumulate [("X", 1); ("Y", 3)])
    by (unfold accumulate; simpl; lra).
  exec.
Qed.

Lemma pool_xy_weighted : weighted (tokens pool_xy) pool_xy.
Proof. intros t [<- | [<- | []]]; discriminate. Qed.

Lemma swap_scales_invariant_witness :
  exists before p1 amount_out p2 after p3,
    set_invariant pool_xy = (Ok before, p1) /\
    swap "X" "Y" 10 p1 = (Ok amount_out, p2) /\
    set_invariant p2 = (Ok after, p3) /\
    0 < before /\
    after = before * swap_factor pool_xy "X" "Y" 10 /\
    0 <= swap_factor pool_xy "X" "Y" 10 <= 1 /\
    (forall tolerance,
       Rabs (after - before) <= tolerance * before <->
       1 - swap_factor pool_xy "X" "Y" 10 <= tolerance).
Proof.
  apply (swap_scales_invariant pool_xy "X" "Y" 10).
  - repeat constructor; simpl; intuition discriminate.
  - exact pool_xy_positive.
  - simpl; auto.
  - simpl; auto.
  - discriminate.
  - unfold index; simpl; lra.
Defined.

Lemma withdraw_all_exceeding_redeem_witness :
  shares_issued pool_xy < 200000000000000000000000 / SUPPLY /\
  withdraw_all 200000000000000000000000 pool_xy = (Err InvalidArgument, pool_xy).
Proof.
  assert (H : shares_issued pool_xy < 200000000000000000000000 / SUPPLY)
    by (unfold pool_xy, FIRST, SUPPLY; simpl; lra).
  split; [exact H |].
  apply (withdraw_all_exceeding_redeem pool_xy 200000000000000000000000 H).
Defined.

Lemma weights_immutable_witness :
  weighted (tokens pool_xy) pool_xy /\
  weights (snd (swap "X" "Y" 10 pool_xy)) = weights pool_xy.
Proof.
  split; [exact pool_xy_weighted |].
  apply (weights_immutable pool_xy pool_xy_weighted).
  - simpl; auto.
  - simpl; auto.
  - rewrite swap_xy; discriminate.
Defined.

Lemma empty_pool_accepts_any_ratio_witness :
  (forall a' t, check_deposit_ratio a' t pool_new_xy = (Ok true, pool_new_xy)) /\
  (exists shares p', deposit_all [("X", 1); ("Y", 1000)] pool_new_xy = (Ok shares, p')).
Proof.
  apply (empty_pool_accepts_any_ratio pool_new_xy [("X", 1); ("Y", 1000)] "X" ["Y"]).
  - reflexivity.
  - reflexivity.
  - intros e [<- | [<- | []]]; simpl; lra.
  - discriminate.
Defined.

Lemma swap_example_witness :
  exists p',
    swap "X" "Y" 10 pool_xy = (Ok 10, p') /\
    find (balances p') "X" = Some 90 /\
    find (balances p') "Y" = Some 110.
Proof.
  apply (swap_example pool_xy); reflexivity.
Defined.

(** Withdrawals that return: the pool of 100 X and 100 Y redeems 1. *)
Lemma withdrawals_return :
  (exists out p', withdraw_all 1 pool_xy = (Ok out, p')) /\
  (exists out p', withdraw_one "X" 1 pool_xy = (Ok out, p')) /\
  (exists out p',
     withdraw_any 1 [("X", 1); ("Y", 1)] pool_xy = (Ok out, p')).
Proof.
  assert (H : 1 / SUPPLY <= FIRST) by (unfold SUPPLY, FIRST; lra).
  assert (C : check_redeem 1 pool_xy = (Ok (1 / SUPPLY), pool_xy))
    by (apply check_redeem_ok; [lra | exact H]).
  repeat split.
  - do 2 eexists; unfold withdraw_all.
    rewrite (bind_run _ _ _ _ _ C).
    unfold withdraw_all_amounts, pool_xy; exec.
  - do 2 eexists; unfold withdraw_one.
    erewrite bind_run by (unfold pool_xy; exec); cbv iota.
    rewrite (bind_run _ _ _ _ _ C).
    unfold withdraw_one_amount, pool_xy; exec.
  - do 2 eexists; unfold withdraw_any.
    erewrite bind_run by (unfold pool_xy; exec); cbv iota.
    erewrite bind_run by (unfold pool_xy; exec); cbn [negb]; cbv iota.
    rewrite (bind_run _ _ _ _ _ C).
    unfold withdraw_any_amounts, pool_xy; exec.
Qed.

Close Scope string_scope.

(** * Further properties of the methods *)

(** ** The token vector *)

(** X1.  A pool a program can hold has at least two tokens, and no call of
    a public method, returning or throwing, changes the token vector. *)
Theorem tokens_fixed (p : InfinityPool) :
  reachable p ->
  (2 <= List.length (tokens p))%nat /\
  forall c, tokens (perform c p) = tokens p.
Proof.
  intros H; split.
  - induction H as [toks p H | c p _ IH _].
    + unfold construct in H.
      destruct (Nat.ltb (List.length toks) 2) eqn:E; [discriminate |].
      injection H as <-; simpl; apply Nat.ltb_ge, E.
    + destruct (perform_weights_stay c p) as [K _]; rewrite K; exact IH.
  - intros c; destruct (perform_weights_stay c p) as [K _]; exact K.
Qed.

(** ** What [initialize] leaves *)

Lemma find_assign_other m k k' v : k <> k' -> find (assign m k v) k' = find m k'.
Proof.
  intros Hne; unfold assign.
  rewrite find_replace_other by exact Hne.
  unfold touch; destruct (find m k); [reflexivity |].
  simpl; apply String.eqb_neq in Hne; rewrite Hne; reflexivity.
Qed.

Lemma find_weights_from_other a l : forall w t,
  ~ In t l -> find (weights_from a l w) t = find w t.
Proof.
  unfold weights_from; induction l as [| x l IH]; intros w t Hn; simpl; [reflexivity |].
  rewrite IH by (intros Hin; apply Hn; right; exact Hin).
  apply find_assign_other; intros ->; apply Hn; left; reflexivity.
Qed.

Lemma find_weights_from a l : forall w t,
  NoDup l -> In t l ->
  find (weights_from a l w) t = Some (index a t / accumulate a).
Proof.
  induction l as [| x l IH]; intros w t Hd Ht; [contradiction |].
  inversion Hd as [| ? ? Hx Hd']; subst.
  change (weights_from a (x :: l) w)
    with (weights_from a l (assign w x (index a x / accumulate a))).
  destruct Ht as [-> | Ht]; [| apply IH; assumption].
  rewrite find_weights_from_other by exact Hx.
  apply find_assign_self.
Qed.

(** The loop of [initialize]: it stops with [std::out_of_range] at the
    first token the map has no entry for, having set the weights of the
    tokens before it. *)
Lemma set_weights_run a l : forall q,
  (forall t, In t l -> has a t) ->
  for_each l (assign_weight a) q = (Ok tt, with_weights (weights_from a l (weights q)) q).
Proof.
  unfold weights_from; induction l as [| x l IH]; intros q H; simpl.
  - rewrite with_weights_same; reflexivity.
  - destruct (has_found _ _ (H x (or_introl eq_refl))) as [v Hv].
    unfold bind at 1, assign_weight at 1, at_, bind at 1; rewrite Hv.
    unfold ret at 1, modify at 1.
    rewrite IH by (intros t Ht; apply H; right; exact Ht).
    rewrite (index_found _ _ _ Hv); reflexivity.
Qed.

Lemma set_weights_missing a l : forall q,
  (exists t, In t l /\ ~ has a t) ->
  exists q', for_each l (assign_weight a) q = (Err OutOfRange, q') /\
             balances q' = balances q /\ shares_issued q' = shares_issued q /\
             invariant q' = invariant q.
Proof.
  induction l as [| x l IH]; intros q (t & Ht & Hn); [contradiction |].
  simpl; unfold bind at 1, assign_weight at 1, at_, bind at 1.
  destruct (find a x) as [v |] eqn:E.
  - unfold ret at 1, modify at 1.
    destruct Ht as [-> | Ht]; [exfalso; apply Hn; unfold has; rewrite E; discriminate |].
    destruct (IH (with_weights (assign (weights q) x (v / accumulate a)) q))
      as (q' & -> & H1 & H2 & H3); [exists t; auto |].
    exists q'; auto.
  - exists q; auto.
Qed.

Lemma initialize_passes a p :
  List.length a = List.length (tokens p) -> all_positive a ->
  initialize a p =
  (modify (with_balances a) ;;
   for_each (tokens p) (assign_weight a) ;;
   modify (with_shares_issued FIRST)) p.
Proof.
  intros Hl Hp; unfold initialize, bind at 1, get.
  rewrite Hl, Nat.eqb_refl; simpl negb; cbv iota.
  replace (existsb _ a) with false; [reflexivity |].
  symmetry; apply not_true_is_false; intros E.
  apply existsb_exists in E as (e & He & Hle).
  apply Rleb_spec in Hle; specialize (Hp e He); lra.
Qed.

Lemma initialize_ok_run a p :
  List.length a = List.length (tokens p) -> all_positive a ->
  (forall t, In t (tokens p) -> has a t) ->
  initialize a p =
  (Ok tt, mkPool (tokens p) (weights_from a (tokens p) (weights p)) a FIRST
            (invariant p)).
Proof.
  intros Hl Hp Hh; rewrite initialize_passes by assumption.
  unfold bind at 1, modify at 1.
  erewrite bind_run by (apply set_weights_run; exact Hh).
  reflexivity.
Qed.


Lemma initialize_ok_inv a p p' :
  initialize a p = (Ok tt, p') ->
  List.length a = List.length (tokens p) /\ all_positive a /\
  (forall t, In t (tokens p) -> has a t) /\
  p' = mkPool (tokens p) (weights_from a (tokens p) (weights p)) a FIRST (invariant p).
Proof.
  intros H.
  destruct (Nat.eq_dec (List.length a) (List.length (tokens p))) as [Hl | Hl].
  2:{ rewrite initialize_refuses in H by (left; exact Hl); discriminate. }
  split; [exact Hl |].
  assert (Hp : all_positive a).
  { intros e He; destruct (Rle_dec (snd e) 0) as [Hle | Hgt]; [| lra].
    rewrite initialize_refuses in H by (right; exists e; auto); discriminate. }
  split; [exact Hp |].
  assert (Hh : forall t, In t (tokens p) -> has a t).
  { intros t Ht; unfold has; intros Hn.
    rewrite initialize_passes in H by assumption.
    unfold bind at 1, modify at 1 in H.
    destruct (set_weights_missing a (tokens p) (with_balances a p)) as (q' & E & _).
    { exists t; split; [exact Ht | unfold has; rewrite Hn; auto]. }
    rewrite (bind_fail _ _ _ _ _ E) in H; discriminate. }
  split; [exact Hh |].
  rewrite initialize_ok_run in H by assumption.
  injection H as <-; reflexivity.
Qed.

(** X3.  When [initialize] returns on a pool with distinct tokens,
    [balances] is the map it was given, [shares_issued] is [FIRST], the
    weight of every token is its amount divided by the sum of the amounts,
    and the cached invariant is the one the pool had before: [initialize]
    does not compute it. *)
Theorem initialize_effect (a : dmap) (p p' : InfinityPool) :
  NoDup (tokens p) ->
  initialize a p = (Ok tt, p') ->
  balances p' = a /\
  shares_issued p' = FIRST /\
  invariant p' = invariant p /\
  forall t, In t (tokens p) ->
    find (weights p') t = Some (index a t / accumulate a).
Proof.
  intros Hd H.
  destruct (initialize_ok_inv _ _ _ H) as (_ & _ & _ & ->); simpl.
  repeat split; try reflexivity.
  intros t Ht; apply find_weights_from; assumption.
Qed.

(** ** The weights sum to one *)

Lemma erase_length m k : has m k -> S (List.length (erase m k)) = List.length m.
Proof.
  unfold has; induction m as [| [k0 v0] m IH]; simpl; [intros H; contradiction H; reflexivity |].
  destruct (String.eqb k0 k); [reflexivity |].
  intros H; simpl; rewrite IH by exact H; reflexivity.
Qed.

Lemma erase_find_other m k k' : k <> k' -> find (erase m k) k' = find m k'.
Proof.
  intros Hne; induction m as [| [k0 v0] m IH]; simpl; [reflexivity |].
  destruct (String.eqb k0 k) eqn:E; simpl.
  - apply String.eqb_eq in E; subst k0.
    apply String.eqb_neq in Hne; rewrite Hne; reflexivity.
  - rewrite IH; reflexivity.
Qed.

Lemma erase_accumulate m k :
  has m k -> accumulate m = index m k + accumulate (erase m k).
Proof.
  unfold has, index; induction m as [| [k0 v0] m IH]; simpl;
    [intros H; contradiction H; reflexivity |].
  destruct (String.eqb k0 k) eqn:E.
  - intros _; rewrite accumulate_cons; reflexivity.
  - intros H; rewrite !accumulate_cons, (IH H); simpl; lra.
Qed.

(** A list of distinct tokens as long as the map, each with an entry,
    names every entry once: summing over it is summing the map. *)
Lemma total_accumulate l : forall m,
  NoDup l -> List.length m = List.length l -> (forall t, In t l -> has m t) ->
  total m l = accumulate m.
Proof.
  induction l as [| x l IH]; intros m Hd Hl Hh; simpl.
  - destruct m; [reflexivity | discriminate].
  - inversion Hd as [| ? ? Hx Hd']; subst.
    assert (Hm : has m x) by (apply Hh; left; reflexivity).
    rewrite (erase_accumulate _ _ Hm); f_equal.
    rewrite <- (IH (erase m x)).
    + unfold total; clear - Hx; induction l as [| y l IHl]; simpl; [reflexivity |].
      rewrite IHl by (intros H; apply Hx; right; exact H).
      unfold index; rewrite erase_find_other; [reflexivity |].
      intros ->; apply Hx; left; reflexivity.
    + exact Hd'.
    + pose proof (erase_length _ _ Hm) as E; simpl in Hl; lia.
    + intros t Ht; unfold has; rewrite erase_find_other.
      * apply Hh; right; exact Ht.
      * intros ->; contradiction.
Qed.

Lemma total_scaled (f : token -> R) (m : dmap) (c : R) l :
  (forall t, In t l -> index m t = f t * c) ->
  total m l = fold_right (fun t r => f t + r) 0 l * c.
Proof.
  induction l as [| x l IH]; intros H; simpl; [lra |].
  rewrite (H x (or_introl eq_refl)), IH by (intros t Ht; apply H; right; exact Ht).
  lra.
Qed.

(** X4.  When [initialize] returns on a pool with distinct tokens (at least
    one), every token has a positive weight and the weights of the tokens
    sum to one. *)
Theorem initialize_weights_sum_to_one (a : dmap) (p p' : InfinityPool) :
  NoDup (tokens p) -> tokens p <> [] ->
  initialize a p = (Ok tt, p') ->
  total (weights p') (tokens p') = 1 /\
  forall t, In t (tokens p') -> 0 < index (weights p') t.
Proof.
  intros Hd Hn H.
  destruct (initialize_ok_inv _ _ _ H) as (Hl & Hp & Hh & ->); simpl.
  assert (Ha : a <> []) by (intros ->; destruct (tokens p); [contradiction | discriminate]).
  pose proof (accumulate_positive _ Ha Hp) as HS.
  assert (Hw : forall t, In t (tokens p) ->
                 index (weights_from a (tokens p) (weights p)) t
                 = index a t * / accumulate a).
  { intros t Ht; unfold index at 1.
    rewrite (find_weights_from a _ (weights p) t Hd Ht); reflexivity. }
  split.
  - rewrite (total_scaled (index a) _ (/ accumulate a)) by exact Hw.
    change (fold_right (fun t r => index a t + r) 0 (tokens p)) with (total a (tokens p)).
    rewrite total_accumulate by assumption.
    apply Rinv_r; lra.
  - intros t Ht; rewrite (Hw t Ht).
    apply Rmult_lt_0_compat; [| apply Rinv_0_lt_compat; exact HS].
    destruct (has_found _ _ (Hh t Ht)) as [v Hv].
    rewrite (index_found _ _ _ Hv).
    clear - Hv Hp; induction a as [| [k0 v0] a IH]; [discriminate |].
    simpl in Hv; destruct (String.eqb k0 t).
    + injection Hv as <-; apply (Hp (k0, v0)); left; reflexivity.
    + apply IH; [intros e He; apply Hp; right; exact He | exact Hv].
Qed.

(** ** [calculate_spot_price] *)

Lemma calculate_spot_price_run x y p bx wx by_ wy :
  find (balances p) x = Some bx -> find (weights p) x = Some wx ->
  find (balances p) y = Some by_ -> find (weights p) y = Some wy ->
  calculate_spot_price x y p = (Ok ((bx / wx) / (by_ / wy)), p).
Proof.
  intros Hbx Hwx Hby Hwy.
  unfold calculate_spot_price, at_, bind, get, ret.
  rewrite Hbx, Hby, Hwx, Hwy; reflexivity.
Qed.

(** X5.  [calculate_spot_price] never changes the pool.  It throws
    [std::invalid_argument] when one of the two tokens has no balance,
    [std::out_of_range] when both have a balance and one of them has no
    weight, and otherwise returns
    [(balance[asset] / weight[asset]) / (balance[currency] / weight[currency])]. *)
Theorem calculate_spot_price_contract (asset currency : token) (p : InfinityPool) :
  (~ has (balances p) asset \/ ~ has (balances p) currency ->
   calculate_spot_price asset currency p = (Err InvalidArgument, p)) /\
  (has (balances p) asset -> has (balances p) currency ->
   ~ has (weights p) asset \/ ~ has (weights p) currency ->
   calculate_spot_price asset currency p = (Err OutOfRange, p)) /\
  (forall ba wa bc wc,
     find (balances p) asset = Some ba -> find (weights p) asset = Some wa ->
     find (balances p) currency = Some bc -> find (weights p) currency = Some wc ->
     calculate_spot_price asset currency p = (Ok ((ba / wa) / (bc / wc)), p)).
Proof.
  unfold has; repeat split.
  - unfold calculate_spot_price, bind, get.
    destruct (find (balances p) asset); destruct (find (balances p) currency);
      intros [H | H]; try reflexivity; exfalso; apply H; discriminate.
  - intros Ha Hc Hw; unfold calculate_spot_price, at_, bind, get, ret, throw.
    destruct (find (balances p) asset); [| contradiction].
    destruct (find (balances p) currency); [| contradiction].
    destruct (find (weights p) asset); destruct (find (weights p) currency);
      try reflexivity.
    destruct Hw as [H | H]; exfalso; apply H; discriminate.
  - intros; apply calculate_spot_price_run; assumption.
Qed.

(** X6.  On a pool where two tokens have non-zero balances and weights, the
    spot price of one in the other is the inverse of the price the other
    way round, and the price of a token in itself is one. *)
Theorem spot_price_reciprocal (x y : token) (p : InfinityPool) bx wx by_ wy :
  find (balances p) x = Some bx -> find (weights p) x = Some wx ->
  find (balances p) y = Some by_ -> find (weights p) y = Some wy ->
  bx <> 0 -> wx <> 0 -> by_ <> 0 -> wy <> 0 ->
  exists pxy pyx,
    calculate_spot_price x y p = (Ok pxy, p) /\
    calculate_spot_price y x p = (Ok pyx, p) /\
    calculate_spot_price x x p = (Ok 1, p) /\
    pxy * pyx = 1.
Proof.
  intros Hbx Hwx Hby Hwy Nbx Nwx Nby Nwy.
  exists ((bx / wx) / (by_ / wy)), ((by_ / wy) / (bx / wx)).
  split; [apply calculate_spot_price_run; assumption |].
  split; [apply calculate_spot_price_run; assumption |].
  split.
  - rewrite (calculate_spot_price_run x x p bx wx bx wx) by assumption.
    f_equal; f_equal; field; auto.
  - field; auto.
Qed.

Lemma find_positive (a : dmap) t v : all_positive a -> find a t = Some v -> 0 < v.
Proof.
  intros Hp; induction a as [| [k0 v0] a IH]; simpl; [discriminate |].
  destruct (String.eqb k0 t).
  - intros Hv; injection Hv as <-; apply (Hp (k0, v0)); left; reflexivity.
  - apply IH; intros e He; apply Hp; right; exact He.
Qed.

(** X7.  Right after [initialize] has returned on a pool with distinct
    tokens, the spot price of any token of the pool in any other is one:
    the weights are the proportions of the balances. *)
Theorem spot_price_after_initialize (a : dmap) (p p' : InfinityPool) (x y : token) :
  NoDup (tokens p) ->
  initialize a p = (Ok tt, p') ->
  In x (tokens p) -> In y (tokens p) ->
  calculate_spot_price x y p' = (Ok 1, p').
Proof.
  intros Hd H Hx Hy.
  destruct (initialize_ok_inv _ _ _ H) as (Hl & Hp & Hh & ->).
  destruct (has_found _ _ (Hh x Hx)) as [ax Hax].
  destruct (has_found _ _ (Hh y Hy)) as [ay Hay].
  pose proof (find_positive _ _ _ Hp Hax) as Px.
  pose proof (find_positive _ _ _ Hp Hay) as Py.
  assert (Ha : a <> []) by (intros ->; discriminate).
  pose proof (accumulate_positive _ Ha Hp) as HS.
  rewrite (calculate_spot_price_run x y _ ax (ax / accumulate a) ay (ay / accumulate a)).
  - f_equal; f_equal; field; lra.
  - exact Hax.
  - simpl; rewrite (find_weights_from a _ _ x Hd Hx), (index_found _ _ _ Hax); reflexivity.
  - exact Hay.
  - simpl; rewrite (find_weights_from a _ _ y Hd Hy), (index_found _ _ _ Hay); reflexivity.
Qed.

(** ** [set_invariant] on any pool *)

Lemma index_touch m x k : index (touch m x) k = index m k.
Proof.
  unfold touch; destruct (find m x) eqn:E; [reflexivity |].
  unfold index; simpl; destruct (String.eqb x k) eqn:Ek; [| reflexivity].
  apply String.eqb_eq in Ek; subst; rewrite E; reflexivity.
Qed.

Lemma invariant_of_index l b w b' w' :
  (forall k, index b' k = index b k) -> (forall k, index w' k = index w k) ->
  invariant_of l b' w' = invariant_of l b w.
Proof.
  intros Hb Hw; unfold invariant_of; generalize 1.
  induction l as [| x l IH]; intros s; simpl; [reflexivity |].
  rewrite Hb, Hw; apply IH.
Qed.

Lemma invariant_loop_general l : forall q,
  let q' := fold_left invariant_step l q in
  invariant q' =
    fold_left (fun acc t => acc * pow (index (balances q) t) (index (weights q) t))
      l (invariant q) /\
  (forall k, index (balances q') k = index (balances q) k) /\
  (forall k, index (weights q') k = index (weights q) k) /\
  tokens q' = tokens q /\ shares_issued q' = shares_issued q /\
  (forall t, In t l \/ has (balances q) t -> has (balances q') t) /\
  (forall t, In t l \/ has (weights q) t -> has (weights q') t).
Proof.
  induction l as [| x l IH]; intros q; simpl.
  - repeat split; auto; intros t [[] | H]; exact H.
  - destruct (IH (invariant_step q x)) as (H1 & H2 & H3 & H4 & H5 & H6 & H7).
    assert (Eb : forall k, index (balances (invariant_step q x)) k = index (balances q) k)
      by (intros k; simpl; apply index_touch).
    assert (Ew : forall k, index (weights (invariant_step q x)) k = index (weights q) k)
      by (intros k; simpl; apply index_touch).
    repeat split.
    + rewrite H1; simpl invariant at 1.
      generalize (invariant q * pow (index (balances q) x) (index (weights q) x)).
      clear - Eb Ew; induction l as [| y l IHl]; intros s; simpl; [reflexivity |].
      rewrite Eb, Ew; apply IHl.
    + intros k; rewrite H2; apply Eb.
    + intros k; rewrite H3; apply Ew.
    + rewrite H4; reflexivity.
    + rewrite H5; reflexivity.
    + intros t [[<- | Ht] | Ht]; apply H6; auto; right; simpl;
        [apply has_touch_self | apply has_touch_kept, Ht].
    + intros t [[<- | Ht] | Ht]; apply H7; auto; right; simpl;
        [apply has_touch_self | apply has_touch_kept, Ht].
Qed.

Lemma set_invariant_general p :
  exists p',
    set_invariant p = (Ok (invariant_of (tokens p) (balances p) (weights p)), p') /\
    invariant p' = invariant_of (tokens p) (balances p) (weights p) /\
    covered (tokens p) p' /\
    (forall k, index (balances p') k = index (balances p) k) /\
    (forall k, index (weights p') k = index (weights p) k) /\
    tokens p' = tokens p /\ shares_issued p' = shares_issued p.
Proof.
  destruct (invariant_loop_general (tokens p) (with_invariant 1 p))
    as (H1 & H2 & H3 & H4 & H5 & H6 & H7).
  exists (fold_left invariant_step (tokens p) (with_invariant 1 p)).
  rewrite set_invariant_run, H1.
  repeat split; auto.
Qed.

(** X8.  [set_invariant] returns on every pool.  The value is the product
    of [pow(balances[t], weights[t])] over the tokens, a missing entry
    reading as 0; it is stored in the cache.  Afterwards every token has a
    balance and a weight (a missing one is inserted as 0); no value that
    [balances[k]] or [weights[k]] reads is changed, nor are the tokens or
    [shares_issued]. *)
Theorem set_invariant_total (p : InfinityPool) :
  exists i p',
    set_invariant p = (Ok i, p') /\
    i = invariant_of (tokens p) (balances p) (weights p) /\
    invariant p' = i /\
    covered (tokens p) p' /\
    (forall k, index (balances p') k = index (balances p) k) /\
    (forall k, index (weights p') k = index (weights p) k) /\
    tokens p' = tokens p /\ shares_issued p' = shares_issued p.
Proof.
  destruct (set_invariant_general p) as (p' & H & H1 & H2 & H3 & H4 & H5 & H6).
  exists (invariant_of (tokens p) (balances p) (weights p)), p'.
  repeat split; auto; apply H2; assumption.
Qed.

Lemma pow_zero_exp x : pow x 0 = 1.
Proof.
  unfold pow; destruct (Rlt_dec 0 x) as [H | H].
  - apply Rpower_O; exact H.
  - destruct (Req_dec_T 0 0) as [_ | N]; [reflexivity | contradiction N; reflexivity].
Qed.

(** X9.  On a pool whose weights are still empty, [set_invariant] returns 1
    whatever the balances, and leaves a weight of 0 for every token: if the
    pool has a token, [weights] is not empty any more. *)
Theorem set_invariant_unweighted (p : InfinityPool) :
  weights p = [] ->
  exists p',
    set_invariant p = (Ok 1, p') /\
    (forall t, In t (tokens p) -> find (weights p') t = Some 0) /\
    (tokens p <> [] -> weights p' <> []).
Proof.
  intros Hw.
  destruct (set_invariant_general p) as (p' & H & _ & Hc & _ & Hi & _).
  assert (E : invariant_of (tokens p) (balances p) (weights p) = 1).
  { unfold invariant_of; rewrite Hw.
    generalize (tokens p) as l; intros l.
    assert (G : forall s, fold_left (fun acc t => acc * pow (index (balances p) t) (index [] t)) l s = s).
    { induction l as [| x l IH]; intros s; simpl; [reflexivity |].
      rewrite IH; unfold index at 2; simpl; rewrite pow_zero_exp; lra. }
    apply G. }
  rewrite E in H; exists p'; split; [exact H |].
  assert (F : forall t, In t (tokens p) -> find (weights p') t = Some 0).
  { intros t Ht; destruct (Hc t Ht) as [_ Hh].
    destruct (has_found _ _ Hh) as [v Hv].
    rewrite Hv; f_equal.
    rewrite <- (index_found _ _ _ Hv), Hi, Hw; reflexivity. }
  split; [exact F |].
  intros Hn E'; destruct (tokens p) as [| t l]; [contradiction |].
  specialize (F t (or_introl eq_refl)); rewrite E' in F; discriminate.
Qed.

Lemma set_invariant_fresh q : fresh (snd (set_invariant q)).
Proof.
  destruct (set_invariant_general q) as (p' & H & H1 & _ & H3 & H4 & H5 & _).
  rewrite H; simpl; unfold fresh.
  rewrite H1, H5; symmetry; apply invariant_of_index; assumption.
Qed.

Lemma fresh_after_ret {A} (x : A) q r p' :
  (set_invariant ;; ret x) q = (Ok r, p') -> fresh p'.
Proof.
  intros H; apply bind_ok in H as (i & q' & H1 & H).
  unfold ret in H; injection H as _ <-.
  pose proof (set_invariant_fresh q) as F; rewrite H1 in F; exact F.
Qed.

Lemma shares_of_first_state a q r q' : shares_of_first a q = (r, q') -> q' = q.
Proof.
  unfold shares_of_first, tokens_0, balances_at, at_, bind, get, ret, throw.
  destruct (tokens q); [intros H; injection H as _ <-; reflexivity |].
  destruct (find a t); [| intros H; injection H as _ <-; reflexivity].
  destruct (find (balances q) t); intros H; injection H as _ <-; reflexivity.
Qed.

Lemma fresh_after_shares a q r p' :
  (set_invariant ;; shares_of_first a) q = (Ok r, p') -> fresh p'.
Proof.
  intros H; apply bind_ok in H as (i & q' & H1 & H).
  apply shares_of_first_state in H; subst p'.
  pose proof (set_invariant_fresh q) as F; rewrite H1 in F; exact F.
Qed.

(** Walks a run that returned down to its last [set_invariant]. *)
Ltac peel H :=
  repeat match type of H with
    | bind set_invariant _ _ = _ => fail 1
    | bind weights_empty _ ?p = _ =>
        rewrite (bind_run _ _ _ _ _ (weights_empty_run p)) in H
    | (if ?b then _ else _) _ = _ => destruct b eqn:?; try discriminate H
    | (match ?x with _ => _ end) _ = _ => destruct x eqn:?; try discriminate H
    | bind _ _ _ = _ => apply bind_ok in H as (? & ? & _ & H)
    end.

Lemma positive_loop_state (a : dmap) p r q :
  for_each a (fun entry =>
    if Rleb (snd entry) 0 then throw InvalidArgument else ret tt) p = (r, q) ->
  q = p.
Proof.
  revert r; induction a as [| e a IH]; intros r; simpl.
  - unfold ret; intros H; injection H as _ <-; reflexivity.
  - unfold bind at 1; destruct (Rleb (snd e) 0).
    + unfold throw; intros H; injection H as _ <-; reflexivity.
    + unfold ret at 1; apply IH.
Qed.

(** X10.  Whenever [deposit_one], [deposit_any], [withdraw_all],
    [withdraw_one], [withdraw_any], [swap] or [equalize] returns, and
    whenever [deposit_all] returns on a pool with weights, the cached
    invariant is the invariant of the balances and weights the pool is left
    with. *)
Theorem cached_invariant_fresh :
  (forall a p r p', weights p <> [] -> deposit_all a p = (Ok r, p') -> fresh p') /\
  (forall a p r p', deposit_one a p = (Ok r, p') -> fresh p') /\
  (forall a p r p', deposit_any a p = (Ok r, p') -> fresh p') /\
  (forall redeem p r p', withdraw_all redeem p = (Ok r, p') -> fresh p') /\
  (forall t redeem p r p', withdraw_one t redeem p = (Ok r, p') -> fresh p') /\
  (forall redeem ratios p r p', withdraw_any redeem ratios p = (Ok r, p') -> fresh p') /\
  (forall t_in t_out a p r p', swap t_in t_out a p = (Ok r, p') -> fresh p') /\
  (forall i ro p r p', equalize i ro p = (Ok r, p') -> fresh p').
Proof.
  repeat split.
  - intros a p r p' Hw H; unfold deposit_all in H.
    apply bind_ok in H as (u & q & Hq & H).
    apply positive_loop_state in Hq; subst q.
    rewrite (bind_run _ _ _ _ _ (weights_empty_run p)) in H.
    destruct (weights p); [contradiction |].
    peel H; eapply fresh_after_shares; exact H.
  - intros a p r p' H; unfold deposit_one in H.
    peel H; eapply fresh_after_ret; exact H.
  - intros a p r p' H; unfold deposit_any in H.
    peel H; eapply fresh_after_shares; exact H.
  - intros redeem p r p' H; unfold withdraw_all in H.
    peel H; eapply fresh_after_ret; exact H.
  - intros t redeem p r p' H; unfold withdraw_one in H.
    peel H; eapply fresh_after_ret; exact H.
  - intros redeem ratios p r p' H; unfold withdraw_any in H.
    peel H; eapply fresh_after_ret; exact H.
  - intros t_in t_out a p r p' H; unfold swap in H.
    peel H; eapply fresh_after_ret; exact H.
  - intros i ro p r p' H; unfold equalize in H.
    peel H; eapply fresh_after_ret; exact H.
Qed.

(** ** More on [swap] *)

Lemma weighted_guard {A} (k : bool -> M A) p :
  weights p <> [] -> bind weights_empty k p = k false p.
Proof.
  intros H; rewrite (bind_run _ _ _ _ _ (weights_empty_run p)).
  destruct (weights p); [contradiction | reflexivity].
Qed.


(** X12.  A valid swap of a token for itself gives back what was put in
    and leaves every balance, every weight and [shares_issued] as they
    were read before. *)
Theorem swap_same_token (t : token) (a b w : R) (p : InfinityPool) :
  find (balances p) t = Some b -> find (weights p) t = Some w -> w <> 0 ->
  0 < a <= b ->
  exists p',
    swap t t a p = (Ok a, p') /\
    find (balances p') t = Some b /\
    (forall k, index (balances p') k = index (balances p) k) /\
    (forall k, index (weights p') k = index (weights p) k) /\
    shares_issued p' = shares_issued p.
Proof.
  intros Hb Hw Nw [Ha Hle].
  assert (Hne : weights p <> []) by (intros E; rewrite E in Hw; discriminate).
  assert (Eo : b * (1 - pow ((b - a) / b) (w / w)) = a).
  { replace (w / w) with 1 by (field; exact Nw).
    destruct (Req_dec_T a b) as [-> | Hab].
    - replace ((b - b) / b) with 0 by (field; lra).
      rewrite pow_zero_base by lra; lra.
    - assert (0 < (b - a) / b) by (apply Rdiv_lt_0_compat; lra).
      rewrite pow_one_exp by assumption; field; lra. }
  unfold swap.
  rewrite weighted_guard by exact Hne.
  rewrite Rleb_false by exact Ha.
  rewrite (bind_run _ _ _ _ _ (balances_index_found _ _ _ Hb)).
  rewrite Rltb_false by exact Hle.
  rewrite (bind_run _ _ _ _ _ (balances_index_found _ _ _ Hb)).
  rewrite (bind_run _ _ _ _ _ (balances_index_found _ _ _ Hb)).
  rewrite (bind_run _ _ _ _ _ (balances_index_found _ _ _ Hb)).
  rewrite (bind_run _ _ _ _ _ (weights_index_found _ _ _ Hw)).
  rewrite (bind_run _ _ _ _ _ (weights_index_found _ _ _ Hw)).
  rewrite Eo.
  rewrite (bind_run _ _ _ _ _ (balances_sub_run _ _ _)).
  rewrite (bind_run _ _ _ _ _ (balances_add_run _ _ _)).
  match goal with |- context [bind set_invariant _ ?s] => set (q := s) end.
  assert (Bq : balances q = replace (replace (balances p) t (b - a)) t (b - a + a)).
  { unfold q; simpl.
    rewrite (debit_found _ _ _ _ Hb).
    apply credit_found, (find_replace_same _ _ _ _ Hb). }
  assert (Fq : find (balances q) t = Some b).
  { rewrite Bq; replace (b - a + a) with b by lra.
    eapply find_replace_same, find_replace_same, Hb. }
  assert (Iq : forall k, index (balances q) k = index (balances p) k).
  { intros k; destruct (String.eqb t k) eqn:E.
    - apply String.eqb_eq in E; subst k.
      rewrite (index_found _ _ _ Hb), (index_found _ _ _ Fq); reflexivity.
    - apply String.eqb_neq in E.
      rewrite Bq, !index_replace_other by exact E; reflexivity. }
  destruct (set_invariant_general q) as (p' & H & _ & _ & H3 & H4 & _ & H6).
  exists p'; unfold bind; rewrite H; split; [reflexivity |].
  split.
  { pose proof (set_invariant_find q t b Fq) as F; rewrite H in F; exact F. }
  split; [intros k; rewrite H3; apply Iq |].
  split; [intros k; rewrite H4; reflexivity | exact H6].
Qed.



(** ** More on the deposits *)

(** X14.  [deposit_one] with a single positive amount for a token that has
    no balance throws [std::out_of_range], not [std::invalid_argument];
    the pool is untouched. *)
Theorem deposit_one_unknown_token (a : dmap) (t : token) (v : R) (p : InfinityPool) :
  weights p <> [] -> is_map a -> only_nonzero a t v -> 0 < v ->
  ~ has (balances p) t ->
  deposit_one a p = (Err OutOfRange, p).
Proof.
  intros Hw Hm Ho Hv Hn.
  destruct (only_count_one _ _ _ Ho) as [Hc Hf].
  assert (Ha : find a t = Some v).
  { destruct Ho as (l1 & l2 & E & _); subst a; apply find_middle, Hm. }
  unfold deposit_one.
  rewrite weighted_guard by exact Hw.
  rewrite Hc; cbn [Nat.eqb negb]; cbv iota.
  rewrite Hf; cbv beta iota.
  assert (Hat : at_ a t p = (Ok v, p)) by (unfold at_; rewrite Ha; reflexivity).
  rewrite (bind_run _ _ _ _ _ Hat).
  rewrite Rltb_false by lra.
  apply bind_fail.
  unfold balances_at, bind, get, at_.
  unfold has in Hn; destruct (find (balances p) t); [| reflexivity].
  exfalso; apply Hn; discriminate.
Qed.

(** X15.  On a pool with weights, [deposit_all] and [deposit_any] do the
    same on every map whose amounts are all positive. *)
Theorem deposit_all_is_deposit_any (a : dmap) (p : InfinityPool) :
  weights p <> [] -> all_positive a ->
  deposit_all a p = deposit_any a p.
Proof.
  intros Hw Hp; unfold deposit_all, deposit_any.
  rewrite (bind_run _ _ _ _ _ (positive_amounts_pass a p Hp)).
  rewrite !weighted_guard by exact Hw; reflexivity.
Qed.

Lemma find_credit_self m k v : find (credit m k v) k = Some (index m k + v).
Proof. unfold credit; eapply find_replace_same, find_touch_self. Qed.

Lemma find_credit_other m k v k' : k <> k' -> find (credit m k v) k' = find m k'.
Proof.
  intros Hne; unfold credit; rewrite find_replace_other by exact Hne.
  unfold touch; destruct (find m k); [reflexivity |].
  simpl; apply String.eqb_neq in Hne; rewrite Hne; reflexivity.
Qed.

(** What adding a map of amounts, entry by entry, leaves under each key. *)
Lemma find_credit_all (l : dmap) : forall m k,
  is_map l ->
  find (fold_left (fun b e => credit b (fst e) (snd e)) l m) k =
  match find l k with
  | Some x => Some (index m k + x)
  | None => find m k
  end.
Proof.
  unfold is_map; induction l as [| [k0 x0] l IH]; intros m k Hd; simpl; [reflexivity |].
  inversion Hd as [| ? ? Hn Hd']; subst.
  rewrite IH by exact Hd'.
  destruct (String.eqb k0 k) eqn:E.
  - apply String.eqb_eq in E; subst k0.
    rewrite (find_absent_keys l k Hn); apply find_credit_self.
  - apply String.eqb_neq in E.
    unfold index; rewrite find_credit_other by exact E; reflexivity.
Qed.




(** ** Loops that rewrite one balance per token *)

Section TokenLoop.

Variable body : dmap -> token -> M dmap.
Variable val new : token -> R.
Variable Pre : token -> Prop.
Variable q0 : InfinityPool.

Hypothesis body_run : forall acc x q,
  same_but_balances q0 q ->
  find (balances q) x = find (balances q0) x ->
  has (balances q0) x -> Pre x ->
  body acc x q =
  (Ok (assign acc x (val x)), with_balances (replace (balances q) x (new x)) q).

Lemma token_loop l :
  NoDup l -> (forall x, In x l -> has (balances q0) x /\ Pre x) ->
  forall acc q,
    same_but_balances q0 q ->
    (forall x, In x l -> find (balances q) x = find (balances q0) x) ->
    exists acc' q',
      for_accum l acc body q = (Ok acc', q') /\
      same_but_balances q0 q' /\
      (forall x, In x l ->
         find acc' x = Some (val x) /\ find (balances q') x = Some (new x)) /\
      (forall k, ~ In k l ->
         find acc' k = find acc k /\ find (balances q') k = find (balances q) k).
Proof.
  intros Hd; induction Hd as [| x l Hx Hd IH]; intros Hp acc q Hs Hf.
  - exists acc, q; split; [reflexivity |]; split; [exact Hs |].
    split; [intros x [] | intros k _; split; reflexivity].
  - destruct (Hp x (or_introl eq_refl)) as [Hh HP].
    cbn [for_accum].
    rewrite (bind_run _ _ _ _ _
               (body_run acc x q Hs (Hf x (or_introl eq_refl)) Hh HP)).
    set (q1 := with_balances _ q); set (acc1 := assign acc x (val x)).
    assert (Hs1 : same_but_balances q0 q1) by exact Hs.
    assert (Hf1 : forall y, In y l -> find (balances q1) y = find (balances q0) y).
    { intros y Hy; unfold q1; simpl.
      rewrite find_replace_other by (intros ->; contradiction).
      apply Hf; right; exact Hy. }
    destruct (IH (fun y Hy => Hp y (or_intror Hy)) acc1 q1 Hs1 Hf1)
      as (acc' & q' & Hr & Hs' & Hin & Hout).
    exists acc', q'; split; [exact Hr |]; split; [exact Hs' |]; split.
    + intros y [<- | Hy]; [| apply Hin, Hy].
      destruct (Hout x Hx) as [E1 E2]; rewrite E1, E2; split.
      * apply find_assign_self.
      * unfold q1; simpl.
        destruct (has_found _ _ Hh) as [b Hb].
        rewrite <- (Hf x (or_introl eq_refl)) in Hb.
        apply (find_replace_same _ _ _ _ Hb).
    + intros k Hk.
      assert (x <> k) by (intros ->; apply Hk; left; reflexivity).
      destruct (Hout k (fun H' => Hk (or_intror H'))) as [E1 E2].
      rewrite E1, E2; split.
      * apply find_assign_other; assumption.
      * unfold q1; simpl; apply find_replace_other; assumption.
Qed.

End TokenLoop.

Lemma same_but_balances_refl p : same_but_balances p p.
Proof. repeat split. Qed.

(** ** Withdrawals *)

Lemma withdraw_all_body rr p acc x q :
  same_but_balances p q ->
  find (balances q) x = find (balances p) x ->
  has (balances p) x -> has (weights p) x ->
  (b <- balances_index x ;;
   s <- (q' <- get ;; ret (shares_issued q')) ;;
   w <- weights_index x ;;
   balances_sub x (index (assign acc x (b * (1 - pow (s - rr) (1 / w)))) x) ;;
   ret (assign acc x (b * (1 - pow (s - rr) (1 / w))))) q =
  (Ok (assign acc x (withdrawn p rr x)),
   with_balances (replace (balances q) x (index (balances p) x - withdrawn p rr x)) q).
Proof.
  intros (Ht & Hw & Hs & Hi) Hf Hb Hhw.
  destruct (has_found _ _ Hb) as [b Eb]; destruct (has_found _ _ Hhw) as [w Ew].
  assert (Eq : find (balances q) x = Some b) by (rewrite Hf; exact Eb).
  assert (Ewq : find (weights q) x = Some w) by (rewrite Hw; exact Ew).
  rewrite (bind_run _ _ _ _ _ (balances_index_found _ _ _ Eq)).
  unfold bind at 1. unfold bind at 1, get, ret at 1.
  rewrite (bind_run _ _ _ _ _ (weights_index_found _ _ _ Ewq)).
  rewrite (bind_run _ _ _ _ _ (balances_sub_run _ _ _)).
  unfold ret, withdrawn.
  rewrite (index_found _ _ _ Eb), (index_found _ _ _ Ew), Hs.
  rewrite (index_found _ _ _ (find_assign_self _ _ _)).
  rewrite (debit_found _ _ _ _ Eq); reflexivity.
Qed.

Lemma withdraw_all_amounts_run rr p :
  NoDup (tokens p) -> covered (tokens p) p ->
  exists out q,
    withdraw_all_amounts rr p = (Ok out, q) /\
    same_but_balances p q /\
    (forall t, In t (tokens p) ->
       find out t = Some (withdrawn p rr t) /\
       find (balances q) t = Some (index (balances p) t - withdrawn p rr t)) /\
    (forall k, ~ In k (tokens p) -> find (balances q) k = find (balances p) k).
Proof.
  intros Hd Hc; unfold withdraw_all_amounts, bind at 1, get.
  destruct (token_loop _ (withdrawn p rr)
              (fun t => index (balances p) t - withdrawn p rr t)
              (fun t => has (weights p) t) p
              (fun acc x q Hs Hf Hb Hw => withdraw_all_body rr p acc x q Hs Hf Hb Hw)
              (tokens p) Hd Hc [] p (same_but_balances_refl p) (fun _ _ => eq_refl))
    as (out & q & Hr & Hs & Hin & Hout).
  exists out, q; repeat split; try apply Hs; auto.
  - apply Hin; assumption.
  - apply Hin; assumption.
  - intros k Hk; apply Hout, Hk.
Qed.

Lemma burn_set_invariant_run {A} (rr : R) (out : A) q :
  exists p',
    (burn rr ;; set_invariant ;; ret out) q = (Ok out, p') /\
    shares_issued p' = shares_issued q - rr /\
    tokens p' = tokens q /\
    (forall k v, find (balances q) k = Some v -> find (balances p') k = Some v) /\
    (forall k, index (balances p') k = index (balances q) k) /\
    (forall k, index (weights p') k = index (weights q) k).
Proof.
  unfold burn, bind at 1, modify.
  set (q1 := with_shares_issued (shares_issued q - rr) q).
  destruct (set_invariant_general q1) as (p' & H & _ & _ & H3 & H4 & H5 & H6).
  exists p'; unfold bind; rewrite H; split; [reflexivity |].
  split; [exact H6 |]. split; [exact H5 |].
  split; [| split; assumption].
  intros k v Hv; pose proof (set_invariant_find q1 k v Hv) as F.
  rewrite H in F; exact F.
Qed.

Lemma withdraw_all_ok_run redeem p :
  NoDup (tokens p) -> covered (tokens p) p ->
  0 < redeem -> redeem / SUPPLY <= shares_issued p ->
  exists out p',
    withdraw_all redeem p = (Ok out, p') /\
    shares_issued p' = shares_issued p - redeem / SUPPLY /\
    forall t, In t (tokens p) ->
      find out t = Some (withdrawn p (redeem / SUPPLY) t) /\
      find (balances p') t =
        Some (index (balances p) t - withdrawn p (redeem / SUPPLY) t).
Proof.
  intros Hd Hc Hr Hle; unfold withdraw_all.
  rewrite (bind_run _ _ _ _ _ (check_redeem_ok p redeem Hr Hle)).
  destruct (withdraw_all_amounts_run (redeem / SUPPLY) p Hd Hc)
    as (out & q & Hq & (_ & _ & Hs & _) & Hin & _).
  rewrite (bind_run _ _ _ _ _ Hq).
  destruct (burn_set_invariant_run (redeem / SUPPLY) out q)
    as (p' & H & H1 & _ & H3 & _).
  exists out, p'; split; [exact H |]; split; [rewrite H1, Hs; reflexivity |].
  intros t Ht; destruct (Hin t Ht) as [E1 E2]; split; [exact E1 | apply H3, E2].
Qed.

(** X17.  On a pool whose tokens are distinct and all have a balance and a
    weight, [withdraw_all] with a positive [redeem] whose ratio
    [redeem / SUPPLY] does not exceed [shares_issued] returns; it lowers
    [shares_issued] by the ratio; and for every token the amount it returns
    is [balance * (1 - pow(shares_issued - ratio, 1 / weight))], computed
    from the pool as it was, and is exactly what the balance of the token
    is lowered by. *)
Theorem withdraw_all_effect (redeem : R) (p : InfinityPool) :
  NoDup (tokens p) -> covered (tokens p) p ->
  0 < redeem -> redeem / SUPPLY <= shares_issued p ->
  exists out p',
    withdraw_all redeem p = (Ok out, p') /\
    shares_issued p' = shares_issued p - redeem / SUPPLY /\
    forall t, In t (tokens p) ->
      find out t =
        Some (index (balances p) t *
              (1 - pow (shares_issued p - redeem / SUPPLY)
                     (1 / index (weights p) t))) /\
      find (balances p') t =
        Some (index (balances p) t - index out t).
Proof.
  intros Hd Hc Hr Hle.
  destruct (withdraw_all_ok_run redeem p Hd Hc Hr Hle) as (out & p' & H & Hs & Hin).
  exists out, p'; split; [exact H |]; split; [exact Hs |].
  intros t Ht; destruct (Hin t Ht) as [E1 E2]; split; [exact E1 |].
  rewrite (index_found _ _ _ E1); exact E2.
Qed.

Lemma pow_above_one x y : 1 < x -> 0 < y -> 1 < pow x y.
Proof.
  intros Hx Hy; rewrite pow_pos_base by lra.
  rewrite <- (Rpower_O x) by lra.
  apply Rpower_lt; assumption.
Qed.

(** The sign of what a withdrawal takes out of a positive balance. *)
Lemma withdrawn_sign b w x :
  0 < b -> 0 < w -> 0 <= x ->
  (x = 0 -> b * (1 - pow x (1 / w)) = b) /\
  (x < 1 -> 0 < b * (1 - pow x (1 / w)) <= b) /\
  (x = 1 -> b * (1 - pow x (1 / w)) = 0) /\
  (1 < x -> b * (1 - pow x (1 / w)) < 0).
Proof.
  intros Hb Hw Hx.
  assert (He : 0 < 1 / w) by (apply Rdiv_lt_0_compat; lra).
  repeat split.
  - intros ->; rewrite pow_zero_base by exact He; lra.
  - destruct (Req_dec_T x 0) as [-> | Hn].
    + rewrite pow_zero_base by exact He; lra.
    + rewrite pow_pos_base by lra.
      destruct (Rpower_below_one x (1 / w)); [lra | exact He | nra].
  - destruct (Req_dec_T x 0) as [-> | Hn].
    + rewrite pow_zero_base by exact He; lra.
    + rewrite pow_pos_base by lra.
      destruct (Rpower_below_one x (1 / w)); [lra | exact He | nra].
  - intros ->; rewrite pow_pos_base by lra; rewrite Rpower_one; lra.
  - intros H1; pose proof (pow_above_one x (1 / w) H1 He); nra.
Qed.

(** X18.  On a pool whose tokens are distinct and all have a positive
    balance and a positive weight, what [withdraw_all] pays depends on
    [shares_issued - redeem / SUPPLY]: when it is 0 every balance is paid
    out in full and left at 0; when it is below 1 every amount is positive
    and at most the balance; when it is above 1 (as right after
    [initialize], where [shares_issued] is [FIRST]) every amount is
    negative, so the call raises every balance. *)
Theorem withdraw_all_sign (redeem : R) (p : InfinityPool) :
  NoDup (tokens p) -> positive_pool p ->
  0 < redeem -> redeem / SUPPLY <= shares_issued p ->
  exists out p',
    withdraw_all redeem p = (Ok out, p') /\
    forall t, In t (tokens p) ->
      exists b o, find (balances p) t = Some b /\ find out t = Some o /\
        find (balances p') t = Some (b - o) /\
        (shares_issued p - redeem / SUPPLY = 0 -> o = b /\ b - o = 0) /\
        (shares_issued p - redeem / SUPPLY < 1 -> 0 < o <= b) /\
        (1 < shares_issued p - redeem / SUPPLY -> o < 0 /\ b < b - o).
Proof.
  intros Hd Hp Hr Hle.
  destruct (withdraw_all_ok_run redeem p Hd (positive_pool_covered _ Hp) Hr Hle)
    as (out & p' & H & _ & Hin).
  exists out, p'; split; [exact H |].
  intros t Ht; destruct (Hin t Ht) as [E1 E2].
  destruct (Hp t Ht) as [(b & Hb & Pb) (w & Hw & Pw)].
  unfold withdrawn in E1, E2.
  rewrite (index_found _ _ _ Hb), (index_found _ _ _ Hw) in E1, E2.
  set (x := shares_issued p - redeem / SUPPLY) in *.
  assert (Hx : 0 <= x) by (unfold x; lra).
  destruct (withdrawn_sign b w x Pb Pw Hx) as (S0 & S1 & _ & S3).
  exists b, (b * (1 - pow x (1 / w))).
  split; [exact Hb |]. split; [exact E1 |]. split; [exact E2 |].
  split; [| split].
  - intros H0; specialize (S0 H0); lra.
  - exact S1.
  - intros H1; specialize (S3 H1); lra.
Qed.

Lemma withdraw_one_amount_run t rr p b w :
  find (balances p) t = Some b -> find (weights p) t = Some w ->
  withdraw_one_amount t rr p =
  (Ok (b * (1 - pow (shares_issued p - rr) (1 / w))),
   with_balances
     (replace (balances p) t
        (b - b * (1 - pow (shares_issued p - rr) (1 / w)))) p).
Proof.
  intros Hb Hw; unfold withdraw_one_amount.
  rewrite (bind_run _ _ _ _ _ (balances_index_found _ _ _ Hb)).
  unfold bind at 1. unfold bind at 1, get, ret at 1.
  rewrite (bind_run _ _ _ _ _ (weights_index_found _ _ _ Hw)).
  rewrite (bind_run _ _ _ _ _ (balances_sub_run _ _ _)).
  rewrite (debit_found _ _ _ _ Hb); reflexivity.
Qed.

(** X19.  [withdraw_one] of a token with balance [b > 0] and weight
    [w > 0], with a positive [redeem] whose ratio [redeem / SUPPLY] does not
    exceed [shares_issued], returns
    [b * (1 - pow(shares_issued - ratio, 1 / w))], lowers the balance of the
    token by that amount, leaves the other balances alone and lowers
    [shares_issued] by the ratio.  The amount is all of [b] when the ratio
    equals [shares_issued], positive and at most [b] when
    [shares_issued - ratio < 1], zero when it is 1, and negative when it is
    above 1: the balance then grows. *)
Theorem withdraw_one_effect (t : token) (redeem b w : R) (p : InfinityPool) :
  find (balances p) t = Some b -> find (weights p) t = Some w ->
  0 < b -> 0 < w ->
  0 < redeem -> redeem / SUPPLY <= shares_issued p ->
  exists out p',
    withdraw_one t redeem p = (Ok out, p') /\
    out = b * (1 - pow (shares_issued p - redeem / SUPPLY) (1 / w)) /\
    find (balances p') t = Some (b - out) /\
    (forall k, k <> t -> index (balances p') k = index (balances p) k) /\
    shares_issued p' = shares_issued p - redeem / SUPPLY /\
    (shares_issued p - redeem / SUPPLY = 0 -> out = b) /\
    (shares_issued p - redeem / SUPPLY < 1 -> 0 < out <= b) /\
    (shares_issued p - redeem / SUPPLY = 1 -> out = 0) /\
    (1 < shares_issued p - redeem / SUPPLY -> out < 0).
Proof.
  intros Hb Hw Pb Pw Hr Hle; unfold withdraw_one.
  rewrite weighted_guard by (intros E; rewrite E in Hw; discriminate).
  rewrite (bind_run _ _ _ _ _ (check_redeem_ok p redeem Hr Hle)).
  rewrite (bind_run _ _ _ _ _ (withdraw_one_amount_run t _ p b w Hb Hw)).
  set (x := shares_issued p - redeem / SUPPLY).
  set (out := b * (1 - pow x (1 / w))).
  set (q := with_balances _ p).
  destruct (burn_set_invariant_run (redeem / SUPPLY) out q)
    as (p' & H & H1 & _ & H3 & H4 & _).
  assert (Hx : 0 <= x) by (unfold x; lra).
  destruct (withdrawn_sign b w x Pb Pw Hx) as (S0 & S1 & S2 & S3).
  exists out, p'; split; [exact H |]. split; [reflexivity |].
  split; [apply H3; unfold q; simpl; apply (find_replace_same _ _ _ _ Hb) |].
  split; [intros k Hk; rewrite H4; unfold q; simpl;
          apply index_replace_other; auto |].
  split; [exact H1 |].
  repeat split; auto; apply S1; assumption.
Qed.

Lemma at_found (m : dmap) k v p : find m k = Some v -> at_ m k p = (Ok v, p).
Proof. intros H; unfold at_; rewrite H; reflexivity. Qed.

Lemma at_missing (m : dmap) k p : find m k = None -> at_ m k p = (Err OutOfRange, p).
Proof. intros H; unfold at_; rewrite H; reflexivity. Qed.

Lemma for_accum_app {X A} (l1 l2 : list X) (body : A -> X -> M A) acc q :
  for_accum (l1 ++ l2) acc body q =
  (acc' <- for_accum l1 acc body ;; for_accum l2 acc' body) q.
Proof.
  revert acc q; induction l1 as [| x l1 IH]; intros acc q; simpl.
  - reflexivity.
  - unfold bind; unfold bind in IH.
    destruct (body acc x q) as [[a | e] q1]; [apply IH | reflexivity].
Qed.

Lemma withdraw_any_body rr ratios p acc x q :
  same_but_balances p q ->
  find (balances q) x = find (balances p) x ->
  has (balances p) x -> has ratios x ->
  (r <- at_ ratios x ;;
   balances_sub x (index (assign acc x (r * rr)) x) ;;
   ret (assign acc x (r * rr))) q =
  (Ok (assign acc x (index ratios x * rr)),
   with_balances (replace (balances q) x (index (balances p) x - index ratios x * rr)) q).
Proof.
  intros _ Hf Hb Hr.
  destruct (has_found _ _ Hb) as [b Eb]; destruct (has_found _ _ Hr) as [r Er].
  assert (Eq : find (balances q) x = Some b) by (rewrite Hf; exact Eb).
  rewrite (bind_run _ _ _ _ _ (at_found _ _ _ _ Er)).
  rewrite (bind_run _ _ _ _ _ (balances_sub_run _ _ _)).
  unfold ret.
  rewrite (index_found _ _ _ Eb), (index_found _ _ _ Er).
  rewrite (index_found _ _ _ (find_assign_self _ _ _)).
  rewrite (debit_found _ _ _ _ Eq); reflexivity.
Qed.

(** The loop of [withdraw_any] over a list of distinct tokens that all have
    a balance and an entry in [ratios]. *)
Lemma withdraw_any_loop rr ratios p l acc :
  NoDup l -> (forall t, In t l -> has (balances p) t /\ has ratios t) ->
  exists out q,
    for_accum l acc (fun amount_out token =>
      r <- at_ ratios token ;;
      let amount_out := assign amount_out token (r * rr) in
      balances_sub token (index amount_out token) ;;
      ret amount_out) p = (Ok out, q) /\
    same_but_balances p q /\
    (forall t, In t l ->
       find out t = Some (index ratios t * rr) /\
       find (balances q) t = Some (index (balances p) t - index ratios t * rr)) /\
    (forall k, ~ In k l -> find (balances q) k = find (balances p) k).
Proof.
  intros Hd Hc.
  destruct (token_loop _ (fun t => index ratios t * rr)
              (fun t => index (balances p) t - index ratios t * rr)
              (fun t => has ratios t) p
              (fun acc x q Hs Hf Hb Hr => withdraw_any_body rr ratios p acc x q Hs Hf Hb Hr)
              l Hd Hc acc p (same_but_balances_refl p) (fun _ _ => eq_refl))
    as (out & q & Hr & Hs & Hin & Hout).
  exists out, q; split; [exact Hr |]. split; [exact Hs |].
  split; [exact Hin | intros k Hk; apply Hout, Hk].
Qed.

Lemma withdraw_any_ok_run redeem ratios p :
  weights p <> [] ->
  check_deposit_ratio ratios tol p = (Ok true, p) ->
  NoDup (tokens p) ->
  (forall t, In t (tokens p) -> has (balances p) t /\ has ratios t) ->
  0 < redeem -> redeem / SUPPLY <= shares_issued p ->
  exists out p',
    withdraw_any redeem ratios p = (Ok out, p') /\
    shares_issued p' = shares_issued p - redeem / SUPPLY /\
    forall t, In t (tokens p) ->
      find out t = Some (index ratios t * (redeem / SUPPLY)) /\
      find (balances p') t =
        Some (index (balances p) t - index ratios t * (redeem / SUPPLY)).
Proof.
  intros Hw Hck Hd Hc Hr Hle; unfold withdraw_any.
  rewrite weighted_guard by exact Hw.
  rewrite (bind_run _ _ _ _ _ Hck); cbn [negb].
  rewrite (bind_run _ _ _ _ _ (check_redeem_ok p redeem Hr Hle)).
  destruct (withdraw_any_loop (redeem / SUPPLY) ratios p (tokens p) [] Hd Hc)
    as (out & q & Hq & (_ & _ & Hs & _) & Hin & _).
  assert (Hq' : withdraw_any_amounts (redeem / SUPPLY) ratios p = (Ok out, q))
    by exact Hq.
  rewrite (bind_run _ _ _ _ _ Hq').
  destruct (burn_set_invariant_run (redeem / SUPPLY) out q)
    as (p' & H & H1 & _ & H3 & _).
  exists out, p'; split; [exact H |]; split; [rewrite H1, Hs; reflexivity |].
  intros t Ht; destruct (Hin t Ht) as [E1 E2]; split; [exact E1 | apply H3, E2].
Qed.

(** X20.  On a pool with weights whose tokens are distinct and all have a
    balance, [withdraw_any] with a map [ratios] that passes the ratio check
    and has an entry for every token, and a positive [redeem] whose ratio
    does not exceed [shares_issued], returns; it lowers [shares_issued] by
    [redeem / SUPPLY]; the amount of every token is
    [ratios[token] * redeem / SUPPLY], whatever the balance of the token
    and [shares_issued] are, and the balance is lowered by it. *)
Theorem withdraw_any_effect (redeem : R) (ratios : dmap) (p : InfinityPool) :
  weights p <> [] ->
  check_deposit_ratio ratios tol p = (Ok true, p) ->
  NoDup (tokens p) ->
  (forall t, In t (tokens p) -> has (balances p) t /\ has ratios t) ->
  0 < redeem -> redeem / SUPPLY <= shares_issued p ->
  exists out p',
    withdraw_any redeem ratios p = (Ok out, p') /\
    shares_issued p' = shares_issued p - redeem / SUPPLY /\
    forall t, In t (tokens p) ->
      find out t = Some (index ratios t * (redeem / SUPPLY)) /\
      find (balances p') t = Some (index (balances p) t - index out t).
Proof.
  intros Hw Hck Hd Hc Hr Hle.
  destruct (withdraw_any_ok_run redeem ratios p Hw Hck Hd Hc Hr Hle)
    as (out & p' & H & Hs & Hin).
  exists out, p'; split; [exact H |]; split; [exact Hs |].
  intros t Ht; destruct (Hin t Ht) as [E1 E2]; split; [exact E1 |].
  rewrite (index_found _ _ _ E1); exact E2.
Qed.



(** X22.  [withdraw_any] is not atomic.  When the ratio check and the
    redeem checks pass, the tokens up to some token [t] are distinct and
    have a balance and an entry in [ratios], and [t] has no entry in
    [ratios], the call throws [std::out_of_range] at [t]; by then the
    balance of every earlier token has been lowered by
    [ratios[token] * redeem / SUPPLY], while [shares_issued] and the cached
    invariant are as before the call. *)
Theorem withdraw_any_not_atomic
  (redeem : R) (ratios : dmap) (p : InfinityPool)
  (done : list token) (t : token) (rest : list token) :
  weights p <> [] ->
  check_deposit_ratio ratios tol p = (Ok true, p) ->
  0 < redeem -> redeem / SUPPLY <= shares_issued p ->
  tokens p = done ++ t :: rest -> NoDup done ->
  (forall x, In x done -> has (balances p) x /\ has ratios x) ->
  find ratios t = None ->
  exists p',
    withdraw_any redeem ratios p = (Err OutOfRange, p') /\
    (forall x, In x done ->
       find (balances p') x =
         Some (index (balances p) x - index ratios x * (redeem / SUPPLY))) /\
    (forall k, ~ In k done -> find (balances p') k = find (balances p) k) /\
    shares_issued p' = shares_issued p /\ invariant p' = invariant p /\
    weights p' = weights p.
Proof.
  intros Hw Hck Hr Hle Ht Hd Hc Hn; unfold withdraw_any.
  rewrite weighted_guard by exact Hw.
  rewrite (bind_run _ _ _ _ _ Hck); cbn [negb].
  rewrite (bind_run _ _ _ _ _ (check_redeem_ok p redeem Hr Hle)).
  destruct (withdraw_any_loop (redeem / SUPPLY) ratios p done [] Hd Hc)
    as (out & q & Hq & (_ & Hqw & Hs & Hi) & Hin & Hout).
  exists q; split.
  - apply bind_fail.
    unfold withdraw_any_amounts, bind at 1, get; rewrite Ht.
    rewrite for_accum_app, (bind_run _ _ _ _ _ Hq).
    cbn [for_accum]; apply bind_fail, bind_fail, at_missing, Hn.
  - split; [intros x Hx; apply Hin, Hx |].
    split; [exact Hout |]. split; [exact Hs |]. split; [exact Hi | exact Hqw].
Qed.

(** [total_weight_in] of [equalize], when every key of the weights has an
    entry in [inputs]. *)
Lemma total_weight_in_run inputs (w : dmap) acc q :
  (forall e, In e w -> has inputs (fst e)) ->
  for_accum w acc (fun acc weight_entry =>
    i <- at_ inputs (fst weight_entry) ;;
    ret (acc + snd weight_entry * i)) q =
  (Ok (fold_left (fun acc entry => acc + snd entry * index inputs (fst entry)) w acc), q).
Proof.
  revert acc; induction w as [| e w IH]; intros acc H; simpl; [reflexivity |].
  destruct (has_found _ _ (H e (or_introl eq_refl))) as [i Hi].
  rewrite (bind_run _ _ _ _ _
             (bind_run _ _ _ _ _ (at_found _ _ _ _ Hi))).
  unfold ret at 1; rewrite (index_found _ _ _ Hi).
  apply IH; intros e' He'; apply H; right; exact He'.
Qed.

Lemma equalize_body twi inputs p acc x q :
  same_but_balances p q ->
  find (balances q) x = find (balances p) x ->
  has (balances p) x -> has (weights p) x /\ has inputs x ->
  (b <- balances_index x ;;
   w <- weights_index x ;;
   w' <- weights_index x ;;
   i <- at_ inputs x ;;
   balances_add x i ;;
   ret (assign acc x (b * (pow (twi / w) (1 / w') - 1)))) q =
  (Ok (assign acc x (equalized p twi x)),
   with_balances (replace (balances q) x (index (balances p) x + index inputs x)) q).
Proof.
  intros (_ & Hw & _) Hf Hb [Hhw Hhi].
  destruct (has_found _ _ Hb) as [b Eb]; destruct (has_found _ _ Hhw) as [w Ew].
  destruct (has_found _ _ Hhi) as [i Ei].
  assert (Eq : find (balances q) x = Some b) by (rewrite Hf; exact Eb).
  assert (Ewq : find (weights q) x = Some w) by (rewrite Hw; exact Ew).
  rewrite (bind_run _ _ _ _ _ (balances_index_found _ _ _ Eq)).
  rewrite (bind_run _ _ _ _ _ (weights_index_found _ _ _ Ewq)).
  rewrite (bind_run _ _ _ _ _ (weights_index_found _ _ _ Ewq)).
  rewrite (bind_run _ _ _ _ _ (at_found _ _ _ _ Ei)).
  rewrite (bind_run _ _ _ _ _ (balances_add_run _ _ _)).
  unfold ret, equalized.
  rewrite (index_found _ _ _ Eb), (index_found _ _ _ Ew), (index_found _ _ _ Ei).
  rewrite (credit_found _ _ _ _ Eq); reflexivity.
Qed.

Lemma equalize_loop twi inputs p :
  NoDup (tokens p) ->
  (forall t, In t (tokens p) ->
     has (balances p) t /\ has (weights p) t /\ has inputs t) ->
  exists out q,
    for_accum (tokens p) [] (fun amount_out token =>
      b <- balances_index token ;;
      w <- weights_index token ;;
      w' <- weights_index token ;;
      let amount_out := assign amount_out token
                          (b * (pow (twi / w) (1 / w') - 1)) in
      i <- at_ inputs token ;;
      balances_add token i ;;
      ret amount_out) p = (Ok out, q) /\
    same_but_balances p q /\
    (forall t, In t (tokens p) ->
       find out t = Some (equalized p twi t) /\
       find (balances q) t = Some (index (balances p) t + index inputs t)).
Proof.
  intros Hd Hc.
  destruct (token_loop _ (equalized p twi)
              (fun t => index (balances p) t + index inputs t)
              (fun t => has (weights p) t /\ has inputs t) p
              (fun acc x q Hs Hf Hb Hr => equalize_body twi inputs p acc x q Hs Hf Hb Hr)
              (tokens p) Hd Hc [] p (same_but_balances_refl p) (fun _ _ => eq_refl))
    as (out & q & Hr & Hs & Hin & _).
  exists out, q; split; [exact Hr |]. split; [exact Hs | exact Hin].
Qed.

Lemma equalize_checked inputs ratio_out p :
  weights p <> [] ->
  check_deposit_ratio inputs tol p = (Ok true, p) ->
  check_deposit_ratio ratio_out tol p = (Ok true, p) ->
  equalize inputs ratio_out p =
  (total_weight_in <- for_accum (weights p) 0 (fun acc weight_entry =>
     i <- at_ inputs (fst weight_entry) ;;
     ret (acc + snd weight_entry * i)) ;;
   amount_out <- for_accum (tokens p) [] (fun amount_out token =>
     b <- balances_index token ;;
     w <- weights_index token ;;
     w' <- weights_index token ;;
     let amount_out := assign amount_out token
                         (b * (pow (total_weight_in / w) (1 / w') - 1)) in
     i <- at_ inputs token ;;
     balances_add token i ;;
     ret amount_out) ;;
   set_invariant ;;
   ret amount_out) p.
Proof.
  intros Hw H1 H2; unfold equalize.
  rewrite weighted_guard by exact Hw.
  rewrite (bind_run _ _ _ _ _ H1).
  rewrite (bind_run _ _ _ _ _ H2); cbn [negb].
  reflexivity.
Qed.

(** X23.  On a pool with weights whose tokens are distinct and all have a
    balance and a weight, [equalize] with two maps that pass the ratio
    check, [inputs] having an entry for every key of the weights and every
    token, returns; the amount it reports for a token is
    [balance * (pow(total_weight_in / weight, 1 / weight) - 1)] with
    [total_weight_in] the sum of [weight * inputs[key]] over the weights;
    the balance of the token grows by [inputs[token]] and the reported
    amount is not taken out of it; [shares_issued] is unchanged. *)
Theorem equalize_effect (inputs ratio_out : dmap) (p : InfinityPool) :
  weights p <> [] ->
  check_deposit_ratio inputs tol p = (Ok true, p) ->
  check_deposit_ratio ratio_out tol p = (Ok true, p) ->
  NoDup (tokens p) ->
  (forall e, In e (weights p) -> has inputs (fst e)) ->
  (forall t, In t (tokens p) ->
     has (balances p) t /\ has (weights p) t /\ has inputs t) ->
  exists out p',
    equalize inputs ratio_out p = (Ok out, p') /\
    shares_issued p' = shares_issued p /\
    forall t, In t (tokens p) ->
      find out t =
        Some (index (balances p) t *
              (pow (weighted_inputs (weights p) inputs / index (weights p) t)
                   (1 / index (weights p) t) - 1)) /\
      find (balances p') t = Some (index (balances p) t + index inputs t).
Proof.
  intros Hw H1 H2 Hd Hwi Hc.
  rewrite (equalize_checked _ _ _ Hw H1 H2).
  rewrite (bind_run _ _ _ _ _ (total_weight_in_run inputs (weights p) 0 p Hwi)).
  fold (weighted_inputs (weights p) inputs).
  destruct (equalize_loop (weighted_inputs (weights p) inputs) inputs p Hd Hc)
    as (out & q & Hq & (_ & _ & Hs & _) & Hin).
  rewrite (bind_run _ _ _ _ _ Hq).
  destruct (set_invariant_general q) as (p' & H & _ & _ & _ & _ & _ & H6).
  rewrite (bind_run _ _ _ _ _ H).
  exists out, p'; split; [reflexivity |]. split; [rewrite H6; exact Hs |].
  intros t Ht; destruct (Hin t Ht) as [E1 E2]; split; [exact E1 |].
  pose proof (set_invariant_find q _ _ E2) as F; rewrite H in F; exact F.
Qed.

(** X24.  [equalize] reads [ratio_out] in the ratio check only: with
    weights assigned and [inputs] passing the check, any two maps
    [ratio_out] that pass the check give the same outcome and the same
    pool. *)
Theorem equalize_ignores_ratio_out (inputs r1 r2 : dmap) (p : InfinityPool) :
  weights p <> [] ->
  check_deposit_ratio inputs tol p = (Ok true, p) ->
  check_deposit_ratio r1 tol p = (Ok true, p) ->
  check_deposit_ratio r2 tol p = (Ok true, p) ->
  equalize inputs r1 p = equalize inputs r2 p.
Proof.
  intros Hw Hi H1 H2.
  rewrite (equalize_checked _ _ _ Hw Hi H1), (equalize_checked _ _ _ Hw Hi H2).
  reflexivity.
Qed.

(** X25.  When both ratio checks pass and some key of the weights has no
    entry in [inputs], [equalize] throws [std::out_of_range] while it sums
    [total_weight_in], before any write: the pool is as it was. *)
Theorem equalize_missing_input
  (inputs ratio_out : dmap) (p : InfinityPool) (e : token * R) :
  check_deposit_ratio inputs tol p = (Ok true, p) ->
  check_deposit_ratio ratio_out tol p = (Ok true, p) ->
  In e (weights p) -> find inputs (fst e) = None ->
  equalize inputs ratio_out p = (Err OutOfRange, p).
Proof.
  intros H1 H2 Hin Hn.
  assert (Hw : weights p <> []) by (intros E; rewrite E in Hin; destruct Hin).
  rewrite (equalize_checked _ _ _ Hw H1 H2).
  apply bind_fail.
  assert (G : forall w acc, In e w ->
            for_accum w acc (fun acc weight_entry =>
              i <- at_ inputs (fst weight_entry) ;;
              ret (acc + snd weight_entry * i)) p = (Err OutOfRange, p)).
  { induction w as [| e0 w IH]; intros acc Hi; [destruct Hi |].
    cbn [for_accum].
    destruct (find inputs (fst e0)) as [i |] eqn:Ei.
    - rewrite (bind_run _ _ _ _ _ (bind_run _ _ _ _ _ (at_found _ _ _ _ Ei))).
      unfold ret at 1.
      destruct Hi as [-> | Hi]; [rewrite Hn in Ei; discriminate | apply IH, Hi].
    - apply bind_fail, bind_fail, at_missing, Ei. }
  apply G, Hin.
Qed.

(** ** The first deposit, short maps, and recomputing the invariant *)

(** X26.  The first [deposit_all] on a pool without weights and without
    balances, with a map of positive amounts that has an entry [v] for
    [tokens[0]], returns [v * SUPPLY / v], that is [SUPPLY], whatever the
    amounts are; the balances become the entries of the map; the weights
    stay empty, and [shares_issued] and the cached invariant are not
    written. *)
Theorem deposit_all_first
  (a : dmap) (p : InfinityPool) (t0 : token) (rest : list token) (v : R) :
  weights p = [] -> balances p = [] ->
  is_map a -> all_positive a ->
  tokens p = t0 :: rest -> find a t0 = Some v ->
  exists p',
    deposit_all a p = (Ok (v * SUPPLY / v), p') /\
    v * SUPPLY / v = SUPPLY /\
    (forall k, find (balances p') k = find a k) /\
    weights p' = [] /\
    shares_issued p' = shares_issued p /\ invariant p' = invariant p.
Proof.
  intros Hw Hb Hm Hp Ht Hv; unfold deposit_all.
  rewrite (bind_run _ _ _ _ _ (positive_amounts_pass a p Hp)).
  rewrite (bind_run _ _ _ _ _ (weights_empty_run p)), Hw.
  rewrite (bind_run _ _ _ _ _ (require_deposit_ratio_empty a p Hb)).
  rewrite (bind_run _ _ _ _ _ (add_all_run _ _)).
  set (q := with_balances _ p).
  assert (Fq : forall k, find (balances q) k = find a k).
  { intros k; unfold q; simpl; rewrite find_credit_all by exact Hm.
    rewrite Hb; destruct (find a k) as [x |]; [| reflexivity].
    unfold index; simpl; rewrite Rplus_0_l; reflexivity. }
  pose proof (find_positive _ _ _ Hp Hv) as Pv.
  exists q; split.
  - apply (shares_of_first_run a q t0 rest v v); [exact Ht | exact Hv |].
    rewrite Fq; exact Hv.
  - split; [field; lra |]. split; [exact Fq |].
    split; [exact Hw |]. split; reflexivity.
Qed.

Lemma std_equal_short (l1 : list R) : forall l2 pred,
  (List.length l2 < List.length l1)%nat ->
  std_equal l1 l2 pred = Ok false \/ std_equal l1 l2 pred = Err Undefined.
Proof.
  induction l1 as [| a l1 IH]; intros l2 pred H; simpl in *; [lia |].
  destruct l2 as [| b l2]; [right; reflexivity |].
  destruct (pred a b); [apply IH; simpl in H; lia | left; reflexivity].
Qed.

(** X27.  A map with fewer entries than [balances] never passes
    [check_deposit_ratio]: the comparison either finds a position that
    differs and returns false, or runs past the end of the shorter ratio
    vector, which is undefined.  The pool is not written. *)
Theorem check_deposit_ratio_short (a : dmap) (t : R) (p : InfinityPool) :
  (List.length a < List.length (balances p))%nat ->
  check_deposit_ratio a t p = (Ok false, p) \/
  check_deposit_ratio a t p = (Err Undefined, p).
Proof.
  intros H; unfold check_deposit_ratio, bind, get, lift.
  destruct (std_equal_short (ratio (balances p)) (ratio a)
              (fun x y => Rltb (Rabs (x - y)) t)) as [E | E].
  - unfold ratio; rewrite !length_map; exact H.
  - left; rewrite E; reflexivity.
  - right; rewrite E; reflexivity.
Qed.

(** X28.  [set_invariant] is idempotent: a second call right after the
    first returns the same value and leaves the pool as the first call
    left it. *)
Theorem set_invariant_idempotent (p : InfinityPool) :
  exists i p',
    set_invariant p = (Ok i, p') /\ set_invariant p' = (Ok i, p').
Proof.
  destruct (set_invariant_general p) as (p' & H & Hi & Hc & Hb & Hw & Ht & _).
  exists (invariant_of (tokens p) (balances p) (weights p)), p'.
  split; [exact H |].
  rewrite <- Ht in Hc; rewrite (set_invariant_covered p' Hc).
  assert (E : invariant_of (tokens p') (balances p') (weights p') =
              invariant_of (tokens p) (balances p) (weights p)).
  { rewrite Ht; unfold invariant_of.
    assert (G : forall l s,
              fold_left (fun acc t => acc * pow (index (balances p') t) (index (weights p') t)) l s =
              fold_left (fun acc t => acc * pow (index (balances p) t) (index (weights p) t)) l s).
    { induction l as [| x l IH]; intros s; simpl; [reflexivity |].
      rewrite Hb, Hw; apply IH. }
    apply G. }
  rewrite E, <- Hi; destruct p'; reflexivity.
Qed.

(** * The further properties on the example pools *)

Open Scope string_scope.

Lemma tokens_xy_distinct : NoDup ["X"; "Y"].
Proof.
  constructor; [intros [H | []]; discriminate |].
  constructor; [intros [] | constructor].
Qed.



(** Two equal positive amounts are in the ratio of the balances of
    [pool_xy], whatever their keys. *)
Lemma pool_xy_check (k1 k2 : token) (v : R) :
  0 < v -> check_deposit_ratio [(k1, v); (k2, v)] tol pool_xy = (Ok true, pool_xy).
Proof.
  intros Hv; unfold check_deposit_ratio, bind, get, lift, ratio, accumulate.
  cbn [balances pool_xy map snd fold_left std_equal].
  rewrite !close_enough by (try (unfold tol; lra); field; lra).
  reflexivity.
Qed.

Lemma one_share_redeemable : 1 / SUPPLY <= shares_issued pool_xy.
Proof. unfold pool_xy, SUPPLY, FIRST; simpl; lra. Qed.

Lemma tokens_fixed_witness :
  (2 <= List.length (tokens pool_new_xy))%nat /\
  forall c, tokens (perform c pool_new_xy) = tokens pool_new_xy.
Proof.
  apply (tokens_fixed pool_new_xy).
  apply (reach_construct ["X"; "Y"]); reflexivity.
Defined.

Lemma initialize_effect_witness :
  balances pool_xy = [("X", 100); ("Y", 100)] /\
  shares_issued pool_xy = FIRST /\
  invariant pool_xy = invariant pool_new_xy /\
  forall t, In t (tokens pool_new_xy) ->
    find (weights pool_xy) t =
    Some (index [("X", 100); ("Y", 100)] t / accumulate [("X", 100); ("Y", 100)]).
Proof.
  apply (initialize_effect [("X", 100); ("Y", 100)] pool_new_xy pool_xy).
  - exact tokens_xy_distinct.
  - exact initialize_xy.
Defined.

Lemma initialize_weights_sum_to_one_witness :
  total (weights pool_13) (tokens pool_13) = 1 /\
  forall t, In t (tokens pool_13) -> 0 < index (weights pool_13) t.
Proof.
  apply (initialize_weights_sum_to_one [("X", 1); ("Y", 3)] pool_new_xy pool_13).
  - exact tokens_xy_distinct.
  - discriminate.
  - exact initialize_13.
Defined.

Lemma spot_price_reciprocal_witness :
  exists pxy pyx,
    calculate_spot_price "X" "Y" pool_13 = (Ok pxy, pool_13) /\
    calculate_spot_price "Y" "X" pool_13 = (Ok pyx, pool_13) /\
    calculate_spot_price "X" "X" pool_13 = (Ok 1, pool_13) /\
    pxy * pyx = 1.
Proof.
  apply (spot_price_reciprocal "X" "Y" pool_13 1 (1 / 4) 3 (3 / 4));
    solve [reflexivity | lra].
Defined.

Lemma spot_price_after_initialize_witness :
  calculate_spot_price "X" "Y" pool_13 = (Ok 1, pool_13).
Proof.
  apply (spot_price_after_initialize [("X", 1); ("Y", 3)] pool_new_xy pool_13 "X" "Y").
  - exact tokens_xy_distinct.
  - exact initialize_13.
  - left; reflexivity.
  - right; left; reflexivity.
Defined.

Lemma set_invariant_unweighted_witness :
  exists p',
    set_invariant pool_new_xy = (Ok 1, p') /\
    (forall t, In t (tokens pool_new_xy) -> find (weights p') t = Some 0) /\
    (tokens pool_new_xy <> [] -> weights p' <> []).
Proof. apply (set_invariant_unweighted pool_new_xy); reflexivity. Defined.

Lemma swap_same_token_witness :
  exists p',
    swap "X" "X" 10 pool_xy = (Ok 10, p') /\
    find (balances p') "X" = Some 100 /\
    (forall k, index (balances p') k = index (balances pool_xy) k) /\
    (forall k, index (weights p') k = index (weights pool_xy) k) /\
    shares_issued p' = shares_issued pool_xy.
Proof.
  apply (swap_same_token "X" 10 100 (1 / 2) pool_xy);
    solve [reflexivity | lra].
Defined.


Lemma deposit_one_unknown_token_witness :
  deposit_one [("Z", 5)] pool_xy = (Err OutOfRange, pool_xy).
Proof.
  apply (deposit_one_unknown_token [("Z", 5)] "Z" 5 pool_xy).
  - discriminate.
  - constructor; [intros [] | constructor].
  - exists [], []; split; [reflexivity |]; split; [lra | intros e []].
  - lra.
  - intros H; apply H; reflexivity.
Defined.

Lemma deposit_all_is_deposit_any_witness :
  deposit_all [("X", 1); ("Y", 1)] pool_xy = deposit_any [("X", 1); ("Y", 1)] pool_xy.
Proof.
  apply (deposit_all_is_deposit_any [("X", 1); ("Y", 1)] pool_xy).
  - discriminate.
  - intros e [<- | [<- | []]]; simpl; lra.
Defined.


Lemma withdraw_all_effect_witness :
  exists out p',
    withdraw_all 1 pool_xy = (Ok out, p') /\
    shares_issued p' = shares_issued pool_xy - 1 / SUPPLY /\
    forall t, In t (tokens pool_xy) ->
      find out t =
        Some (index (balances pool_xy) t *
              (1 - pow (shares_issued pool_xy - 1 / SUPPLY)
                     (1 / index (weights pool_xy) t))) /\
      find (balances p') t =
        Some (index (balances pool_xy) t - index out t).
Proof.
  apply (withdraw_all_effect 1 pool_xy).
  - exact tokens_xy_distinct.
  - exact (positive_pool_covered _ pool_xy_positive).
  - lra.
  - exact one_share_redeemable.
Defined.

Lemma withdraw_all_sign_witness :
  exists out p',
    withdraw_all 1 pool_xy = (Ok out, p') /\
    forall t, In t (tokens pool_xy) ->
      exists b o, find (balances pool_xy) t = Some b /\ find out t = Some o /\
        find (balances p') t = Some (b - o) /\
        (shares_issued pool_xy - 1 / SUPPLY = 0 -> o = b /\ b - o = 0) /\
        (shares_issued pool_xy - 1 / SUPPLY < 1 -> 0 < o <= b) /\
        (1 < shares_issued pool_xy - 1 / SUPPLY -> o < 0 /\ b < b - o).
Proof.
  apply (withdraw_all_sign 1 pool_xy).
  - exact tokens_xy_distinct.
  - exact pool_xy_positive.
  - lra.
  - exact one_share_redeemable.
Defined.

Lemma withdraw_one_effect_witness :
  exists out p',
    withdraw_one "X" 1 pool_xy = (Ok out, p') /\
    out = 100 * (1 - pow (shares_issued pool_xy - 1 / SUPPLY) (1 / (1 / 2))) /\
    find (balances p') "X" = Some (100 - out) /\
    (forall k, k <> "X" -> index (balances p') k = index (balances pool_xy) k) /\
    shares_issued p' = shares_issued pool_xy - 1 / SUPPLY /\
    (shares_issued pool_xy - 1 / SUPPLY = 0 -> out = 100) /\
    (shares_issued pool_xy - 1 / SUPPLY < 1 -> 0 < out <= 100) /\
    (shares_issued pool_xy - 1 / SUPPLY = 1 -> out = 0) /\
    (1 < shares_issued pool_xy - 1 / SUPPLY -> out < 0).
Proof.
  apply (withdraw_one_effect "X" 1 100 (1 / 2) pool_xy).
  - reflexivity.
  - reflexivity.
  - lra.
  - lra.
  - lra.
  - exact one_share_redeemable.
Defined.

Lemma withdraw_any_effect_witness :
  exists out p',
    withdraw_any 1 [("X", 1); ("Y", 1)] pool_xy = (Ok out, p') /\
    shares_issued p' = shares_issued pool_xy - 1 / SUPPLY /\
    forall t, In t (tokens pool_xy) ->
      find out t = Some (index [("X", 1); ("Y", 1)] t * (1 / SUPPLY)) /\
      find (balances p') t = Some (index (balances pool_xy) t - index out t).
Proof.
  apply (withdraw_any_effect 1 [("X", 1); ("Y", 1)] pool_xy).
  - discriminate.
  - apply pool_xy_check; lra.
  - exact tokens_xy_distinct.
  - intros t [<- | [<- | []]]; split; discriminate.
  - lra.
  - exact one_share_redeemable.
Defined.


Lemma withdraw_any_not_atomic_witness :
  exists p',
    withdraw_any 1 [("X", 1); ("Z", 1)] pool_xy = (Err OutOfRange, p') /\
    (forall x, In x ["X"] ->
       find (balances p') x =
         Some (index (balances pool_xy) x -
               index [("X", 1); ("Z", 1)] x * (1 / SUPPLY))) /\
    (forall k, ~ In k ["X"] -> find (balances p') k = find (balances pool_xy) k) /\
    shares_issued p' = shares_issued pool_xy /\ invariant p' = invariant pool_xy /\
    weights p' = weights pool_xy.
Proof.
  apply (withdraw_any_not_atomic 1 [("X", 1); ("Z", 1)] pool_xy ["X"] "Y" []).
  - discriminate.
  - apply pool_xy_check; lra.
  - lra.
  - exact one_share_redeemable.
  - reflexivity.
  - constructor; [intros [] | constructor].
  - intros x [<- | []]; split; discriminate.
  - reflexivity.
Defined.

Lemma equalize_effect_witness :
  exists out p',
    equalize [("X", 1); ("Y", 1)] [("X", 2); ("Y", 2)] pool_xy = (Ok out, p') /\
    shares_issued p' = shares_issued pool_xy /\
    forall t, In t (tokens pool_xy) ->
      find out t =
        Some (index (balances pool_xy) t *
              (pow (weighted_inputs (weights pool_xy) [("X", 1); ("Y", 1)] /
                    index (weights pool_xy) t)
                   (1 / index (weights pool_xy) t) - 1)) /\
      find (balances p') t =
        Some (index (balances pool_xy) t + index [("X", 1); ("Y", 1)] t).
Proof.
  apply (equalize_effect [("X", 1); ("Y", 1)] [("X", 2); ("Y", 2)] pool_xy).
  - discriminate.
  - apply pool_xy_check; lra.
  - apply pool_xy_check; lra.
  - exact tokens_xy_distinct.
  - intros e [<- | [<- | []]]; discriminate.
  - intros t [<- | [<- | []]]; repeat split; discriminate.
Defined.

Lemma equalize_ignores_ratio_out_witness :
  equalize [("X", 1); ("Y", 1)] [("X", 2); ("Y", 2)] pool_xy =
  equalize [("X", 1); ("Y", 1)] [("A", 3); ("B", 3)] pool_xy.
Proof.
  apply (equalize_ignores_ratio_out [("X", 1); ("Y", 1)]
           [("X", 2); ("Y", 2)] [("A", 3); ("B", 3)] pool_xy).
  - discriminate.
  - apply pool_xy_check; lra.
  - apply pool_xy_check; lra.
  - apply pool_xy_check; lra.
Defined.

Lemma equalize_missing_input_witness :
  equalize [("X", 1); ("Z", 1)] [("X", 2); ("Y", 2)] pool_xy = (Err OutOfRange, pool_xy).
Proof.
  apply (equalize_missing_input [("X", 1); ("Z", 1)] [("X", 2); ("Y", 2)] pool_xy
           ("Y", 1 / 2)).
  - apply pool_xy_check; lra.
  - apply pool_xy_check; lra.
  - left; reflexivity.
  - reflexivity.
Defined.

Lemma deposit_all_first_witness :
  exists p',
    deposit_all [("X", 5); ("Y", 7)] pool_new_xy = (Ok (5 * SUPPLY / 5), p') /\
    5 * SUPPLY / 5 = SUPPLY /\
    (forall k, find (balances p') k = find [("X", 5); ("Y", 7)] k) /\
    weights p' = [] /\
    shares_issued p' = shares_issued pool_new_xy /\
    invariant p' = invariant pool_new_xy.
Proof.
  apply (deposit_all_first [("X", 5); ("Y", 7)] pool_new_xy "X" ["Y"] 5).
  - reflexivity.
  - reflexivity.
  - exact tokens_xy_distinct.
  - intros e [<- | [<- | []]]; simpl; lra.
  - reflexivity.
  - reflexivity.
Defined.

Lemma check_deposit_ratio_short_witness :
  check_deposit_ratio [("X", 1)] tol pool_xy = (Ok false, pool_xy) \/
  check_deposit_ratio [("X", 1)] tol pool_xy = (Err Undefined, pool_xy).
Proof.
  apply (check_deposit_ratio_short [("X", 1)] tol pool_xy).
  simpl; lia.
Defined.

Close Scope string_scope.

(** * What the guarded methods refuse *)

(** X30.  On every pool whose weights are empty, [deposit_one],
    [deposit_any], [withdraw_one], [withdraw_any], [swap] and [equalize]
    throw [std::invalid_argument] in their first statement and leave the
    pool as it was, whatever their arguments. *)
Theorem guarded_methods_refuse (p : InfinityPool) :
  weights p = [] ->
  (forall a, deposit_one a p = (Err InvalidArgument, p)) /\
  (forall a, deposit_any a p = (Err InvalidArgument, p)) /\
  (forall t redeem, withdraw_one t redeem p = (Err InvalidArgument, p)) /\
  (forall redeem ratios, withdraw_any redeem ratios p = (Err InvalidArgument, p)) /\
  (forall t_in t_out a, swap t_in t_out a p = (Err InvalidArgument, p)) /\
  (forall inputs ratio_out, equalize inputs ratio_out p = (Err InvalidArgument, p)).
Proof.
  intros Hw; repeat split; intros.
  - unfold deposit_one; rewrite unweighted_guard by exact Hw; reflexivity.
  - unfold deposit_any; rewrite unweighted_guard by exact Hw; reflexivity.
  - unfold withdraw_one; rewrite unweighted_guard by exact Hw; reflexivity.
  - unfold withdraw_any; rewrite unweighted_guard by exact Hw; reflexivity.
  - unfold swap; rewrite unweighted_guard by exact Hw; reflexivity.
  - unfold equalize; rewrite unweighted_guard by exact Hw; reflexivity.
Qed.

Lemma guarded_methods_refuse_witness :
  (forall a, deposit_one a pool_new_xy = (Err InvalidArgument, pool_new_xy)) /\
  (forall a, deposit_any a pool_new_xy = (Err InvalidArgument, pool_new_xy)) /\
  (forall t redeem,
     withdraw_one t redeem pool_new_xy = (Err InvalidArgument, pool_new_xy)) /\
  (forall redeem ratios,
     withdraw_any redeem ratios pool_new_xy = (Err InvalidArgument, pool_new_xy)) /\
  (forall t_in t_out a, swap t_in t_out a pool_new_xy = (Err InvalidArgument, pool_new_xy)) /\
  (forall inputs ratio_out,
     equalize inputs ratio_out pool_new_xy = (Err InvalidArgument, pool_new_xy)).
Proof. apply (guarded_methods_refuse pool_new_xy); reflexivity. Defined.

(** * Outcomes in binary64 *)

Section Binary64.

Import PrimFloat.
Open Scope string_scope.

(** [std::pow], whatever the C library returns. *)
Variable pow : float -> float -> float.

(** ** The example pools *)

Lemma ieee_construct_xy : Ieee.construct ["X"; "Y"] = Ok Ieee.pool_new_xy.
Proof. reflexivity. Qed.

Lemma ieee_initialize_xy :
  Ieee.initialize [("X", 100%float); ("Y", 100%float)] Ieee.pool_new_xy =
  (Ok tt, Ieee.pool_xy).
Proof. vm_compute; reflexivity. Qed.

(** ** Withdrawing before the weights are set *)

(** The quotient of 2^-1030 by [SUPPLY] is below half the smallest
    positive [double] and rounds to zero. *)
Lemma small_redeem_underflows :
  ltb zero Ieee.small_redeem = true /\ div Ieee.small_redeem Ieee.SUPPLY = zero.
Proof. split; vm_compute; reflexivity. Qed.

(** C8.  [withdraw_all] has no [weights.empty()] guard.  On the pool the
    constructor has just built, where [shares_issued] is 0, it is refused
    only by [redeem_ratio > shares_issued]; with a positive [redeem] whose
    ratio underflows to zero, and with a NaN, which fails both
    comparisons, the call returns: it reports an amount for every token
    and leaves a weight of 0 for each, so that [weights] is no longer
    empty. *)
Theorem withdraw_all_before_weights :
  Ieee.withdraw_all pow Ieee.small_redeem Ieee.pool_new_xy =
    (Ok [("Y", 0 * (1 - pow 0 infinity)); ("X", 0 * (1 - pow 0 infinity))],
     Ieee.mkPool ["X"; "Y"] [("Y", 0); ("X", 0)]
       [("Y", 0 - 0 * (1 - pow 0 infinity)); ("X", 0 - 0 * (1 - pow 0 infinity))]
       0
       (1 * pow (0 - 0 * (1 - pow 0 infinity)) 0
          * pow (0 - 0 * (1 - pow 0 infinity)) 0))%float /\
  exists out p',
    Ieee.withdraw_all pow nan Ieee.pool_new_xy = (Ok out, p') /\
    Ieee.weights p' = [("Y", zero); ("X", zero)].
Proof.
  split; [vm_compute; reflexivity |].
  do 2 eexists; split; vm_compute; reflexivity.
Qed.

(** ** Absorption *)

(** On the pool initialized with 100 X and 100 Y, [withdraw_all(1)]
    returns and leaves [shares_issued] at 1e8: 1e8 - 1e-15 rounds to
    1e8. *)
Lemma withdraw_all_absorbed :
  (exists out, fst (Ieee.withdraw_all pow 1%float Ieee.pool_xy) = Ok out) /\
  Ieee.shares_issued (snd (Ieee.withdraw_all pow 1%float Ieee.pool_xy)) =
  Ieee.shares_issued Ieee.pool_xy.
Proof. split; [eexists |]; vm_compute; reflexivity. Qed.

(** ** [deposit_one] *)

(** C6.  The guard of [deposit_one] is [amount < 0].  A NaN compares
    unequal to zero and is not less than zero: on the pool initialized
    with 100 X and 100 Y, [deposit_one] of a NaN amount of X returns NaN
    shares and leaves NaN as the balance of X. *)
Theorem deposit_one_accepts_nan :
  Ieee.deposit_one pow [("X", nan)] Ieee.pool_xy =
  (Ok nan,
   Ieee.mkPool ["X"; "Y"] [("Y", 0.5); ("X", 0.5)] [("X", nan); ("Y", 100)]
     Ieee.FIRST (1 * pow nan 0.5 * pow 100 0.5))%float.
Proof. vm_compute; reflexivity. Qed.

Lemma ieee_find_touch_kept m k k' v :
  Ieee.find m k = Some v -> Ieee.find (Ieee.touch m k') k = Some v.
Proof.
  intros H; unfold Ieee.touch; destruct (Ieee.find m k') eqn:E; [exact H |].
  cbn [Ieee.find]; destruct (String.eqb k' k) eqn:Ek; [| exact H].
  apply String.eqb_eq in Ek; subst k'; rewrite H in E; discriminate.
Qed.

Lemma ieee_find_replace_same m k v v' :
  Ieee.find m k = Some v -> Ieee.find (Ieee.replace m k v') k = Some v'.
Proof.
  induction m as [| [k0 v0] m IH]; cbn [Ieee.find Ieee.replace]; [discriminate |].
  destruct (String.eqb k0 k) eqn:E; cbn [Ieee.find]; rewrite E; [reflexivity | exact IH].
Qed.

(** The loop of [set_invariant] returns, and writes neither
    [shares_issued] nor a balance that is there. *)
Lemma ieee_invariant_loop l : forall q,
  exists q',
    Ieee.for_each l (fun token =>
      Ieee.bind (Ieee.balances_index token) (fun b =>
      Ieee.bind (Ieee.weights_index token) (fun w =>
      Ieee.modify (fun q0 =>
        Ieee.with_invariant (mul (Ieee.invariant q0) (pow b w)) q0)))) q
    = (Ok tt, q') /\
    Ieee.shares_issued q' = Ieee.shares_issued q /\
    forall k v, Ieee.find (Ieee.balances q) k = Some v ->
                Ieee.find (Ieee.balances q') k = Some v.
Proof.
  induction l as [| x l IH]; intros q.
  - exists q; repeat split; auto.
  - cbn [Ieee.for_each].
    set (q1 := Ieee.with_invariant
                 (mul (Ieee.invariant q)
                    (pow (Ieee.index (Ieee.balances q) x) (Ieee.index (Ieee.weights q) x)))
                 (Ieee.with_weights (Ieee.touch (Ieee.weights q) x)
                    (Ieee.with_balances (Ieee.touch (Ieee.balances q) x) q))).
    destruct (IH q1) as (q' & H & Hs & Hb).
    exists q'; split; [| split].
    + unfold Ieee.bind at 1.
      change (Ieee.bind (Ieee.balances_index x) _ q) with (@Ok unit tt, q1).
      exact H.
    + rewrite Hs; reflexivity.
    + intros k v Hv; apply Hb; unfold q1; simpl.
      apply ieee_find_touch_kept, Hv.
Qed.

Lemma ieee_set_invariant_keeps q :
  exists i q',
    Ieee.set_invariant pow q = (Ok i, q') /\
    Ieee.shares_issued q' = Ieee.shares_issued q /\
    forall k v, Ieee.find (Ieee.balances q) k = Some v ->
                Ieee.find (Ieee.balances q') k = Some v.
Proof.
  destruct (ieee_invariant_loop (Ieee.tokens q) (Ieee.with_invariant one q))
    as (q' & H & Hs & Hb).
  exists (Ieee.invariant q'), q'; split; [| split; [exact Hs | exact Hb]].
  unfold Ieee.set_invariant.
  unfold Ieee.bind at 1, Ieee.modify at 1.
  unfold Ieee.bind at 1, Ieee.get at 1.
  unfold Ieee.bind at 1.
  change (Ieee.tokens (Ieee.with_invariant one q)) with (Ieee.tokens q).
  rewrite H; reflexivity.
Qed.

Lemma ieee_all_zero_count (m : Ieee.dmap) :
  (forall e, In e m -> eqb (snd e) zero = true) ->
  Ieee.count_nonzero m = 0%nat /\ Ieee.find_nonzero m = None.
Proof.
  unfold Ieee.count_nonzero; induction m as [| e0 m IH];
    cbn [filter Ieee.find_nonzero List.length]; [auto |].
  intros H; pose proof (H e0 (or_introl eq_refl)) as E.
  unfold Ieee.double in *; rewrite E; cbn [negb].
  apply IH; intros e He; apply H; right; exact He.
Qed.

Lemma ieee_count_zero_all (m : Ieee.dmap) :
  Ieee.count_nonzero m = 0%nat -> forall e, In e m -> eqb (snd e) zero = true.
Proof.
  unfold Ieee.count_nonzero; induction m as [| e0 m IH];
    cbn [filter List.length In]; [contradiction |].
  unfold Ieee.double in *.
  destruct (eqb (snd e0) zero) eqn:E; cbn [negb List.length]; [| discriminate].
  intros H e [<- | He]; [exact E | apply IH; assumption].
Qed.

Lemma ieee_count_one_only (m : Ieee.dmap) :
  Ieee.count_nonzero m = 1%nat ->
  exists t a, Ieee.find_nonzero m = Some (t, a) /\ Ieee.only_nonzero m t a.
Proof.
  unfold Ieee.count_nonzero; induction m as [| [t0 a0] m IH];
    cbn [filter Ieee.find_nonzero List.length snd]; [discriminate |].
  unfold Ieee.double in *.
  destruct (eqb a0 zero) eqn:E; cbn [negb List.length].
  - intros H; destruct (IH H) as (t & a & Hf & l1 & l2 & -> & Ha & Hz).
    exists t, a; split; [exact Hf |].
    exists ((t0, a0) :: l1), l2; repeat split; [exact Ha |].
    intros e [<- | He]; [exact E | apply Hz, He].
  - intros H; injection H as H.
    exists t0, a0; split; [reflexivity |].
    exists [], m; repeat split; [exact E |].
    apply ieee_count_zero_all, H.
Qed.

Lemma ieee_only_count_one (m : Ieee.dmap) t a :
  Ieee.only_nonzero m t a ->
  Ieee.count_nonzero m = 1%nat /\ Ieee.find_nonzero m = Some (t, a).
Proof.
  intros (l1 & l2 & -> & Ha & Hz).
  unfold Ieee.count_nonzero; induction l1 as [| e l1 IH];
    cbn [app filter Ieee.find_nonzero List.length snd].
  - unfold Ieee.double in *; rewrite Ha; cbn [negb List.length].
    destruct (ieee_all_zero_count l2 Hz) as [H _]; unfold Ieee.count_nonzero in H.
    unfold Ieee.double in *; rewrite H; auto.
  - pose proof (Hz e (or_introl eq_refl)) as E.
    unfold Ieee.double in *; rewrite E; cbn [negb].
    apply IH; intros e' He'; apply Hz; right; exact He'.
Qed.

Lemma ieee_find_middle (l1 l2 : Ieee.dmap) t a :
  Ieee.is_map (l1 ++ (t, a) :: l2)%list ->
  Ieee.find (l1 ++ (t, a) :: l2)%list t = Some a.
Proof.
  unfold Ieee.is_map; induction l1 as [| [k0 v0] l1 IH]; simpl; intros H.
  - rewrite String.eqb_refl; reflexivity.
  - inversion H as [| ? ? Hn Hd]; subst.
    destruct (String.eqb k0 t) eqn:E; [| apply IH, Hd].
    apply String.eqb_eq in E; subst k0; exfalso; apply Hn.
    rewrite map_app; apply in_or_app; right; left; reflexivity.
Qed.

(** X29.  [deposit_one] in binary64, on a pool with weights.  It throws
    [std::invalid_argument], leaving the pool as it was, unless one entry
    of the map alone compares unequal to zero and that entry is not less
    than zero.  For such an entry [(t, a)] it throws [std::out_of_range],
    the pool again untouched, when [t] has no balance; and when [t] has
    the balance [b] it returns [(a * SUPPLY) / b], rounded as the program
    rounds it, leaves [b + a] as the balance of [t] and does not write
    [shares_issued]. *)
Theorem ieee_deposit_one_contract (amount_in : Ieee.dmap) (p : Ieee.InfinityPool) :
  Ieee.weights p <> [] ->
  Ieee.is_map amount_in ->
  (~ (exists t a, Ieee.only_nonzero amount_in t a /\ ltb a zero = false) ->
   Ieee.deposit_one pow amount_in p = (Err InvalidArgument, p)) /\
  (forall t a,
     Ieee.only_nonzero amount_in t a -> ltb a zero = false ->
     match Ieee.find (Ieee.balances p) t with
     | None => Ieee.deposit_one pow amount_in p = (Err OutOfRange, p)
     | Some b =>
         exists p',
           Ieee.deposit_one pow amount_in p =
             (Ok (div (mul a Ieee.SUPPLY) b), p') /\
           Ieee.find (Ieee.balances p') t = Some (add b a) /\
           Ieee.shares_issued p' = Ieee.shares_issued p
     end).
Proof.
  intros Hw Hm.
  assert (G : forall k : bool -> Ieee.M float,
            Ieee.bind Ieee.weights_empty k p = k false p).
  { intros k; unfold Ieee.weights_empty, Ieee.bind, Ieee.get, Ieee.ret.
    destruct (Ieee.weights p); [contradiction | reflexivity]. }
  assert (Run : forall t a,
            Ieee.only_nonzero amount_in t a -> ltb a zero = false ->
            Ieee.deposit_one pow amount_in p =
            Ieee.bind (Ieee.balances_at t) (fun b =>
            Ieee.bind (Ieee.balances_at t) (fun b' =>
            Ieee.bind (Ieee.modify (fun q =>
              Ieee.with_balances (Ieee.replace (Ieee.balances q) t (add b' a)) q)) (fun _ =>
            Ieee.bind (Ieee.set_invariant pow) (fun _ =>
            Ieee.ret (div (mul a Ieee.SUPPLY) b))))) p).
  { intros t a Ho Hn.
    destruct (ieee_only_count_one _ _ _ Ho) as [Hc Hf].
    assert (Ha : Ieee.find amount_in t = Some a).
    { destruct Ho as (l1 & l2 & E & _); subst amount_in; apply ieee_find_middle, Hm. }
    unfold Ieee.deposit_one; rewrite G, Hc, Hf; cbn [Nat.eqb negb].
    unfold Ieee.bind at 1, Ieee.at_ at 1; rewrite Ha.
    unfold Ieee.ret at 1; rewrite Hn; reflexivity. }
  split.
  - intros Hnot; unfold Ieee.deposit_one; rewrite G.
    destruct (Nat.eqb (Ieee.count_nonzero amount_in) 1) eqn:Ec; cbn [negb];
      [| reflexivity].
    apply Nat.eqb_eq in Ec.
    destruct (ieee_count_one_only _ Ec) as (t & a & Hf & Ho).
    assert (Ha : Ieee.find amount_in t = Some a).
    { destruct Ho as (l1 & l2 & E & _); subst amount_in; apply ieee_find_middle, Hm. }
    rewrite Hf.
    unfold Ieee.bind at 1, Ieee.at_ at 1; rewrite Ha; unfold Ieee.ret at 1.
    destruct (ltb a zero) eqn:El; [reflexivity |].
    exfalso; apply Hnot; exists t, a; split; assumption.
  - intros t a Ho Hn; rewrite (Run t a Ho Hn).
    destruct (Ieee.find (Ieee.balances p) t) as [b |] eqn:Fb.
    + unfold Ieee.bind at 1, Ieee.balances_at at 1.
      unfold Ieee.bind at 1, Ieee.get at 1, Ieee.at_ at 1; rewrite Fb.
      unfold Ieee.ret at 1.
      unfold Ieee.bind at 1, Ieee.balances_at at 1.
      unfold Ieee.bind at 1, Ieee.get at 1, Ieee.at_ at 1; rewrite Fb.
      unfold Ieee.ret at 1.
      unfold Ieee.bind at 1, Ieee.modify at 1.
      set (q := Ieee.with_balances _ p).
      destruct (ieee_set_invariant_keeps q) as (i & p' & H & Hs & Hb).
      exists p'; unfold Ieee.bind; rewrite H; split; [reflexivity |].
      split; [| exact Hs].
      apply Hb; unfold q; simpl; apply (ieee_find_replace_same _ _ _ _ Fb).
    + unfold Ieee.bind at 1, Ieee.balances_at at 1.
      unfold Ieee.bind at 1, Ieee.get at 1, Ieee.at_ at 1; rewrite Fb.
      reflexivity.
Qed.

End Binary64.

Section Binary64Example.

Import PrimFloat.
Open Scope string_scope.

(** The contract on the pool initialized with 100 X and 100 Y, for the
    deposit of 10 X.  The statement does not depend on what [std::pow]
    returns: the first projection stands for it. *)
Lemma ieee_deposit_one_contract_witness :
  (~ (exists t a, Ieee.only_nonzero [("X", 10%float)] t a /\ ltb a zero = false) ->
   Ieee.deposit_one (fun x _ => x) [("X", 10%float)] Ieee.pool_xy =
     (Err InvalidArgument, Ieee.pool_xy)) /\
  (forall t a,
     Ieee.only_nonzero [("X", 10%float)] t a -> ltb a zero = false ->
     match Ieee.find (Ieee.balances Ieee.pool_xy) t with
     | None =>
         Ieee.deposit_one (fun x _ => x) [("X", 10%float)] Ieee.pool_xy =
           (Err OutOfRange, Ieee.pool_xy)
     | Some b =>
         exists p',
           Ieee.deposit_one (fun x _ => x) [("X", 10%float)] Ieee.pool_xy =
             (Ok (div (mul a Ieee.SUPPLY) b), p') /\
           Ieee.find (Ieee.balances p') t = Some (add b a) /\
           Ieee.shares_issued p' = Ieee.shares_issued Ieee.pool_xy
     end).
Proof.
  apply (ieee_deposit_one_contract (fun x _ => x) [("X", 10%float)] Ieee.pool_xy).
  - discriminate.
  - constructor; [intros [] | constructor].
Defined.

End Binary64Example.
